(** * certscan: the certificate probing and protocol dispatch engine

    A shallow embedding of [internal/scanner/scanner.go] and the properties
    its specification states about it.

    Conventions of the embedding:
    - a Go [string] is a sequence of bytes: [string] (a list of 8-bit
      [ascii]); a [[]byte] is a [list byte];
    - a Go [int] is a [Z]; a [time.Duration] is an [int64], a [Z] whose
      arithmetic wraps around at 64 bits; a [map[K]V] is a [gmap K V], a
      map used as a set ([map[string]struct{}]) is a [gset];
    - network I/O is an explicit oracle (the peer's replies) and an explicit
      log of the operations performed; every connection attempt has an
      outcome of its own;
    - [strings.ToLower] and [strings.ToUpper] do what Go does: a string of
      ASCII bytes is mapped byte by byte, any other string rune by rune,
      through the UTF-8 decoder and encoder; the case tables of the package
      [unicode] are data of the Go runtime and are taken as given (the
      class [Unicode]);
    - the ClientHello of a probe (cipher suites, curves, signature
      algorithms, ALPN) is fixed by its cipher family, so the peer's answer
      is given per family. *)

From Stdlib Require Import ZArith NArith Lia Bool Ascii.
From Stdlib.Strings Require Import Byte.
From Stdlib Require String.
From stdpp Require Import base gmap strings list.

Local Open Scope Z_scope.

(** ** Go's [unicode] and [unicode/utf8] packages *)

(** [unicode.ToLower] and [unicode.ToUpper] on runes: the simple case
    mappings of the Unicode tables, which the program takes from its
    runtime. *)
Class Unicode := {
  unicode_ToLower : Z → Z;
  unicode_ToUpper : Z → Z
}.

Module utf8.

Definition RuneError : Z := 0xFFFD.
Definition RuneSelf : Z := 0x80.
Definition MaxRune : Z := 0x10FFFF.
Definition surrogateMin : Z := 0xD800.
Definition surrogateMax : Z := 0xDFFF.
Definition rune1Max : Z := 0x7F.
Definition rune2Max : Z := 0x7FF.
Definition rune3Max : Z := 0xFFFF.
Definition t2 : Z := 0xC0.
Definition t3 : Z := 0xE0.
Definition t4 : Z := 0xF0.
Definition tx : Z := 0x80.
Definition maskx : Z := 0x3F.
Definition mask2 : Z := 0x1F.
Definition mask3 : Z := 0x0F.
Definition mask4 : Z := 0x07.
Definition locb : Z := 0x80.
Definition hicb : Z := 0xBF.

(** A byte of a string as a number, and [byte(x)]. *)
Definition uint8 (c : ascii) : Z := Z.of_N (N_of_ascii c).
Definition byte_ (x : Z) : ascii := ascii_of_N (Z.to_N (x mod 256)).

(** The table [first] with [acceptRanges]: for a lead byte, the size of
    the sequence and the range its second byte has to be in. *)
Definition first (s0 : Z) : option (nat * Z * Z) :=
  if (0xC2 <=? s0) && (s0 <=? 0xDF) then Some (2%nat, locb, hicb)
  else if s0 =? 0xE0 then Some (3%nat, 0xA0, hicb)
  else if (0xE1 <=? s0) && (s0 <=? 0xEC) then Some (3%nat, locb, hicb)
  else if s0 =? 0xED then Some (3%nat, locb, 0x9F)
  else if (0xEE <=? s0) && (s0 <=? 0xEF) then Some (3%nat, locb, hicb)
  else if s0 =? 0xF0 then Some (4%nat, 0x90, hicb)
  else if (0xF1 <=? s0) && (s0 <=? 0xF3) then Some (4%nat, locb, hicb)
  else if s0 =? 0xF4 then Some (4%nat, locb, 0x8F)
  else None.

(** The next byte of a sequence, when there is one and it is in range. *)
Definition next (lo hi : Z) (s : string) : option (Z * string) :=
  match s with
  | String c s' =>
      let b := uint8 c in
      if (lo <=? b) && (b <=? hi) then Some (b, s') else None
  | EmptyString => None
  end.

(** [utf8.DecodeRuneInString]: the rune at the start of [s] and, for its
    width, what follows it in [s]. A byte that begins no valid sequence is
    [RuneError] of width 1. *)
Definition DecodeRuneInString (s : string) : Z * string :=
  match s with
  | EmptyString => (RuneError, EmptyString)
  | String c t =>
      let s0 := uint8 c in
      if s0 <? RuneSelf then (s0, t)
      else
        match first s0 with
        | None => (RuneError, t)
        | Some (sz, lo, hi) =>
            match next lo hi t with
            | None => (RuneError, t)
            | Some (s1, t1) =>
                if (sz <=? 2)%nat then
                  (Z.lor (Z.shiftl (Z.land s0 mask2) 6) (Z.land s1 maskx), t1)
                else
                  match next locb hicb t1 with
                  | None => (RuneError, t)
                  | Some (s2, t2) =>
                      if (sz <=? 3)%nat then
                        (Z.lor (Z.lor (Z.shiftl (Z.land s0 mask3) 12)
                                      (Z.shiftl (Z.land s1 maskx) 6))
                               (Z.land s2 maskx), t2)
                      else
                        match next locb hicb t2 with
                        | None => (RuneError, t)
                        | Some (s3, t3) =>
                            (Z.lor (Z.lor (Z.lor (Z.shiftl (Z.land s0 mask4) 18)
                                                 (Z.shiftl (Z.land s1 maskx) 12))
                                          (Z.shiftl (Z.land s2 maskx) 6))
                                   (Z.land s3 maskx), t3)
                        end
                  end
            end
        end
  end.

(** [utf8.AppendRune] to an empty buffer, for a rune that is not
    negative. *)
Definition AppendRune (r : Z) : string :=
  if r <=? rune1Max then String (byte_ r) EmptyString
  else if r <=? rune2Max then
    String (byte_ (Z.lor t2 (Z.shiftr r 6)))
      (String (byte_ (Z.lor tx (Z.land r maskx))) EmptyString)
  else
    let r := if (MaxRune <? r) || ((surrogateMin <=? r) && (r <=? surrogateMax))
             then RuneError else r in
    if r <=? rune3Max then
      String (byte_ (Z.lor t3 (Z.shiftr r 12)))
        (String (byte_ (Z.lor tx (Z.land (Z.shiftr r 6) maskx)))
           (String (byte_ (Z.lor tx (Z.land r maskx))) EmptyString))
    else
      String (byte_ (Z.lor t4 (Z.shiftr r 18)))
        (String (byte_ (Z.lor tx (Z.land (Z.shiftr r 12) maskx)))
           (String (byte_ (Z.lor tx (Z.land (Z.shiftr r 6) maskx)))
              (String (byte_ (Z.lor tx (Z.land r maskx))) EmptyString))).

End utf8.

(** ** Go's [strings] package, on byte strings *)

Module GoStrings.

(** [len(s)] *)
Definition len (s : string) : nat := String.length s.

(** [s[lo:hi]]; the callers below keep [lo <= hi <= len(s)], outside of
    which Go panics. *)
Definition slice (s : string) (lo hi : nat) : string :=
  String.substring lo (hi - lo) s.

Definition lowerByte (c : ascii) : ascii :=
  let n := N_of_ascii c in
  if ((65 <=? n) && (n <=? 90))%N then ascii_of_N (n + 32) else c.

Definition upperByte (c : ascii) : ascii :=
  let n := N_of_ascii c in
  if ((97 <=? n) && (n <=? 122))%N then ascii_of_N (n - 32) else c.

Fixpoint mapBytes (f : ascii -> ascii) (s : string) : string :=
  match s with
  | EmptyString => EmptyString
  | String c s' => String (f c) (mapBytes f s')
  end.

(** The first loop of [strings.ToLower] and [strings.ToUpper]: no byte of
    [s] is [utf8.RuneSelf] or above. *)
Fixpoint isASCII (s : string) : bool :=
  match s with
  | EmptyString => true
  | String c s' => (utf8.uint8 c <? utf8.RuneSelf) && isASCII s'
  end.

(** [strings.Map]: the runes of [s] in order, each mapped and encoded
    again; a rune mapped to a negative value is dropped. A byte that begins
    no valid sequence is read as [utf8.RuneError], so it is written as the
    three bytes of U+FFFD. *)
Fixpoint Map_loop (fuel : nat) (mapping : Z → Z) (s : string) : string :=
  match fuel with
  | O => EmptyString
  | S fuel =>
      match s with
      | EmptyString => EmptyString
      | String _ _ =>
          let '(c, rest) := utf8.DecodeRuneInString s in
          let r := mapping c in
          (if 0 <=? r then utf8.AppendRune r else EmptyString)
          +:+ Map_loop fuel mapping rest
      end
  end.

Definition Map (mapping : Z → Z) (s : string) : string :=
  Map_loop (len s) mapping s.

(** [strings.ToLower], [strings.ToUpper]: a string of ASCII bytes is mapped
    byte by byte, any other through [unicode.ToLower], [unicode.ToUpper]. *)
Definition ToLower {U : Unicode} (s : string) : string :=
  if isASCII s then mapBytes lowerByte s else Map unicode_ToLower s.

Definition ToUpper {U : Unicode} (s : string) : string :=
  if isASCII s then mapBytes upperByte s else Map unicode_ToUpper s.

(** [strings.HasPrefix]:
    [len(s) >= len(prefix) && s[:len(prefix)] == prefix] *)
Definition HasPrefix (s prefix : string) : bool :=
  (len prefix <=? len s)%nat && String.eqb (slice s 0 (len prefix)) prefix.

(** [strings.HasSuffix]:
    [len(s) >= len(suffix) && s[len(s)-len(suffix):] == suffix] *)
Definition HasSuffix (s suffix : string) : bool :=
  (len suffix <=? len s)%nat
  && String.eqb (slice s (len s - len suffix) (len s)) suffix.

(** [strings.Index]: the first position at which [substr] occurs. *)
Fixpoint Index (s substr : string) : option nat :=
  if HasPrefix s substr then Some 0%nat
  else match s with
       | EmptyString => None
       | String _ s' => S <$> Index s' substr
       end.

(** [strings.Contains]: [Index(s, substr) >= 0] *)
Definition Contains (s substr : string) : bool :=
  match Index s substr with Some _ => true | None => false end.

End GoStrings.

Import GoStrings.

(** ** The wildcard matcher *)

(** [matchWildcard] checks if [s] matches [pattern] (supports the [*]
    wildcard at either end). *)
Definition matchWildcard {U : Unicode} (pattern s : string) : bool :=
  if String.eqb pattern "" then false
  else
    let pattern := ToLower pattern in
    let s := ToLower s in
    if String.eqb pattern "*" then true
    else if HasPrefix pattern "*" && HasSuffix pattern "*" then
      Contains s (slice pattern 1 (len pattern - 1))
    else if HasPrefix pattern "*" then
      HasSuffix s (slice pattern 1 (len pattern))
    else if HasSuffix pattern "*" then
      HasPrefix s (slice pattern 0 (len pattern - 1))
    else String.eqb s pattern.

(** ** Go's [encoding/base64], [StdEncoding] (RFC 4648, padded) *)

Module Base64.

Definition encodeStd : string :=
  "ABCDEFGHIJKLMNOPQRSTUVWXYZabcdefghijklmnopqrstuvwxyz0123456789+/".

Definition padChar : ascii := "="%char.

(** [enc.encode[v]] *)
Definition encode (v : N) : ascii :=
  default padChar (String.get (N.to_nat v) encodeStd).

Fixpoint indexByte (s : string) (c : ascii) : option nat :=
  match s with
  | EmptyString => None
  | String d s' => if Ascii.eqb d c then Some 0%nat else S <$> indexByte s' c
  end.

(** [enc.decodeMap[c]], the inverse table of [encode]; the entries Go
    fills with [0xff] are [None]. *)
Definition decodeMap (c : ascii) : option N :=
  N.of_nat <$> indexByte encodeStd c.

(** [uint(b)] and [byte(v)] *)
Definition uint (b : byte) : N := Byte.to_N b.
Definition byte_ (v : N) : byte := default x00 (Byte.of_N (v mod 256)%N).

Definition sextet (val : N) (shift : N) : ascii :=
  encode (N.land (N.shiftr val shift) 63).

(** [StdEncoding.EncodeToString]: three bytes become four characters; a
    remainder of one or two bytes is padded with [=]. *)
Fixpoint EncodeToString (src : list byte) : string :=
  match src with
  | b0 :: b1 :: b2 :: rest =>
      let val := N.lor (N.lor (N.shiftl (uint b0) 16) (N.shiftl (uint b1) 8))
                       (uint b2) in
      String (sextet val 18) (String (sextet val 12)
        (String (sextet val 6) (String (sextet val 0) (EncodeToString rest))))
  | [b0; b1] =>
      let val := N.lor (N.shiftl (uint b0) 16) (N.shiftl (uint b1) 8) in
      String (sextet val 18) (String (sextet val 12)
        (String (sextet val 6) (String padChar EmptyString)))
  | [b0] =>
      let val := N.shiftl (uint b0) 16 in
      String (sextet val 18) (String (sextet val 12)
        (String padChar (String padChar EmptyString)))
  | [] => EmptyString
  end.

Definition isNewline (c : ascii) : bool :=
  Ascii.eqb c "010"%char || Ascii.eqb c "013"%char.

(** The decoder skips every carriage return and line feed. *)
Fixpoint stripNewlines (s : string) : string :=
  match s with
  | EmptyString => EmptyString
  | String c s' =>
      if isNewline c then stripNewlines s' else String c (stripNewlines s')
  end.

Definition quantum (d0 d1 d2 d3 : N) : N :=
  N.lor (N.lor (N.lor (N.shiftl d0 18) (N.shiftl d1 12)) (N.shiftl d2 6)) d3.

(** [decodeQuantum], repeated: four characters give three bytes; padding
    is accepted in the last quantum only, anything else is a
    [CorruptInputError] ([None]). *)
Fixpoint decodeQuanta (s : string) : option (list byte) :=
  match s with
  | EmptyString => Some []
  | String c0 (String c1 (String c2 (String c3 rest))) =>
      match decodeMap c0, decodeMap c1 with
      | Some d0, Some d1 =>
          match decodeMap c2, decodeMap c3 with
          | Some d2, Some d3 =>
              let val := quantum d0 d1 d2 d3 in
              match decodeQuanta rest with
              | Some tl =>
                  Some (byte_ (N.shiftr val 16) :: byte_ (N.shiftr val 8)
                          :: byte_ val :: tl)
              | None => None
              end
          | Some d2, None =>
              let val := quantum d0 d1 d2 0 in
              if Ascii.eqb c3 padChar && String.eqb rest "" then
                Some [byte_ (N.shiftr val 16); byte_ (N.shiftr val 8)]
              else None
          | None, _ =>
              let val := quantum d0 d1 0 0 in
              if Ascii.eqb c2 padChar && Ascii.eqb c3 padChar
                 && String.eqb rest "" then
                Some [byte_ (N.shiftr val 16)]
              else None
          end
      | _, _ => None
      end
  | _ => None
  end.

(** [StdEncoding.DecodeString]; [None] is a non-nil error. *)
Definition DecodeString (s : string) : option (list byte) :=
  decodeQuanta (stripNewlines s).

End Base64.

(** ** Go's [int64] and [time.Duration] *)

(** The value of a mathematical integer in 64 bits, two's complement:
    what a conversion to [int64] or an [int64] operation yields. *)
Definition int64 (x : Z) : Z := (x + 2 ^ 63) mod 2 ^ 64 - 2 ^ 63.

(** [time.Duration(x)] for an integer [x]: a count of nanoseconds. *)
Definition time_Duration (x : Z) : Z := int64 x.

(** [time.Millisecond] *)
Definition time_Millisecond : Z := 1000000.

(** [d * time.Millisecond] on [time.Duration]. *)
Definition milliseconds (d : Z) : Z := int64 (d * time_Millisecond).

(** A line feed. *)
Definition LF : string := String "010"%char EmptyString.

(** ** Data model *)

(** The fields of [*x509.Certificate] the scanner reads: [Issuer.String()]
    and [Subject.CommonName]. *)
Record Certificate := {
  Issuer_String : string;
  Subject_CommonName : string
}.

(** [config.ExcludeCertRule] *)
Record ExcludeCertRule := {
  Issuer : string;
  CN : string
}.

Record ScanResult := {
  IP : string;
  Port : Z;
  Hostname : string;
  HandshakeType : string;
  Certificates : list string;
  Timestamp : Z
}.

(** The fields of [shared.Config] the scanner reads. *)
Record SharedConfig := {
  WebhookURL : string;
  Token : string;
  WebhookTimeoutMs : Z;
  DialTimeoutMs : Z;
  ConcurrencyLimit : Z;
  ExcludeCerts : list ExcludeCertRule
}.

Definition AllowedProtocols : list string :=
  ["http1"; "h2"; "h3"; "smtp"; "ldap"; "imap"; "pop3"; "custom"].

(** Modelled from the spec: [shared.Contains] is declared in the package
    [internal/shared], outside the files at hand; the dispatcher uses it to
    test whether the resolved protocol is in the static allow-list. *)
Definition shared_Contains (l : list string) (x : string) : bool :=
  existsb (String.eqb x) l.

(** ** Effects: a state and error monad

    [SE S E A] is a computation over a state [S] that either fails with an
    [E] or returns an [A]; the state reached is kept in both cases, so what
    was written or logged before a failure stays observable. *)

Definition SE (S E A : Type) : Type := S → (E + A) * S.

Global Instance SE_ret {S E} : MRet (SE S E) := λ A a s, (inr a, s).

Global Instance SE_bind {S E} : MBind (SE S E) := λ A B k m s,
  match m s with
  | (inr a, s') => k a s'
  | (inl e, s') => (inl e, s')
  end.

Definition raise {S E A} (e : E) : SE S E A := λ s, (inl e, s).
Definition modify {S E} (f : S → S) : SE S E unit := λ s, (inr tt, f s).

(** What a run of the scanner does to the outside world, in order. The
    family on whose behalf a connection is dialled is recorded with it. *)
Inductive Event :=
| NetDial (ip : string) (port : Z) (handshakeType : string)
| TlsHandshake (ip hostname : string) (port : Z) (handshakeType : string)
| HttpPost (url : string) (bearer : string) (results : list ScanResult)
| DebugLog (format : string)
| ErrorLog (format : string)
| Println (text : string).

(** A computation of the process: the state is the trace of events so far,
    the error is the code given to [os.Exit]. *)
Abbreviation IO := (SE (list Event) Z).

Definition emit (e : Event) : IO unit := modify (λ log, log ++ [e]).
Definition os_Exit {A} (code : Z) : IO A := raise code.

(** How a POST to the webhook ends. *)
Inductive PostOutcome :=
| MarshalFailed
| NewRequestFailed
| DoFailed
| Response (StatusCode : Z).

(** The process environment: the configuration singleton, the clock and
    the peers. A dial succeeds or not; the probes of the two families dial
    separately, so the outcome of a dial is given for the address, the
    timeout and the family on whose behalf it is made. A handshake fails
    ([None], also when the ClientHello cannot be applied) or yields the raw
    peer certificates; a POST, made under a timeout, ends in one of the
    ways of [PostOutcome]. *)
Record Env := {
  Config : SharedConfig;
  time_Now_Unix : Z;
  dialer_Dial : string → Z → Z → string → bool;
  uconn_Handshake : string → string → Z → string → option (list (list byte));
  client_Do : string → Z → list ScanResult → PostOutcome
}.

(** [ProtocolHandler]: returns true if handled, false to fall back to the
    default TLS scan. *)
Definition ProtocolHandler : Type := string → string → Z → IO bool.

(** The errors of [tlsHandshakeAndCollectWithTimeout]. *)
Inductive ProbeError :=
| DialError
| HandshakeError
| NoCertsFound.

Definition setCertificates (r : ScanResult) (certs : list string) : ScanResult :=
  {| IP := IP r; Port := Port r; Hostname := Hostname r;
     HandshakeType := HandshakeType r; Certificates := certs;
     Timestamp := Timestamp r |}.

(** [map[int]bool] lookup: an absent key reads as [false]. *)
Definition portSet_get (m : gmap Z bool) (port : Z) : bool :=
  default false (m !! port).

Definition webPorts : gmap Z bool :=
  list_to_map [(443, true); (8443, true); (4433, true); (5001, true); (10443, true)].

Definition smtpPorts : gmap Z bool :=
  list_to_map [(25, true); (465, true); (587, true)].

(** The effective protocol of a port task: the first statements of the
    goroutine body of [ScanAndSendWithProtocol]. *)
Definition resolveProto (protocol : string) (port : Z) : string :=
  let proto := protocol in
  if String.eqb proto "" && portSet_get webPorts port then "http1"
  else if portSet_get smtpPorts port then "smtp"
  else proto.

Section Scanner.

Context {U : Unicode}.

(** [x509.ParseCertificate]; [None] is a parse error. *)
Variable ParseCertificate : list byte → option Certificate.

(** [smtpProtocolHandler] is declared in another file of the package. *)
Variable smtpProtocolHandler : ProtocolHandler.

(** [isCertExcluded] checks if a certificate matches any rule. *)
Fixpoint isCertExcluded (cert : Certificate) (rules : list ExcludeCertRule) : bool :=
  let issuer := Issuer_String cert in
  let cn := Subject_CommonName cert in
  match rules with
  | [] => false
  | rule :: rules' =>
      if (negb (String.eqb (Issuer rule) "") && matchWildcard (Issuer rule) issuer)
         || (negb (String.eqb (CN rule) "") && matchWildcard (CN rule) cn)
      then true
      else isCertExcluded cert rules'
  end.

(** The loop of [filterCerts], with [filtered] as its accumulator. *)
Fixpoint filterCerts_loop (derCerts : list (list byte))
    (rules : list ExcludeCertRule) (filtered : list string) : list string :=
  match derCerts with
  | [] => filtered
  | der :: derCerts' =>
      match ParseCertificate der with
      | None => filterCerts_loop derCerts' rules filtered
      | Some cert =>
          if isCertExcluded cert rules then
            filterCerts_loop derCerts' rules filtered
          else
            filterCerts_loop derCerts' rules
              (filtered ++ [Base64.EncodeToString der])
      end
  end.

(** [filterCerts] filters out excluded certs and returns base64 strings. *)
Definition filterCerts (derCerts : list (list byte))
    (rules : list ExcludeCertRule) : list string :=
  filterCerts_loop derCerts rules [].

Fixpoint decodeBase64Certs_loop (b64certs : list string)
    (out : list (list byte)) : list (list byte) :=
  match b64certs with
  | [] => out
  | b64 :: b64certs' =>
      match Base64.DecodeString b64 with
      | Some der => decodeBase64Certs_loop b64certs' (out ++ [der])
      | None => decodeBase64Certs_loop b64certs' out
      end
  end.

Definition decodeBase64Certs (b64certs : list string) : list (list byte) :=
  decodeBase64Certs_loop b64certs [].

Variable env : Env.

(** [sendToWebhook] posts scan results to the webhook. *)
Definition sendToWebhook (results : list ScanResult) (url : string) : IO unit :=
  let webhookTimeout := time_Duration (WebhookTimeoutMs (Config env)) in
  let webhookTimeout := if webhookTimeout <=? 0 then 5000 else webhookTimeout in
  let webhookTimeout := milliseconds webhookTimeout in
  match client_Do env url webhookTimeout results with
  | MarshalFailed => emit (ErrorLog "Failed to marshal results: %v")
  | NewRequestFailed => emit (ErrorLog "Failed to create request: %v")
  | DoFailed =>
      emit (HttpPost url (Token (Config env)) results);;
      emit (ErrorLog "Webhook request failed: %v")
  | Response StatusCode =>
      emit (HttpPost url (Token (Config env)) results);;
      if (StatusCode <? 200) || (300 <=? StatusCode) then
        emit (ErrorLog "Webhook returned status: %d");;
        if StatusCode =? 403 then
          emit (ErrorLog "Invalid or missing token for webhook %s");;
          if String.eqb (Token (Config env)) "" then
            emit (Println (LF +:+ LF +:+ "No token provided."));;
            emit (Println ("You can register your system in seconds with the following command:" +:+ LF));;
            emit (Println "  curl -sSf https://cd.ultrapki.com/sh | sh");;
            emit (Println (LF +:+ "This will generate a token for your system and show you how to add it to your config." +:+ LF));;
            os_Exit 1
          else mret tt
        else mret tt
      else mret tt
  end.

(** The loop that encodes the peer chain, in handshake order. *)
Fixpoint encodePeerCertificates (PeerCertificates : list (list byte))
    (certs : list string) : list string :=
  match PeerCertificates with
  | [] => certs
  | raw :: rest =>
      encodePeerCertificates rest (certs ++ [Base64.EncodeToString raw])
  end.

(** [tlsHandshakeAndCollectWithTimeout] performs one TLS handshake for a
    cipher family and collects the certificates. *)
Definition tlsHandshakeAndCollectWithTimeout (ip hostname : string) (port : Z)
    (handshakeType proto : string) (dialTimeout : Z)
    : IO (ProbeError + ScanResult) :=
  emit (NetDial ip port handshakeType);;
  if negb (dialer_Dial env ip port dialTimeout handshakeType)
  then mret (inl DialError)
  else
    emit (TlsHandshake ip hostname port handshakeType);;
    match uconn_Handshake env ip hostname port handshakeType with
    | None => mret (inl HandshakeError)
    | Some PeerCertificates =>
        let certs := encodePeerCertificates PeerCertificates [] in
        if (length certs =? 0)%nat then mret (inl NoCertsFound)
        else mret (inr {| IP := ip; Port := port; Hostname := hostname;
                          HandshakeType := handshakeType;
                          Certificates := certs;
                          Timestamp := time_Now_Unix env |})
    end.

(** [defaultTLSHandler] performs ECDSA and RSA handshakes and sends the
    results to the webhook. Returns true (always handles). *)
Definition defaultTLSHandler (ip hostname : string) (port : Z) (proto : string)
    : IO bool :=
  let webhookURL := WebhookURL (Config env) in
  let dialTimeout := time_Duration (DialTimeoutMs (Config env)) in
  let dialTimeout := milliseconds dialTimeout in
  let results : list ScanResult := [] in
  r ← tlsHandshakeAndCollectWithTimeout ip hostname port "ecdsa" proto dialTimeout;
  results ← match r with
            | inr result => mret (results ++ [result])
            | inl _ => emit (DebugLog "ECDSA handshake failed: %v");; mret results
            end;
  r ← tlsHandshakeAndCollectWithTimeout ip hostname port "rsa" proto dialTimeout;
  results ← match r with
            | inr result => mret (results ++ [result])
            | inl _ => emit (DebugLog "RSA handshake failed: %v");; mret results
            end;
  let excludeCerts := ExcludeCerts (Config env) in
  let results :=
    (λ r, setCertificates r
            (filterCerts (decodeBase64Certs (Certificates r)) excludeCerts))
      <$> results in
  (if (0 <? length results)%nat then sendToWebhook results webhookURL
   else mret tt);;
  mret true.

Definition notImplemented (format : string) : ProtocolHandler :=
  λ ip hostname port, emit (DebugLog format);; mret false.

(** [protocolHandlers] maps protocol names to their handler functions. *)
Definition protocolHandlers : gmap string ProtocolHandler :=
  list_to_map [
    ("smtp", smtpProtocolHandler);
    ("imap", notImplemented "IMAP protocol handler not implemented for %s:%d");
    ("pop3", notImplemented "POP3 protocol handler not implemented for %s:%d");
    ("ldap", notImplemented "LDAP protocol handler not implemented for %s:%d");
    ("custom", notImplemented "Custom protocol handler not implemented for %s:%d");
    ("http1", λ ip hostname port, defaultTLSHandler ip hostname port "http1");
    ("h2", λ ip hostname port, defaultTLSHandler ip hostname port "h2");
    ("h3", λ ip hostname port, defaultTLSHandler ip hostname port "h3")
  ].

(** The goroutine [ScanAndSendWithProtocol] starts for one port. *)
Definition portTask (ip hostname : string) (protocol : string) (port : Z)
    : IO unit :=
  let proto := resolveProto protocol port in
  if negb (String.eqb proto "") && negb (shared_Contains AllowedProtocols proto)
  then emit (DebugLog "Protocol %s not allowed for %s:%d")
  else
    match protocolHandlers !! proto with
    | Some handler =>
        emit (DebugLog "Scanning %s -> %s:%d (protocol: %s)");;
        handled ← handler ip hostname port;
        if handled : bool then mret tt else mret tt
    | None =>
        emit (ErrorLog "No handler for protocol %s, falling back to default TLS scan")
    end.

End Scanner.

(** ** The scan scheduler

    [ScanAndSendWithProtocol] starts one goroutine per port behind a
    semaphore channel and waits for all of them. A state of the model says
    where each port is: not yet reached by the loop, started and holding a
    slot, or returned; it carries the trace of the process and the exit code
    once a goroutine has called [os.Exit]. The events of a goroutine are
    recorded when it returns. A step says what can happen next, not that
    it does: a goroutine whose network calls have not returned is one that
    has not taken its step. The [results] slice of the function is never
    appended to, so nothing is sent after [wg.Wait()]. *)

Module Scheduler.

(** [make(chan struct{}, concurrency)]: a negative size panics. *)
Definition make_chan (concurrency : Z) : option nat :=
  if concurrency <? 0 then None else Some (Z.to_nat concurrency).

Record State := {
  pending : list Z;
  running : list Z;
  returned : list Z;
  trace : list Event;
  exit_code : option Z
}.

Definition init (ports : list Z) : State :=
  {| pending := ports; running := []; returned := []; trace := [];
     exit_code := None |}.

Section Gate.

(** The body of the goroutine started for a port. *)
Variable task : Z → IO unit.

Inductive step (cap : nat) : State → State → Prop :=
(** [sem <- struct{}{}] finds room in the buffer, then [go func(port)] *)
| step_go port ports run fin log :
    (length run < cap)%nat →
    step cap {| pending := port :: ports; running := run; returned := fin;
                trace := log; exit_code := None |}
             {| pending := ports; running := run ++ [port]; returned := fin;
                trace := log; exit_code := None |}
(** the body returns, the deferred [<-sem] takes a slot back from the
    buffer, then [wg.Done()] *)
| step_done ports run1 port run2 fin log log' :
    (0 < cap)%nat →
    task port log = (inr tt, log') →
    step cap {| pending := ports; running := run1 ++ port :: run2;
                returned := fin; trace := log; exit_code := None |}
             {| pending := ports; running := run1 ++ run2;
                returned := fin ++ [port]; trace := log'; exit_code := None |}
(** the body calls [os.Exit]: the process is gone *)
| step_exit ports run1 port run2 fin log code log' :
    task port log = (inl code, log') →
    step cap {| pending := ports; running := run1 ++ port :: run2;
                returned := fin; trace := log; exit_code := None |}
             {| pending := ports; running := run1 ++ port :: run2;
                returned := fin; trace := log'; exit_code := Some code |}
(** on an unbuffered channel the send of the loop meets the deferred
    receive of a goroutine whose body has returned *)
| step_handoff port ports run1 q run2 fin log log' :
    cap = 0%nat →
    task q log = (inr tt, log') →
    step cap {| pending := port :: ports; running := run1 ++ q :: run2;
                returned := fin; trace := log; exit_code := None |}
             {| pending := ports; running := run1 ++ run2 ++ [port];
                returned := fin ++ [q]; trace := log'; exit_code := None |}.

(** [wg.Wait()] has returned. *)
Definition finished (s : State) : Prop :=
  pending s = [] ∧ running s = [] ∧ exit_code s = None.

(** The process is alive, the loop or a goroutine waits on the channel,
    and nothing can move. *)
Definition blocked (cap : nat) (s : State) : Prop :=
  ¬ finished s ∧ exit_code s = None ∧ ∀ s', ¬ step cap s s'.

(** The outcomes of the scheduler on a port list. *)
Inductive Outcome :=
| Panics
| Reaches (s : State).

Inductive run (concurrency : Z) (ports : list Z) : Outcome → Prop :=
| run_panic :
    make_chan concurrency = None → run concurrency ports Panics
| run_steps cap s :
    make_chan concurrency = Some cap →
    rtc (step cap) (init ports) s →
    run concurrency ports (Reaches s).

End Gate.

(** All the ports of a state. *)
Definition ports_of (s : State) : list Z :=
  pending s ++ running s ++ returned s.

(** How many steps are left at most. *)
Definition measure (s : State) : nat :=
  match exit_code s with
  | Some _ => 0%nat
  | None => (2 * length (pending s) + length (running s))%nat
  end.

End Scheduler.

(** [ScanAndSendWithProtocol] scans each port using the specified protocol:
    the scheduler, with the configured concurrency limit as the capacity of
    the semaphore and [portTask] as the goroutine. *)
Definition ScanAndSendWithProtocol {U : Unicode}
    (ParseCertificate : list byte → option Certificate)
    (smtpProtocolHandler : ProtocolHandler) (env : Env)
    (ip hostname : string) (ports : list Z) (protocol : string)
    : Scheduler.Outcome → Prop :=
  Scheduler.run
    (portTask ParseCertificate smtpProtocolHandler env ip hostname protocol)
    (ConcurrencyLimit (Config env)) ports.


(** ** The legacy scan path

    The earlier [ScanAndSendWithProtocol] scans the ports one after the
    other and merges the chains of both families into one certificate list
    per port; [scanSMTPStartTLS] is its STARTTLS upgrader. Its [ScanResult]
    has no handshake type, which is left empty here. *)

Module Legacy.

(** One turn of the loop over [state.PeerCertificates]: [certMap] is the
    set of encodings seen, [certs] the list built so far. *)
Definition collectCert (st : gset string * list string) (raw : list byte)
    : gset string * list string :=
  let '(certMap, certs) := st in
  let enc := Base64.EncodeToString raw in
  if decide (enc ∈ certMap) then (certMap, certs)
  else ({[enc]} ∪ certMap, certs ++ [enc]).

Definition collectCerts (st : gset string * list string)
    (PeerCertificates : list (list byte)) : gset string * list string :=
  foldl collectCert st PeerCertificates.

(** The direct-TLS part of the loop body for one port: [ecdsa] and [rsa]
    are the outcomes of the two [tls.DialWithDialer] calls, [None] for an
    error. Returns [None] where the source does [continue]. *)
Definition scanPort (ip hostname : string) (port : Z) (now : Z)
    (ecdsa rsa : option (list (list byte))) : option ScanResult :=
  let st : gset string * list string := (∅, []) in
  let st := match ecdsa with Some chain => collectCerts st chain | None => st end in
  let st := match rsa with Some chain => collectCerts st chain | None => st end in
  let certs := st.2 in
  if (length certs =? 0)%nat then None
  else Some {| IP := ip; Port := port; Hostname := hostname;
               HandshakeType := ""; Certificates := certs; Timestamp := now |}.

(** The errors of [scanSMTPStartTLS], one per [fmt.Errorf]; in the
    taxonomy of the specification: [DialError]; [ProtocolError] (greeting,
    EHLO and STARTTLS replies); [UnsupportedError]; [HandshakeError];
    [NoCertificatesError]. *)
Inductive ScanError :=
| TcpDialFailed
| SmtpGreetingFailed
| EhloReadFailed
| StartTLSNotSupported
| StartTLSFailed
| TLSHandshakeFailed
| NoCertReturned.

(** The SMTP peer: whether the dial succeeds, the bytes it sends before the
    upgrade, and the outcome of the TLS handshake on the upgraded socket. *)
Record SmtpPeer := {
  smtp_dial : bool;
  smtp_sends : string;
  smtp_tls : option (list (list byte))
}.

(** What successive calls of [reader.ReadString('\n')] return on a stream:
    the lines, each with its line feed; [line] is the part of the current
    line read so far. After the last line feed a read fails, with whatever
    data is left. *)
Fixpoint splitLines (data : string) (line : string) : list string :=
  match data with
  | EmptyString => []
  | String c data' =>
      if Ascii.eqb c "010"%char then
        (line +:+ String c EmptyString) :: splitLines data' EmptyString
      else splitLines data' (line +:+ String c EmptyString)
  end.

Record Conn := {
  incoming : list string;
  written : list string
}.

Definition CRLF : string := String "013"%char (String "010"%char EmptyString).
Definition EHLO_certscan : string := "EHLO certscan" +:+ CRLF.
Definition STARTTLS_cmd : string := "STARTTLS" +:+ CRLF.

(** [reader.ReadString('\n')]; [None] is a non-nil error. *)
Definition ReadString : SE Conn ScanError (option string) := λ c,
  match incoming c with
  | [] => (inr None, c)
  | line :: rest => (inr (Some line), {| incoming := rest; written := written c |})
  end.

(** [fmt.Fprintf(conn, data)] *)
Definition Fprintf (data : string) : SE Conn ScanError unit :=
  modify (λ c, {| incoming := incoming c; written := written c ++ [data] |}).

(** The loop reading the EHLO reply: lines are collected up to and
    including the first one that does not begin with [250-]. *)
Fixpoint readEhlo (incoming : list string) (lines : list string)
    : option (list string) * list string :=
  match incoming with
  | [] => (None, [])
  | line :: rest =>
      let lines := lines ++ [line] in
      if negb (HasPrefix line "250-") then (Some lines, rest)
      else readEhlo rest lines
  end.

Definition readEhloLines : SE Conn ScanError (list string) := λ c,
  match readEhlo (incoming c) [] with
  | (Some lines, rest) => (inr lines, {| incoming := rest; written := written c |})
  | (None, rest) => (inl EhloReadFailed, {| incoming := rest; written := written c |})
  end.

Fixpoint supportsStartTLS {U : Unicode} (lines : list string) : bool :=
  match lines with
  | [] => false
  | l :: lines' =>
      if Contains (ToUpper l) "STARTTLS" then true else supportsStartTLS lines'
  end.

Definition smtpSession {U : Unicode} (peer : SmtpPeer)
    (ip hostname : string) (port : Z)
    (now : Z) : SE Conn ScanError ScanResult :=
  greeting ← ReadString;
  match greeting with
  | None => raise SmtpGreetingFailed
  | Some _ =>
      Fprintf EHLO_certscan;;
      lines ← readEhloLines;
      if negb (supportsStartTLS lines) then raise StartTLSNotSupported
      else
        Fprintf STARTTLS_cmd;;
        line ← ReadString;
        match line with
        | None => raise StartTLSFailed
        | Some line =>
            if negb (HasPrefix line "220") then raise StartTLSFailed
            else
              match smtp_tls peer with
              | None => raise TLSHandshakeFailed
              | Some PeerCertificates =>
                  if (length PeerCertificates =? 0)%nat then raise NoCertReturned
                  else
                    mret {| IP := ip; Port := port; Hostname := hostname;
                            HandshakeType := "";
                            Certificates := Base64.EncodeToString <$> PeerCertificates;
                            Timestamp := now |}
              end
        end
  end.

(** [scanSMTPStartTLS]: the result or the error, and everything that was
    written to the connection. *)
Definition scanSMTPStartTLS {U : Unicode} (peer : SmtpPeer)
    (ip hostname : string) (port : Z)
    (now : Z) : (ScanError + ScanResult) * list string :=
  if negb (smtp_dial peer) then (inl TcpDialFailed, [])
  else
    let '(r, c) := smtpSession peer ip hostname port now
                     {| incoming := splitLines (smtp_sends peer) "";
                        written := [] |} in
    (r, written c).

End Legacy.

(** ** Notions used to state the properties *)

(** A string without [*]. *)
Fixpoint starless (s : string) : Prop :=
  match s with
  | EmptyString => True
  | String c s' => c ≠ "*"%char ∧ starless s'
  end.

(** A string of bytes that are not ASCII. *)
Fixpoint high (s : string) : Prop :=
  match s with
  | EmptyString => True
  | String c s' => 0x80 ≤ utf8.uint8 c ∧ high s'
  end.

(** Strings with the same stars.
    [sameStars s o]: [o] is [s] with the text between its stars replaced,
    text that is not empty by text that is not empty. A case mapping
    relates a string to its image in this way. *)

Inductive sameStars : string → string → Prop :=
| sameStars_nil : sameStars "" ""
| sameStars_star s o :
    sameStars s o → sameStars ("*" +:+ s) ("*" +:+ o)
| sameStars_text k k' s o :
    starless k → k ≠ "" → starless k' → k' ≠ "" →
    sameStars s o → sameStars (k +:+ s) (k' +:+ o).

(** What the embedding uses of the case tables of [unicode.ToLower]: the
    lower case of [*] is [*], of no other rune it is, and the lower case
    of a rune is a rune, not a negative number. *)
Class UnicodeLaws (U : Unicode) : Prop := {
  unicode_ToLower_star r : unicode_ToLower r = 42 ↔ r = 42;
  unicode_ToLower_nonneg r : 0 ≤ r → 0 ≤ unicode_ToLower r
}.

Global Instance byte_eq_dec : EqDecision byte.
Proof.
  intros x y. destruct (Byte.eqb x y) eqn:E.
  - left. by apply Byte.byte_dec_bl.
  - right. intros H. apply Byte.byte_dec_lb in H. congruence.
Defined.

(** The entries of a list without the repetitions, each at the place of its
    first occurrence. *)
Fixpoint firstOccurrences {A} `{EqDecision A} (l : list A) : list A :=
  match l with
  | [] => []
  | x :: l' => x :: filter (λ y, y ≠ x) (firstOccurrences l')
  end.

(** How many entries of a list are duplicates of another entry that stays:
    an entry counts when the same value occurs again later. *)
Fixpoint duplicates {A} `{EqDecision A} (l : list A) : nat :=
  match l with
  | [] => 0%nat
  | x :: l' => ((if decide (x ∈ l') then 1 else 0) + duplicates l')%nat
  end.

(** What a trace shows: the batches posted to the webhook, the families for
    which a connection was dialled, and whether it touches the network. *)
Definition posts (log : list Event) : list (list ScanResult) :=
  omap (λ e, match e with HttpPost _ _ results => Some results | _ => None end) log.

Definition dials (log : list Event) : list string :=
  omap (λ e, match e with NetDial _ _ handshakeType => Some handshakeType | _ => None end) log.

Definition isNetwork (e : Event) : bool :=
  match e with
  | NetDial _ _ _ | TlsHandshake _ _ _ _ | HttpPost _ _ _ => true
  | DebugLog _ | ErrorLog _ | Println _ => false
  end.

Section Outcomes.

Context {U : Unicode}.

Variable ParseCertificate : list byte → option Certificate.

(** A certificate survives the filter when it parses and no rule
    excludes it. *)
Definition survives (rules : list ExcludeCertRule) (der : list byte) : bool :=
  match ParseCertificate der with
  | Some cert => negb (isCertExcluded cert rules)
  | None => false
  end.

Variable env : Env.

(** [dialTimeout] as [defaultTLSHandler] computes it. *)
Definition dialTimeout : Z :=
  milliseconds (time_Duration (DialTimeoutMs (Config env))).

(** What the peer answers to the probe of one family, read off the
    environment alone. *)
Definition familyOutcome (ip hostname : string) (port : Z)
    (handshakeType : string) : ProbeError + ScanResult :=
  if dialer_Dial env ip port dialTimeout handshakeType then
    match uconn_Handshake env ip hostname port handshakeType with
    | None => inl HandshakeError
    | Some [] => inl NoCertsFound
    | Some chain =>
        inr {| IP := ip; Port := port; Hostname := hostname;
               HandshakeType := handshakeType;
               Certificates := Base64.EncodeToString <$> chain;
               Timestamp := time_Now_Unix env |}
    end
  else inl DialError.

(** The families that succeed, ECDSA first. *)
Definition successfulFamilies (ip hostname : string) (port : Z)
    : list ScanResult :=
  omap (λ handshakeType,
          match familyOutcome ip hostname port handshakeType with
          | inr r => Some r
          | inl _ => None
          end) ["ecdsa"; "rsa"].

(** The events of the probe of one family. *)
Definition probeEvents (ip hostname : string) (port : Z)
    (handshakeType : string) : list Event :=
  NetDial ip port handshakeType
  :: (if dialer_Dial env ip port dialTimeout handshakeType
      then [TlsHandshake ip hostname port handshakeType] else []).

(** [webhookTimeout] as [sendToWebhook] computes it, in nanoseconds. *)
Definition webhookTimeout : Z :=
  milliseconds
    (if time_Duration (WebhookTimeoutMs (Config env)) <=? 0 then 5000
     else time_Duration (WebhookTimeoutMs (Config env))).

(** The request could be built and was handed to the HTTP client. *)
Definition requestSent (url : string) (results : list ScanResult) : bool :=
  match client_Do env url webhookTimeout results with
  | MarshalFailed | NewRequestFailed => false
  | DoFailed | Response _ => true
  end.

(** A result after the exclusion filter. *)
Definition filtered (r : ScanResult) : ScanResult :=
  setCertificates r
    (Base64.EncodeToString
       <$> List.filter (survives (ExcludeCerts (Config env)))
             (omap Base64.DecodeString (Certificates r))).

End Outcomes.

(** ** Concrete environments, used to run the code on examples *)

Module Examples.

(** Case tables for the letters of Basic Latin and Latin-1, and the long
    s (U+017F), whose upper case is [S]. *)
Definition unicode : Unicode :=
  {| unicode_ToLower := λ r,
       if (65 <=? r) && (r <=? 90)
          || (0xC0 <=? r) && (r <=? 0xDE) && negb (r =? 0xD7)
       then r + 32 else r;
     unicode_ToUpper := λ r,
       if (97 <=? r) && (r <=? 122)
          || (0xE0 <=? r) && (r <=? 0xFE) && negb (r =? 0xF7)
       then r - 32
       else if r =? 0x17F then 83 else r |}.

(** The words [École] and [école.fr] in UTF-8, and a reply line that
    writes STARTTLS with a long s. *)
Definition Ecole : string :=
  String "195"%char (String "137"%char "cole").

Definition ecole_fr : string :=
  String "195"%char (String "169"%char "cole.fr").

Definition long_s_STARTTLS : string :=
  "250 " +:+ String "197"%char (String "191"%char "TARTTLS").

Definition config : SharedConfig :=
  {| WebhookURL := "http://localhost:8000/webhook"; Token := "";
     WebhookTimeoutMs := 0; DialTimeoutMs := 1000; ConcurrencyLimit := 4;
     ExcludeCerts := [] |}.

(** Some certificate bytes and what the parser makes of them. *)
Definition der : list byte := [x30; x82; x01; x0a; x30; x81].

Definition parse (raw : list byte) : option Certificate :=
  if decide (raw = der) then
    Some {| Issuer_String := "CN=Evil CA";
            Subject_CommonName := "evil.example.com" |}
  else None.

(** A peer that only completes the RSA handshake, and a webhook that
    accepts every batch. *)
Definition rsaOnly (chain : list (list byte)) (cfg : SharedConfig) : Env :=
  {| Config := cfg; time_Now_Unix := 1700000000;
     dialer_Dial := λ _ _ _ _, true;
     uconn_Handshake := λ _ _ _ handshakeType,
       if String.eqb handshakeType "rsa" then Some chain else None;
     client_Do := λ _ _ _, Response 200 |}.

(** A peer that refuses the connection of the ECDSA probe and accepts that
    of the RSA probe, on which it completes the handshake. *)
Definition rsaDialOnly (chain : list (list byte)) (cfg : SharedConfig) : Env :=
  {| Config := cfg; time_Now_Unix := 1700000000;
     dialer_Dial := λ _ _ _ handshakeType, String.eqb handshakeType "rsa";
     uconn_Handshake := λ _ _ _ _, Some chain;
     client_Do := λ _ _ _, Response 200 |}.

(** The same configuration with another concurrency limit. *)
Definition limited (limit : Z) : SharedConfig :=
  {| WebhookURL := WebhookURL config; Token := Token config;
     WebhookTimeoutMs := WebhookTimeoutMs config;
     DialTimeoutMs := DialTimeoutMs config;
     ConcurrencyLimit := limit;
     ExcludeCerts := ExcludeCerts config |}.

(** The same configuration with the rule [{issuer: "*Evil*"}]. *)
Definition excluding : SharedConfig :=
  {| WebhookURL := WebhookURL config; Token := Token config;
     WebhookTimeoutMs := WebhookTimeoutMs config;
     DialTimeoutMs := DialTimeoutMs config;
     ConcurrencyLimit := ConcurrencyLimit config;
     ExcludeCerts := [{| Issuer := "*Evil*"; CN := "" |}] |}.

(** A webhook that answers every batch with the given status, for an
    agent with the given token. *)
Definition answering (StatusCode : Z) (token : string) : Env :=
  {| Config := {| WebhookURL := WebhookURL config; Token := token;
                  WebhookTimeoutMs := 0; DialTimeoutMs := 1000;
                  ConcurrencyLimit := 4; ExcludeCerts := [] |};
     time_Now_Unix := 1700000000;
     dialer_Dial := λ _ _ _ _, true;
     uconn_Handshake := λ _ _ _ _, None;
     client_Do := λ _ _ _, Response StatusCode |}.

Definition result (certs : list string) : ScanResult :=
  {| IP := "93.184.216.34"; Port := 443; Hostname := "example.com";
     HandshakeType := "rsa"; Certificates := certs;
     Timestamp := 1700000000 |}.

(** An SMTP server that greets, sends the given replies and would
    complete the TLS handshake. *)
Definition smtpPeer (replies : list string) : Legacy.SmtpPeer :=
  {| Legacy.smtp_dial := true;
     Legacy.smtp_sends :=
       String.concat "" (("220 mail.example.com ESMTP" +:+ Legacy.CRLF) :: replies);
     Legacy.smtp_tls := Some [der] |}.

(** A handler standing for [smtpProtocolHandler]. *)
Definition smtpHandler : ProtocolHandler := λ _ _ _, mret true.

End Examples.

(** ** Further notions

    Used to state what the handlers and the callers of the scan do. *)

(** The log lines and events of both probes. *)
Definition probesTrace (env : Env) (ip hostname : string) (port : Z) : list Event :=
  probeEvents env ip hostname port "ecdsa"
  ++ match familyOutcome env ip hostname port "ecdsa" with
     | inl _ => [DebugLog "ECDSA handshake failed: %v"]
     | inr _ => []
     end
  ++ probeEvents env ip hostname port "rsa"
  ++ match familyOutcome env ip hostname port "rsa" with
     | inl _ => [DebugLog "RSA handshake failed: %v"]
     | inr _ => []
     end.

(** ** Calls of the scan from a running process

    [Scheduler.init] is the scheduler at the start of a process. A caller
    that scans more than once does so in a process that has a trace
    already: a call starts from that trace and ends when [wg.Wait()]
    returns, when a goroutine ends the process, or never, when the loop
    waits on the semaphore for good. *)

Module Calls.

Definition resume (log : list Event) (ports : list Z) : Scheduler.State :=
  {| Scheduler.pending := ports; Scheduler.running := [];
     Scheduler.returned := []; Scheduler.trace := log;
     Scheduler.exit_code := None |}.

Inductive Outcome :=
| Panics
| Blocks (log : list Event)
| Exits (code : Z) (log : list Event)
| Returns (log : list Event).

Section Call.

Variable task : Z → IO unit.

Inductive call (concurrency : Z) (ports : list Z) (log : list Event)
    : Outcome → Prop :=
| call_panics :
    Scheduler.make_chan concurrency = None →
    call concurrency ports log Panics
| call_blocks cap s :
    Scheduler.make_chan concurrency = Some cap →
    rtc (Scheduler.step task cap) (resume log ports) s →
    Scheduler.blocked task cap s →
    call concurrency ports log (Blocks (Scheduler.trace s))
| call_exits cap s code :
    Scheduler.make_chan concurrency = Some cap →
    rtc (Scheduler.step task cap) (resume log ports) s →
    Scheduler.exit_code s = Some code →
    call concurrency ports log (Exits code (Scheduler.trace s))
| call_returns cap s :
    Scheduler.make_chan concurrency = Some cap →
    rtc (Scheduler.step task cap) (resume log ports) s →
    Scheduler.finished s →
    call concurrency ports log (Returns (Scheduler.trace s)).

End Call.

(** The port tasks one after the other, up to the first that ends the
    process. *)
Fixpoint inTurn (task : Z → IO unit) (ports : list Z) : IO unit :=
  match ports with
  | [] => mret tt
  | port :: ports => task port;; inTurn task ports
  end.

Definition outcome (r : (Z + unit) * list Event) : Outcome :=
  match r with
  | (inl code, log) => Exits code log
  | (inr _, log) => Returns log
  end.

End Calls.

(** ** The compatibility helper [ScanAndSend] *)

Module Compat.

Definition webPorts : gmap Z string :=
  list_to_map [(443, "http1"); (8443, "http1"); (4433, "http1");
               (10443, "http1"); (5001, "http1")].

Definition smtpPorts : gmap Z string :=
  list_to_map [(25, "smtp"); (465, "smtp"); (587, "smtp")].

(** The protocol [ScanAndSend] determines for a port. *)
Definition protoOf (port : Z) : string :=
  let proto := "http1" in
  match webPorts !! port with
  | Some p => p
  | None =>
      match smtpPorts !! port with
      | Some p => p
      | None => proto
      end
  end.

Section ScanAndSend.

Context {U : Unicode}.

Variable ParseCertificate : list byte → option Certificate.
Variable smtpProtocolHandler : ProtocolHandler.
Variable env : Env.

(** [ScanAndSendWithProtocol], called in a process with the trace [log]. *)
Definition ScanAndSendWithProtocol_call (ip hostname : string)
    (ports : list Z) (protocol : string) (log : list Event)
    : Calls.Outcome → Prop :=
  Calls.call
    (portTask ParseCertificate smtpProtocolHandler env ip hostname protocol)
    (ConcurrencyLimit (Config env)) ports log.

(** [ScanAndSend] loops over the given ports and calls
    [ScanAndSendWithProtocol] for each port with the list of that port
    alone; the loop goes on when a call returns. *)
Inductive ScanAndSend (ip host : string)
    : list Z → list Event → Calls.Outcome → Prop :=
| ScanAndSend_done log :
    ScanAndSend ip host [] log (Calls.Returns log)
| ScanAndSend_next port ports log log' o :
    ScanAndSendWithProtocol_call ip host [port] (protoOf port) log
      (Calls.Returns log') →
    ScanAndSend ip host ports log' o →
    ScanAndSend ip host (port :: ports) log o
| ScanAndSend_stop port ports log o :
    ScanAndSendWithProtocol_call ip host [port] (protoOf port) log o →
    (∀ log', o ≠ Calls.Returns log') →
    ScanAndSend ip host (port :: ports) log o.

End ScanAndSend.

End Compat.

(** ** Helpers of the command

    [incIP] increments an address in place, from its last byte; a byte is
    an integer below 256 and wraps around. *)

Fixpoint incIP_loop (n : nat) (ip : list Z) : list Z :=
  match n with
  | O => ip
  | S j =>
      let ip := <[j := (ip !!! j + 1) mod 256]> ip in
      if negb (ip !!! j =? 0) then ip else incIP_loop j ip
  end.

Definition incIP (ip : list Z) : list Z := incIP_loop (length ip) ip.

(** The number an address stands for, first byte first. *)
Definition bigEndian (ip : list Z) : Z := foldl (λ acc b, 256 * acc + b) 0 ip.

Definition aliases : gmap string string :=
  list_to_map [("-d", "--daemon"); ("-c", "--config"); ("-l", "--logfile");
               ("-p", "--pidfile")].

(** [normalizeFlags] rewrites [os.Args] in place, index by index. *)
Definition normalizeFlags (Args : list string) : list string :=
  foldl (λ Args' '(i, arg),
           match aliases !! arg with
           | Some val => <[i := val]> Args'
           | None => Args'
           end)
        Args (imap pair Args).

Record IncludeEntry := {
  Target : string;
  Protocol : string
}.

Definition flattenIncludeList (entries : list IncludeEntry) : list string :=
  foldl (λ out e, out ++ [Target e]) [] entries.

(** [strings.EqualFold] on ASCII text. *)
Definition EqualFold (s t : string) : bool :=
  String.eqb (mapBytes lowerByte s) (mapBytes lowerByte t).

Section Include.

(** [net.ParseCIDR] returns no error. *)
Variable isCIDR : string → bool.

Fixpoint isExplicitlyIncluded (host : string) (includeList : list string)
    : bool :=
  match includeList with
  | [] => false
  | entry :: includeList' =>
      if isCIDR entry then isExplicitlyIncluded host includeList'
      else if EqualFold host entry then true
      else isExplicitlyIncluded host includeList'
  end.

End Include.

(** * Properties *)

(** ** Byte strings *)

Lemma str_app_nil_l (s : string) : "" +:+ s = s.
Proof. reflexivity. Qed.

Lemma str_app_cons c (s t : string) : String c s +:+ t = String c (s +:+ t).
Proof. reflexivity. Qed.

Ltac str_simpl :=
  repeat (rewrite ?str_app_nil_l, ?str_app_cons in *; simpl in * ).

Section StringFacts.

Implicit Types s t p a b : string.

Lemma len_app s t : len (s +:+ t) = (len s + len t)%nat.
Proof.
  unfold len. induction s as [|c s IH]; str_simpl; [done | by rewrite IH].
Qed.

Lemma str_app_nil_r s : s +:+ "" = s.
Proof. induction s as [|c s IH]; str_simpl; [done | by f_equal]. Qed.

Lemma str_app_assoc s t p : (s +:+ t) +:+ p = s +:+ (t +:+ p).
Proof. induction s as [|c s IH]; str_simpl; [done | by f_equal]. Qed.

Lemma substring_0_0 s : String.substring 0 0 s = "".
Proof. by destruct s. Qed.

Lemma substring_0_app p t : String.substring 0 (len p) (p +:+ t) = p.
Proof.
  induction p as [|c p IH]; str_simpl; [apply substring_0_0 | by rewrite IH].
Qed.

Lemma substring_0_len s : String.substring 0 (len s) s = s.
Proof. induction s as [|c s IH]; simpl; [done | by rewrite IH]. Qed.

Lemma substring_len_app t p n :
  String.substring (len t) n (t +:+ p) = String.substring 0 n p.
Proof. induction t as [|c t IH]; str_simpl; done. Qed.

Lemma substring_split n s :
  (n ≤ len s)%nat →
  s = String.substring 0 n s +:+ String.substring n (len s - n) s.
Proof.
  revert s. induction n as [|n IH]; intros s Hn.
  - rewrite substring_0_0, Nat.sub_0_r. str_simpl. by rewrite substring_0_len.
  - destruct s as [|c s]; simpl in *; [lia |].
    rewrite str_app_cons. f_equal. apply IH. lia.
Qed.

Lemma HasPrefix_spec s p : HasPrefix s p = true ↔ ∃ t, s = p +:+ t.
Proof.
  unfold HasPrefix, slice. rewrite andb_true_iff, Nat.leb_le, String.eqb_eq.
  rewrite Nat.sub_0_r. split.
  - intros [Hlen Heq]. eexists. rewrite <- Heq at 1.
    by apply substring_split.
  - intros [t ->]. rewrite len_app. split; [lia | apply substring_0_app].
Qed.

Lemma HasSuffix_spec s p : HasSuffix s p = true ↔ ∃ t, s = t +:+ p.
Proof.
  unfold HasSuffix, slice. rewrite andb_true_iff, Nat.leb_le, String.eqb_eq.
  split.
  - intros [Hlen Heq]. eexists. rewrite <- Heq at 1.
    apply substring_split. lia.
  - intros [t ->]. rewrite len_app. split; [lia |].
    replace (len t + len p - len p)%nat with (len t) by lia.
    replace (len t + len p - len t)%nat with (len p) by lia.
    rewrite substring_len_app. apply substring_0_len.
Qed.

Lemma Contains_spec s p : Contains s p = true ↔ ∃ a b, s = a +:+ p +:+ b.
Proof.
  unfold Contains. split.
  - induction s as [|c s IH]; simpl.
    + destruct (HasPrefix "" p) eqn:Hp; [|done].
      apply HasPrefix_spec in Hp as [t Ht]. intros _. by exists "", t.
    + destruct (HasPrefix (String c s) p) eqn:Hp.
      * apply HasPrefix_spec in Hp as [t Ht]. intros _. by exists "", t.
      * destruct (Index s p) eqn:Hi; simpl; [|done].
        intros _. destruct IH as (a & b & ->); [done |].
        by exists (String c a), b.
  - intros (a & b & ->). induction a as [|c a IH].
    + assert (HasPrefix (p +:+ b) p = true) as Hp
        by (apply HasPrefix_spec; eauto).
      rewrite str_app_nil_l. destruct (p +:+ b); simpl; by rewrite Hp.
    + rewrite str_app_cons. simpl. destruct (HasPrefix _ p); [done |].
      by destruct (Index (a +:+ p +:+ b) p).
Qed.

(** *** Case mapping *)

Lemma mapBytes_app f s t : mapBytes f (s +:+ t) = mapBytes f s +:+ mapBytes f t.
Proof. induction s as [|c s IH]; str_simpl; [done | by rewrite IH]. Qed.

Lemma lowerByte_star_inv c : lowerByte c = "*"%char → c = "*"%char.
Proof. destruct c as [[] [] [] [] [] [] [] []]; vm_compute; congruence. Qed.

End StringFacts.

(** ** UTF-8 *)

Lemma Zlor_add k m x y :
  m = 2 ^ k → 0 ≤ k → x mod m = 0 → 0 ≤ y < m → Z.lor x y = x + y.
Proof.
  intros -> Hk Hx Hy.
  assert (Z.land x y = 0) as Hland.
  { apply Z.bits_inj'. intros m Hm. rewrite Z.land_spec, Z.bits_0.
    destruct (Z.lt_ge_cases m k) as [Hlt | Hge].
    - rewrite <- (Z.mod_pow2_bits_low x k m) by lia.
      by rewrite Hx, Z.bits_0.
    - rewrite <- (Z.mod_small y (2 ^ k)) by lia.
      rewrite Z.mod_pow2_bits_high by lia. apply andb_false_r. }
  rewrite <- Z.lxor_lor by done. symmetry. by apply Z.add_nocarry_lxor.
Qed.

Ltac divlia := Z.to_euclidean_division_equations; lia.

Ltac bits :=
  unfold utf8.mask2, utf8.mask3, utf8.mask4, utf8.maskx, utf8.t2, utf8.t3,
    utf8.t4, utf8.tx in *;
  change 0x3F with (Z.ones 6) in *; change 0x1F with (Z.ones 5) in *;
  change 0x0F with (Z.ones 4) in *; change 0x07 with (Z.ones 3) in *;
  rewrite ?Z.land_ones, ?Z.shiftl_mul_pow2, ?Z.shiftr_div_pow2 in * by lia;
  change (2 ^ 3) with 8 in *; change (2 ^ 4) with 16 in *;
  change (2 ^ 5) with 32 in *; change (2 ^ 6) with 64 in *;
  change (2 ^ 12) with 4096 in *; change (2 ^ 18) with 262144 in *.

Ltac side := first [reflexivity | lia | divlia].
Ltac lor6 := rewrite (Zlor_add 6 64 _ (_ mod 64)); [| side ..].
Ltac lor12 := rewrite (Zlor_add 12 4096 _ (_ * 64)); [| side ..].
Ltac lor18 := rewrite (Zlor_add 18 262144 _ (_ * 4096)); [| side ..].

Section Utf8Facts.

Import utf8.

Lemma uint8_range c : 0 ≤ uint8 c < 256.
Proof.
  unfold uint8. pose proof (N_ascii_bounded c). lia.
Qed.

Lemma uint8_inj c d : uint8 c = uint8 d → c = d.
Proof.
  unfold uint8. intros H%(inj Z.of_N).
  by rewrite <- (ascii_N_embedding c), <- (ascii_N_embedding d), H.
Qed.

Lemma uint8_byte x : 0 ≤ x < 256 → uint8 (byte_ x) = x.
Proof.
  intros Hx. unfold uint8, byte_. rewrite Z.mod_small by done.
  rewrite N_ascii_embedding by lia. lia.
Qed.

Lemma uint8_star c : uint8 c = 42 ↔ c = "*"%char.
Proof.
  split; [| by intros ->]. intros H. by apply uint8_inj.
Qed.

Lemma high_starless s : high s → starless s.
Proof.
  induction s as [|c s IH]; simpl; [done |]. intros [Hc Hs].
  split; [| by apply IH]. intros ->. by vm_compute in Hc.
Qed.

Lemma first_Some s0 sz lo hi :
  first s0 = Some (sz, lo, hi) →
  0x80 ≤ lo ∧ hi ≤ 0xBF
  ∧ (s0 = 0xE0 → 0xA0 ≤ lo) ∧ (s0 = 0xF0 → 0x90 ≤ lo)
  ∧ ((sz = 2%nat ∧ 0xC2 ≤ s0 ≤ 0xDF) ∨ (sz = 3%nat ∧ 0xE0 ≤ s0 ≤ 0xEF)
     ∨ (sz = 4%nat ∧ 0xF0 ≤ s0 ≤ 0xF4)).
Proof.
  unfold first, locb, hicb.
  repeat case_match; intros [= <- <- <-]; lia.
Qed.

Lemma next_Some lo hi s b t :
  next lo hi s = Some (b, t) → ∃ c, s = String c t ∧ b = uint8 c ∧ lo ≤ b ≤ hi.
Proof.
  destruct s as [|c s]; simpl; [done |].
  case_match eqn:Hr; [| done]. intros [= <- <-].
  apply andb_true_iff in Hr as [?%Z.leb_le ?%Z.leb_le]. by exists c.
Qed.

Lemma next_app_star lo hi s t :
  0x80 ≤ lo →
  next lo hi (s +:+ "*" +:+ t)
  = (λ '(b, s'), (b, s' +:+ "*" +:+ t)) <$> next lo hi s.
Proof.
  intros Hlo. destruct s as [|c s]; str_simpl; simpl.
  - change (uint8 "*") with 42. by destruct (Z.leb_spec lo 42); [lia |].
  - by case_match.
Qed.

(** What comes out of the decoder: an ASCII byte as it is, or a rune that
    is not ASCII, read from bytes that are not ASCII. *)
Lemma decode_cases c t r rest :
  DecodeRuneInString (String c t) = (r, rest) →
  (uint8 c < 0x80 ∧ r = uint8 c ∧ rest = t)
  ∨ (0x80 ≤ uint8 c ∧ 0x80 ≤ r ∧ ∃ mid, t = mid +:+ rest ∧ high mid).
Proof.
  unfold DecodeRuneInString, RuneSelf, RuneError.
  pose proof (uint8_range c) as Hc.
  destruct (Z.ltb_spec (uint8 c) 0x80) as [Hlt | Hge].
  { intros [= <- <-]. by left. }
  match goal with
  | |- ?P → _ =>
      enough (P → 0x80 ≤ r ∧ ∃ mid, t = mid +:+ rest ∧ high mid)
        by (intros ?; right; split; [done | auto])
  end.
  assert ((0xFFFD, t) = (r, rest) →
          0x80 ≤ r ∧ ∃ mid, t = mid +:+ rest ∧ high mid) as Herr.
  { intros [= <- <-]. split; [lia |]. by exists "". }
  destruct (first (uint8 c)) as [[[sz lo] hi]|] eqn:Hfirst; [| by apply Herr].
  apply first_Some in Hfirst as (Hlo & Hhi & HE0 & HF0 & Hsz).
  destruct (next lo hi t) as [[s1 t1]|] eqn:H1; [| by apply Herr].
  apply next_Some in H1 as (c1 & -> & -> & Hr1).
  pose proof (uint8_range c1) as Hc1.
  destruct (sz <=? 2)%nat eqn:Hsz2.
  { apply Nat.leb_le in Hsz2. intros [= <- <-]. split.
    - clear Herr. bits. lor6. divlia.
    - exists (String c1 ""). split; [done |]. simpl. lia. }
  apply Nat.leb_gt in Hsz2.
  destruct (next locb hicb t1) as [[s2 t2']|] eqn:H2; [| by apply Herr].
  apply next_Some in H2 as (c2 & -> & -> & Hr2). unfold locb, hicb in Hr2.
  pose proof (uint8_range c2) as Hc2.
  destruct (sz <=? 3)%nat eqn:Hsz3.
  { apply Nat.leb_le in Hsz3. intros [= <- <-]. split.
    - clear Herr. bits. lor12. lor6. divlia.
    - exists (String c1 (String c2 "")). split; [done |]. simpl. lia. }
  apply Nat.leb_gt in Hsz3.
  destruct (next locb hicb t2') as [[s3 t3']|] eqn:H3; [| by apply Herr].
  apply next_Some in H3 as (c3 & -> & -> & Hr3). unfold locb, hicb in Hr3.
  pose proof (uint8_range c3) as Hc3.
  intros [= <- <-]. split.
  - clear Herr. bits. lor18. lor12. lor6.
    divlia.
  - exists (String c1 (String c2 (String c3 ""))). split; [done |].
    simpl. lia.
Qed.

End Utf8Facts.

Section Utf8More.

Import utf8.

(** A [*] is never part of a longer sequence: what precedes it is decoded
    as if it were not there. *)
Lemma decode_app_star c s t :
  DecodeRuneInString (String c s +:+ "*" +:+ t)
  = let '(r, rest) := DecodeRuneInString (String c s) in
    (r, rest +:+ "*" +:+ t).
Proof.
  change (String c s +:+ "*" +:+ t) with (String c (s +:+ "*" +:+ t)).
  unfold DecodeRuneInString.
  destruct (uint8 c <? RuneSelf); [done |].
  destruct (first (uint8 c)) as [[[sz lo] hi]|] eqn:Hfirst; [| done].
  apply first_Some in Hfirst as (Hlo & _).
  rewrite next_app_star by done.
  destruct (next lo hi s) as [[s1 t1]|]; simpl; [| done].
  destruct (sz <=? 2)%nat; [done |].
  rewrite next_app_star by (unfold locb; lia).
  destruct (next locb hicb t1) as [[s2 t2']|]; simpl; [| done].
  destruct (sz <=? 3)%nat; [done |].
  rewrite next_app_star by (unfold locb; lia).
  by destruct (next locb hicb t2') as [[s3 t3']|].
Qed.

Lemma byte_star x : 0 ≤ x < 256 → byte_ x = "*"%char → x = 42.
Proof. intros Hx H. rewrite <- (uint8_byte x) by done. by rewrite H. Qed.

(** What the encoder writes: [*] for [*], and no [*] for any other
    rune. *)
Lemma AppendRune_star : AppendRune 42 = "*".
Proof. reflexivity. Qed.

Lemma AppendRune_starless r :
  0 ≤ r → r ≠ 42 → starless (AppendRune r) ∧ AppendRune r ≠ "".
Proof.
  intros Hr Hne. unfold AppendRune, rune1Max, rune2Max, rune3Max.
  assert (∀ x, 0x80 ≤ x < 256 → byte_ x ≠ "*"%char) as Hhigh.
  { intros x Hx ?%byte_star; lia. }
  destruct (Z.leb_spec r 0x7F).
  { split; [| done]. split; [| done]. intros ?%byte_star; lia. }
  destruct (Z.leb_spec r 0x7FF).
  { split; [| done]. simpl. split_and!; try done; apply Hhigh; bits.
    - rewrite (Zlor_add 5 32); [| side ..]. divlia.
    - rewrite (Zlor_add 6 64); [| side ..]. divlia. }
  match goal with |- context [if ?b then RuneError else r] =>
    set (r' := if b then RuneError else r);
    assert (0x800 ≤ r' ≤ 0x10FFFF) as Hr'
      by (subst r'; unfold RuneError, MaxRune, surrogateMin, surrogateMax;
          repeat case_match; lia)
  end.
  clearbody r'.
  destruct (Z.leb_spec r' 0xFFFF).
  - split; [| done]. simpl. split_and!; try done; apply Hhigh; bits.
    + rewrite (Zlor_add 4 16); [| side ..]. divlia.
    + rewrite (Zlor_add 6 64); [| side ..]. divlia.
    + rewrite (Zlor_add 6 64); [| side ..]. divlia.
  - split; [| done]. simpl. split_and!; try done; apply Hhigh; bits.
    + rewrite (Zlor_add 3 8); [| side ..]. divlia.
    + rewrite (Zlor_add 6 64); [| side ..]. divlia.
    + rewrite (Zlor_add 6 64); [| side ..]. divlia.
    + rewrite (Zlor_add 6 64); [| side ..]. divlia.
Qed.

End Utf8More.

Section SameStars.

Lemma app_nil_inv (s t : string) : s +:+ t = "" → s = "" ∧ t = "".
Proof. by destruct s. Qed.

Lemma starless_no_prefix k s t : starless k → k ≠ "" → k +:+ s ≠ "*" +:+ t.
Proof. destruct k as [|c k]; [done |]. intros [Hc _] _ [= -> _]. done. Qed.

Lemma starless_no_suffix k t : starless k → k ≠ t +:+ "*".
Proof.
  revert t. induction k as [|c k IH]; intros t Hk.
  - by destruct t.
  - destruct Hk as [Hc Hk]. destruct t as [|d t]; str_simpl.
    + intros [= -> _]. done.
    + intros [= _ H]. by eapply IH.
Qed.

(** A string ends with a star when its last part does, or when that part
    is empty and the part before it does. *)
Lemma suffix_star_app (x y : string) :
  (∃ t, x +:+ y = t +:+ "*")
  ↔ (y = "" ∧ ∃ t, x = t +:+ "*") ∨ (∃ t, y = t +:+ "*").
Proof.
  split.
  - intros [t Ht]. revert t Ht. induction x as [|c x IH]; intros t Ht.
    + right. by exists t.
    + destruct t as [|d t]; str_simpl.
      * injection Ht as -> [-> ->]%app_nil_inv. left. split; [done |].
        by exists "".
      * injection Ht as -> Ht.
        destruct (IH _ Ht) as [[-> [t' ->]] | Hy]; [| by right].
        left. split; [done |]. by exists (String d t').
  - intros [[-> [t ->]] | [t ->]].
    + exists t. by rewrite str_app_nil_r.
    + exists (x +:+ t). by rewrite str_app_assoc.
Qed.

Lemma sameStars_nil_iff s o : sameStars s o → (o = "" ↔ s = "").
Proof.
  destruct 1 as [| s o _ | k k' s o _ Hk _ Hk' _]; [done | done |].
  split; intros [? _]%app_nil_inv; done.
Qed.

Lemma sameStars_prefix s o :
  sameStars s o → (∃ t, o = "*" +:+ t) ↔ (∃ t, s = "*" +:+ t).
Proof.
  destruct 1 as [| s o _ | k k' s o Hk Hne Hk' Hne' _].
  - split; intros [t Ht]; done.
  - split; intros _; eauto.
  - split; intros [t Ht]; by apply starless_no_prefix in Ht.
Qed.

Lemma sameStars_suffix s o :
  sameStars s o → (∃ t, o = t +:+ "*") ↔ (∃ t, s = t +:+ "*").
Proof.
  induction 1 as [| s o Hsim IH | k k' s o Hk Hne Hk' Hne' Hsim IH].
  - split; intros [[] Ht]; done.
  - rewrite !suffix_star_app, IH, (sameStars_nil_iff _ _ Hsim). done.
  - rewrite !suffix_star_app, IH, (sameStars_nil_iff _ _ Hsim).
    split; (intros [[_ [t Ht]] | H]; [by apply starless_no_suffix in Ht | by right]).
Qed.

Lemma sameStars_star_inv s : sameStars s "*" → s = "*".
Proof.
  inversion 1 as [| s' o Hsim Hs Ho | k k' s' o Hk Hne Hk' Hne' Hsim Hs Ho].
  - destruct o; [| done]. apply sameStars_nil_iff in Hsim.
    by rewrite (proj1 Hsim eq_refl).
  - by apply (starless_no_prefix k' o "") in Ho.
Qed.

End SameStars.

Lemma isASCII_app s t : isASCII (s +:+ t) = isASCII s && isASCII t.
Proof.
  induction s as [|c s IH]; str_simpl; simpl; [done |].
  by rewrite IH, andb_assoc.
Qed.

Lemma mapBytes_lower_sameStars s : sameStars s (mapBytes lowerByte s).
Proof.
  induction s as [|c s IH]; simpl; [constructor |].
  destruct (decide (c = "*"%char)) as [-> | Hc].
  - by apply (sameStars_star s).
  - apply (sameStars_text (String c "") (String (lowerByte c) "") s);
      simpl; try done.
    split; [| done]. by intros ?%lowerByte_star_inv.
Qed.

Section CaseFacts.

Context {U : Unicode} {L : UnicodeLaws U}.

Lemma decode_len c t r rest :
  utf8.DecodeRuneInString (String c t) = (r, rest) → (len rest ≤ len t)%nat.
Proof.
  intros [(_ & _ & ->) | (_ & _ & mid & -> & _)]%decode_cases; [done |].
  rewrite len_app. lia.
Qed.

Lemma Map_loop_cons fuel (f : Z → Z) c t :
  Map_loop (S fuel) f (String c t)
  = let '(r, rest) := utf8.DecodeRuneInString (String c t) in
    (if 0 <=? f r then utf8.AppendRune (f r) else "")
    +:+ Map_loop fuel f rest.
Proof. reflexivity. Qed.

Lemma Map_loop_sameStars fuel s :
  (len s ≤ fuel)%nat → sameStars s (Map_loop fuel unicode_ToLower s).
Proof.
  revert s. induction fuel as [|fuel IH]; intros s Hlen.
  { destruct s; [constructor | simpl in Hlen; lia]. }
  destruct s as [|c t]; [constructor |]. rewrite Map_loop_cons.
  destruct (utf8.DecodeRuneInString (String c t)) as [r rest] eqn:Hdec.
  pose proof (decode_len _ _ _ _ Hdec) as Hrest. simpl in Hlen.
  specialize (IH rest ltac:(lia)).
  assert (0 ≤ r) as Hr.
  { apply decode_cases in Hdec as [(_ & -> & _) | (_ & ? & _)]; [| lia].
    apply uint8_range. }
  pose proof (unicode_ToLower_nonneg r Hr) as Hnonneg.
  destruct (Z.leb_spec 0 (unicode_ToLower r)); [| lia].
  apply decode_cases in Hdec
    as [(Hc & -> & ->) | (Hc & Hhigh & mid & -> & Hmid)].
  - destruct (decide (c = "*"%char)) as [-> | Hne].
    + change (utf8.uint8 "*") with 42.
      rewrite (proj2 (unicode_ToLower_star 42) eq_refl).
      by apply (sameStars_star t).
    + assert (unicode_ToLower (utf8.uint8 c) ≠ 42) as Hne'.
      { rewrite unicode_ToLower_star. by rewrite uint8_star. }
      destruct (AppendRune_starless _ Hnonneg Hne') as [Hstar Hnil].
      by apply (sameStars_text (String c "") _ t).
  - assert (unicode_ToLower r ≠ 42) as Hne'.
    { rewrite unicode_ToLower_star. lia. }
    destruct (AppendRune_starless _ Hnonneg Hne') as [Hstar Hnil].
    change (String c (mid +:+ rest)) with (String c mid +:+ rest).
    apply sameStars_text; try done.
    apply high_starless. by split.
Qed.

Lemma ToLower_sameStars s : sameStars s (ToLower s).
Proof.
  unfold ToLower. destruct (isASCII s).
  - apply mapBytes_lower_sameStars.
  - by apply Map_loop_sameStars.
Qed.

Lemma Map_loop_app_star fuel s :
  (len s ≤ fuel)%nat →
  Map_loop (S fuel) unicode_ToLower (s +:+ "*")
  = Map_loop fuel unicode_ToLower s +:+ "*".
Proof.
  assert (∀ n, Map_loop (S n) unicode_ToLower "*"
               = "*" +:+ Map_loop n unicode_ToLower "") as Hstar.
  { intros n. cbn [Map_loop utf8.DecodeRuneInString].
    change (utf8.uint8 "*" <? utf8.RuneSelf) with true. cbv iota.
    change (utf8.uint8 "*") with 42.
    by rewrite (proj2 (unicode_ToLower_star 42) eq_refl). }
  revert s. induction fuel as [|fuel IH]; intros s Hlen.
  { destruct s; [| simpl in Hlen; lia]. by rewrite str_app_nil_l, Hstar. }
  destruct s as [|c t].
  { rewrite str_app_nil_l, Hstar. by destruct fuel. }
  change (String c t +:+ "*") with (String c (t +:+ "*" +:+ "")).
  rewrite !Map_loop_cons.
  change (String c (t +:+ "*" +:+ "")) with (String c t +:+ "*" +:+ "").
  rewrite decode_app_star.
  destruct (utf8.DecodeRuneInString (String c t)) as [r rest] eqn:Hdec.
  apply decode_len in Hdec. simpl in Hlen.
  change (rest +:+ "*" +:+ "") with (rest +:+ "*").
  rewrite IH by lia. by rewrite str_app_assoc.
Qed.

Lemma ToLower_app_star s : ToLower (s +:+ "*") = ToLower s +:+ "*".
Proof.
  unfold ToLower. rewrite isASCII_app. simpl. rewrite andb_true_r.
  destruct (isASCII s).
  - by rewrite mapBytes_app.
  - unfold Map. rewrite len_app. simpl. rewrite Nat.add_1_r.
    by apply Map_loop_app_star.
Qed.

Lemma ToLower_star_app s : ToLower ("*" +:+ s) = "*" +:+ ToLower s.
Proof.
  unfold ToLower. str_simpl. simpl. destruct (isASCII s); [done |].
  unfold Map. simpl.
  change (utf8.uint8 "*") with 42.
  by rewrite (proj2 (unicode_ToLower_star 42) eq_refl).
Qed.

Lemma ToLower_nil_inv s : ToLower s = "" → s = "".
Proof.
  intros H. pose proof (ToLower_sameStars s) as Hsim.
  by apply (sameStars_nil_iff _ _ Hsim).
Qed.

Lemma ToLower_star_inv s : ToLower s = "*" → s = "*".
Proof.
  intros H. pose proof (ToLower_sameStars s) as Hsim. rewrite H in Hsim.
  by apply sameStars_star_inv.
Qed.

End CaseFacts.

Section CaseEnds.

Context {U : Unicode} {L : UnicodeLaws U}.

Lemma HasPrefix_star_ToLower s : HasPrefix (ToLower s) "*" = HasPrefix s "*".
Proof.
  apply eq_true_iff_eq. rewrite !HasPrefix_spec.
  apply sameStars_prefix, ToLower_sameStars.
Qed.

Lemma HasSuffix_star_ToLower s : HasSuffix (ToLower s) "*" = HasSuffix s "*".
Proof.
  apply eq_true_iff_eq. rewrite !HasSuffix_spec.
  apply sameStars_suffix, ToLower_sameStars.
Qed.

End CaseEnds.

(** ** The wildcard matcher *)

Section Matcher.

Context {U : Unicode} {L : UnicodeLaws U}.

Implicit Types s t p a b : string.

Lemma matchWildcard_unfold p s :
  p ≠ "" →
  matchWildcard p s =
    let P := ToLower p in
    let S := ToLower s in
    if String.eqb P "*" then true
    else if HasPrefix P "*" && HasSuffix P "*" then
      Contains S (slice P 1 (len P - 1))
    else if HasPrefix P "*" then HasSuffix S (slice P 1 (len P))
    else if HasSuffix P "*" then HasPrefix S (slice P 0 (len P - 1))
    else String.eqb S P.
Proof. intros Hp. unfold matchWildcard. by destruct (String.eqb_spec p ""). Qed.

Lemma slice_drop_last a : slice (a +:+ "*") 0 (len (a +:+ "*") - 1) = a.
Proof.
  unfold slice. rewrite len_app. simpl.
  replace (len a + 1 - 1 - 0)%nat with (len a) by lia.
  apply substring_0_app.
Qed.

Lemma slice_drop_first a : slice ("*" +:+ a) 1 (len ("*" +:+ a)) = a.
Proof.
  unfold slice. rewrite len_app. str_simpl.
  rewrite Nat.sub_0_r. apply substring_0_len.
Qed.

Lemma slice_middle a :
  slice ("*" +:+ a +:+ "*") 1 (len ("*" +:+ a +:+ "*") - 1) = a.
Proof.
  unfold slice. rewrite !len_app. str_simpl.
  replace (len a + 1 - 0 - 1)%nat with (len a) by lia.
  apply substring_0_app.
Qed.

Lemma app_star_not_nil a : a +:+ "*" ≠ "".
Proof. by destruct a. Qed.

Lemma HasPrefix_app_star a :
  a ≠ "" → HasPrefix (a +:+ "*") "*" = HasPrefix a "*".
Proof.
  intros Ha. apply eq_true_iff_eq. rewrite !HasPrefix_spec.
  destruct a as [|c a]; [done |]. str_simpl. split.
  - intros [t [= -> _]]. by exists a.
  - intros [t [= -> _]]. by exists (a +:+ "*").
Qed.

Lemma HasSuffix_star_app a :
  a ≠ "" → HasSuffix ("*" +:+ a) "*" = HasSuffix a "*".
Proof.
  intros Ha. apply eq_true_iff_eq. rewrite !HasSuffix_spec. split.
  - intros [t Ht]. destruct t as [|c t]; str_simpl.
    + destruct a as [|? []]; done.
    + injection Ht as _ ->. by exists t.
  - intros [t ->]. exists ("*" +:+ t). by str_simpl.
Qed.

Lemma matchWildcard_prefix pre s :
  HasPrefix pre "*" = false →
  matchWildcard (pre +:+ "*") s = true ↔ ∃ t, ToLower s = ToLower pre +:+ t.
Proof.
  intros Hpre. destruct (decide (pre = "")) as [-> | Hne].
  - split; [intros _; by exists (ToLower s) | done].
  - rewrite matchWildcard_unfold by apply app_star_not_nil. cbv zeta.
    assert (ToLower pre ≠ "") as HL by (intros ?%ToLower_nil_inv; done).
    rewrite !ToLower_app_star.
    rewrite HasPrefix_app_star, HasPrefix_star_ToLower, Hpre by done.
    assert (String.eqb (ToLower pre +:+ "*") "*" = false) as ->.
    { apply String.eqb_neq. destruct (ToLower pre) as [|? []]; done. }
    simpl. assert (HasSuffix (ToLower pre +:+ "*") "*" = true) as ->
      by (apply HasSuffix_spec; eauto).
    rewrite slice_drop_last. apply HasPrefix_spec.
Qed.

Lemma matchWildcard_suffix suf s :
  HasSuffix suf "*" = false →
  matchWildcard ("*" +:+ suf) s = true ↔ ∃ t, ToLower s = t +:+ ToLower suf.
Proof.
  intros Hsuf. destruct (decide (suf = "")) as [-> | Hne].
  - split; [intros _; exists (ToLower s); by rewrite str_app_nil_r | done].
  - rewrite matchWildcard_unfold by done. cbv zeta.
    assert (ToLower suf ≠ "") as HL by (intros ?%ToLower_nil_inv; done).
    rewrite !ToLower_star_app.
    rewrite HasSuffix_star_app, HasSuffix_star_ToLower, Hsuf by done.
    assert (String.eqb ("*" +:+ ToLower suf) "*" = false) as ->.
    { apply String.eqb_neq. destruct (ToLower suf); done. }
    assert (HasPrefix ("*" +:+ ToLower suf) "*" = true) as ->
      by (apply HasPrefix_spec; eauto).
    simpl. rewrite slice_drop_first. apply HasSuffix_spec.
Qed.

Lemma matchWildcard_contains mid s :
  matchWildcard ("*" +:+ mid +:+ "*") s = true
  ↔ ∃ a b, ToLower s = a +:+ ToLower mid +:+ b.
Proof.
  rewrite matchWildcard_unfold by done. cbv zeta.
  rewrite !ToLower_star_app, !ToLower_app_star.
  assert (String.eqb ("*" +:+ ToLower mid +:+ "*") "*" = false) as ->.
  { apply String.eqb_neq. destruct (ToLower mid); done. }
  assert (HasPrefix ("*" +:+ ToLower mid +:+ "*") "*" = true) as ->
    by (apply HasPrefix_spec; eauto).
  assert (HasSuffix ("*" +:+ ToLower mid +:+ "*") "*" = true) as ->.
  { apply HasSuffix_spec. exists ("*" +:+ ToLower mid).
    by rewrite str_app_assoc. }
  simpl. rewrite slice_middle. apply Contains_spec.
Qed.

Lemma matchWildcard_exact p s :
  p ≠ "" → HasPrefix p "*" = false → HasSuffix p "*" = false →
  matchWildcard p s = true ↔ ToLower s = ToLower p.
Proof.
  intros Hne Hpre Hsuf. rewrite matchWildcard_unfold by done. cbv zeta.
  rewrite HasPrefix_star_ToLower, HasSuffix_star_ToLower, Hpre, Hsuf.
  destruct (String.eqb_spec (ToLower p) "*") as [Heq | _].
  - apply ToLower_star_inv in Heq as ->. done.
  - simpl. apply String.eqb_eq.
Qed.

Lemma matchWildcard_fold p p' s s' :
  ToLower p = ToLower p' → ToLower s = ToLower s' →
  matchWildcard p s = matchWildcard p' s'.
Proof.
  intros Hp Hs. unfold matchWildcard. rewrite Hp, Hs.
  destruct (String.eqb_spec p "") as [-> | Hne],
    (String.eqb_spec p' "") as [-> | Hne']; try done.
  - symmetry in Hp. by apply ToLower_nil_inv in Hp.
  - by apply ToLower_nil_inv in Hp.
Qed.

End Matcher.

(** ** Base64: decoding an encoding gives the bytes back *)

Lemma list_ind3 {A} (P : list A → Prop) :
  P [] → (∀ a, P [a]) → (∀ a b, P [a; b]) →
  (∀ a b c l, P l → P (a :: b :: c :: l)) →
  ∀ l, P l.
Proof.
  intros H0 H1 H2 H3.
  fix IH 1. intros [|a [|b [|c l]]]; [done.. |]. apply H3, IH.
Qed.

Section Base64Facts.

Import Base64.
Local Open Scope N_scope.

Ltac nlia := zify; Z.to_euclidean_division_equations; lia.

Lemma lor_add x y k : x mod 2^k = 0 → y < 2^k → N.lor x y = x + y.
Proof.
  intros Hx Hy.
  rewrite <- N.lxor_lor; [symmetry; apply N.add_nocarry_lxor |];
    apply N.bits_inj; intros m; rewrite N.land_spec, N.bits_0;
    destruct (N.lt_ge_cases m k) as [Hm | Hm].
  1,3: by rewrite <- (N.mod_pow2_bits_low x k m Hm), Hx, N.bits_0.
  all: rewrite <- (N.mod_small y (2^k) Hy), N.mod_pow2_bits_high by done;
    apply andb_false_r.
Qed.

Lemma land_63 x : N.land x 63 = x mod 64.
Proof. change 63 with (N.ones 6). by rewrite N.land_ones. Qed.

Lemma shiftr_div x k : N.shiftr x k = x / 2^k.
Proof. apply N.shiftr_div_pow2. Qed.

Lemma encode_decodeMap_nat (n : nat) :
  (n < 64)%nat → decodeMap (encode (N.of_nat n)) = Some (N.of_nat n).
Proof. intros Hn. do 64 (destruct n as [|n]; [reflexivity |]). lia. Qed.

Lemma encode_decodeMap v : v < 64 → decodeMap (encode v) = Some v.
Proof.
  intros Hv. rewrite <- (N2Nat.id v). apply encode_decodeMap_nat. lia.
Qed.

Lemma encode_not_newline_nat (n : nat) :
  (n < 64)%nat → isNewline (encode (N.of_nat n)) = false.
Proof. intros Hn. do 64 (destruct n as [|n]; [reflexivity |]). lia. Qed.

Lemma sextet_not_newline val k : isNewline (sextet val k) = false.
Proof.
  unfold sextet. rewrite land_63, <- (N2Nat.id (_ mod 64)).
  apply encode_not_newline_nat.
  assert (N.shiftr val k mod 64 < 64) by (apply N.mod_lt; lia). lia.
Qed.

Lemma sextet_decodeMap val k :
  decodeMap (sextet val k) = Some ((val / 2^k) mod 64).
Proof.
  unfold sextet. rewrite land_63, shiftr_div.
  apply encode_decodeMap, N.mod_lt. lia.
Qed.

Lemma quantum_add d0 d1 d2 d3 :
  d0 < 64 → d1 < 64 → d2 < 64 → d3 < 64 →
  quantum d0 d1 d2 d3 = d0 * 262144 + d1 * 4096 + d2 * 64 + d3.
Proof.
  intros. unfold quantum. rewrite !N.shiftl_mul_pow2.
  change (2^18) with 262144. change (2^12) with 4096. change (2^6) with 64.
  rewrite (lor_add (d0 * 262144) (d1 * 4096) 18),
    (lor_add _ (d2 * 64) 12), (lor_add _ d3 6);
    change (2^18) with 262144; change (2^12) with 4096;
    change (2^6) with 64; nlia.
Qed.

Lemma byte_uint b : byte_ (uint b) = b.
Proof.
  unfold byte_, uint. pose proof (Byte.to_N_bounded b).
  by rewrite N.mod_small, Byte.of_to_N by lia.
Qed.

Lemma byte_mod v : byte_ (v mod 256) = byte_ v.
Proof. unfold byte_. by rewrite N.Div0.mod_mod. Qed.

Lemma byte_eq v b : v mod 256 = uint b → byte_ v = b.
Proof. intros H. by rewrite <- byte_mod, H, byte_uint. Qed.

Lemma uint_bounded b : uint b < 256.
Proof. unfold uint. pose proof (Byte.to_N_bounded b). lia. Qed.

Lemma val3 a b c :
  a < 256 → b < 256 → c < 256 →
  N.lor (N.lor (N.shiftl a 16) (N.shiftl b 8)) c = a * 65536 + b * 256 + c.
Proof.
  intros. rewrite !N.shiftl_mul_pow2.
  change (2^16) with 65536. change (2^8) with 256.
  rewrite (lor_add (a * 65536) (b * 256) 16), (lor_add _ c 8);
    change (2^16) with 65536; change (2^8) with 256; nlia.
Qed.

Lemma val2 a b :
  a < 256 → b < 256 →
  N.lor (N.shiftl a 16) (N.shiftl b 8) = a * 65536 + b * 256.
Proof.
  intros. rewrite <- (N.lor_0_r (N.lor _ _)), val3 by lia. lia.
Qed.

Lemma stripNewlines_EncodeToString src :
  stripNewlines (EncodeToString src) = EncodeToString src.
Proof.
  induction src as [|a|a b|a b c src IH] using list_ind3;
    cbn [EncodeToString stripNewlines];
    rewrite ?sextet_not_newline, ?IH; done.
Qed.

Lemma decodeMap_padChar : decodeMap padChar = None.
Proof. reflexivity. Qed.

Lemma decode1 a :
  let val := N.shiftl (uint a) 16 in
  byte_ (N.shiftr
           (quantum ((val / 2^18) mod 64) ((val / 2^12) mod 64) 0 0) 16) = a.
Proof.
  pose proof (uint_bounded a). cbv zeta. rewrite N.shiftl_mul_pow2.
  rewrite quantum_add, shiftr_div by (try apply N.mod_lt; lia).
  change (2^16) with 65536. change (2^18) with 262144.
  change (2^12) with 4096. apply byte_eq. nlia.
Qed.

Lemma decode2 a b :
  let val := N.lor (N.shiftl (uint a) 16) (N.shiftl (uint b) 8) in
  let q := quantum ((val / 2^18) mod 64) ((val / 2^12) mod 64)
                   ((val / 2^6) mod 64) 0 in
  byte_ (N.shiftr q 16) = a ∧ byte_ (N.shiftr q 8) = b.
Proof.
  pose proof (uint_bounded a). pose proof (uint_bounded b). cbv zeta.
  rewrite val2 by done.
  rewrite quantum_add, !shiftr_div by (try apply N.mod_lt; lia).
  change (2^16) with 65536. change (2^18) with 262144.
  change (2^12) with 4096. change (2^8) with 256. change (2^6) with 64.
  split; apply byte_eq; nlia.
Qed.

Lemma decode3 a b c :
  let val := N.lor (N.lor (N.shiftl (uint a) 16) (N.shiftl (uint b) 8))
                   (uint c) in
  let q := quantum ((val / 2^18) mod 64) ((val / 2^12) mod 64)
                   ((val / 2^6) mod 64) ((val / 2^0) mod 64) in
  byte_ (N.shiftr q 16) = a ∧ byte_ (N.shiftr q 8) = b ∧ byte_ q = c.
Proof.
  pose proof (uint_bounded a). pose proof (uint_bounded b).
  pose proof (uint_bounded c). cbv zeta.
  rewrite val3 by done.
  rewrite quantum_add, !shiftr_div by (try apply N.mod_lt; lia).
  change (2^16) with 65536. change (2^18) with 262144.
  change (2^12) with 4096. change (2^8) with 256. change (2^6) with 64.
  change (2^0) with 1.
  repeat split; apply byte_eq; nlia.
Qed.

Lemma decodeQuanta_EncodeToString src :
  decodeQuanta (EncodeToString src) = Some src.
Proof.
  induction src as [|a|a b|a b c src IH] using list_ind3;
    cbn [EncodeToString decodeQuanta].
  - done.
  - rewrite !sextet_decodeMap, decodeMap_padChar. cbv beta iota zeta.
    change (Ascii.eqb padChar padChar && Ascii.eqb padChar padChar
            && String.eqb "" "")%bool with true. cbv iota.
    by rewrite decode1.
  - rewrite !sextet_decodeMap, decodeMap_padChar. cbv beta iota zeta.
    change (Ascii.eqb padChar padChar && String.eqb "" "")%bool with true.
    cbv iota. destruct (decode2 a b) as [-> ->]. done.
  - rewrite !sextet_decodeMap, IH. cbv beta iota zeta.
    destruct (decode3 a b c) as (-> & -> & ->). done.
Qed.

Lemma DecodeString_EncodeToString src :
  DecodeString (EncodeToString src) = Some src.
Proof.
  unfold DecodeString.
  by rewrite stripNewlines_EncodeToString, decodeQuanta_EncodeToString.
Qed.

Lemma EncodeToString_inj : Inj (=) (=) EncodeToString.
Proof.
  intros x y H. apply (f_equal DecodeString) in H.
  rewrite !DecodeString_EncodeToString in H. by injection H.
Qed.

End Base64Facts.

(** ** The certificate exclusion filter *)

Section FilterFacts.

Context {U : Unicode}.

Variable ParseCertificate : list byte → option Certificate.

Lemma filterCerts_loop_spec derCerts rules filtered :
  filterCerts_loop ParseCertificate derCerts rules filtered
  = filtered ++ (Base64.EncodeToString <$> List.filter (survives ParseCertificate rules) derCerts).
Proof.
  revert filtered. induction derCerts as [|der ders IH]; intros filtered; simpl.
  - by rewrite app_nil_r.
  - unfold survives at 1.
    destruct (ParseCertificate der) as [cert|]; [|apply IH].
    destruct (isCertExcluded cert rules); simpl; [apply IH |].
    by rewrite IH, <- app_assoc.
Qed.

Lemma filterCerts_spec derCerts rules :
  filterCerts ParseCertificate derCerts rules
  = Base64.EncodeToString <$> List.filter (survives ParseCertificate rules) derCerts.
Proof. apply filterCerts_loop_spec. Qed.

Lemma decodeBase64Certs_loop_spec b64certs out :
  decodeBase64Certs_loop b64certs out = out ++ omap Base64.DecodeString b64certs.
Proof.
  revert out. induction b64certs as [|b64 l IH]; intros out; simpl.
  - by rewrite app_nil_r.
  - destruct (Base64.DecodeString b64); [|apply IH].
    by rewrite IH, <- app_assoc.
Qed.

Lemma omap_DecodeString_encoded (ders : list (list byte)) :
  omap Base64.DecodeString (Base64.EncodeToString <$> ders) = ders.
Proof.
  induction ders as [|der ders IH]; csimpl; [done |].
  by rewrite DecodeString_EncodeToString, IH.
Qed.

Lemma decodeBase64Certs_encoded (ders : list (list byte)) :
  decodeBase64Certs (Base64.EncodeToString <$> ders) = ders.
Proof.
  unfold decodeBase64Certs. rewrite decodeBase64Certs_loop_spec.
  apply omap_DecodeString_encoded.
Qed.

Lemma filter_idemp {A} (f : A → bool) l :
  List.filter f (List.filter f l) = List.filter f l.
Proof.
  induction l as [|x l IH]; simpl; [done |].
  destruct (f x) eqn:Hx; simpl; by rewrite ?Hx, IH.
Qed.

(** Survivors keep their byte form, in encounter order. *)
Lemma filterCerts_decoded derCerts rules :
  decodeBase64Certs (filterCerts ParseCertificate derCerts rules)
  = List.filter (survives ParseCertificate rules) derCerts.
Proof. by rewrite filterCerts_spec, decodeBase64Certs_encoded. Qed.

End FilterFacts.

(** C6. The exclusion filter is idempotent: filtering the decoded output of
    the filter again, with the same rules, gives the same output. This holds
    for every certificate parser, every sequence of byte strings and every
    rule set. *)
Theorem filterCerts_idempotent {U : Unicode}
    (ParseCertificate : list byte → option Certificate)
    (x : list (list byte)) (R : list ExcludeCertRule) :
  filterCerts ParseCertificate
    (decodeBase64Certs (filterCerts ParseCertificate x R)) R
  = filterCerts ParseCertificate x R.
Proof.
  rewrite filterCerts_decoded, !filterCerts_spec. by rewrite filter_idemp.
Qed.

(** ** Duplicates in a certificate list *)

#[local] Set Warnings "-clear-no-such-hyp".

Section Dedup.

Context {A : Type} `{EqDecision A}.
Implicit Types l r : list A.

Lemma elem_of_firstOccurrences x l : x ∈ firstOccurrences l ↔ x ∈ l.
Proof.
  induction l as [|y l IH]; simpl; [done |].
  rewrite !elem_of_cons, list_elem_of_filter, IH.
  destruct (decide (x = y)); naive_solver.
Qed.

Lemma NoDup_firstOccurrences l : NoDup (firstOccurrences l).
Proof.
  induction l as [|y l IH]; simpl; constructor.
  - rewrite list_elem_of_filter. naive_solver.
  - by apply NoDup_filter.
Qed.

Lemma filter_ne_not_elem_of x r : x ∉ r → filter (λ y, y ≠ x) r = r.
Proof.
  induction r as [|y r IH]; [done |]. rewrite not_elem_of_cons.
  intros [Hxy Hx]. rewrite filter_cons_True by done. by rewrite IH.
Qed.

Lemma length_filter_ne_elem_of x r :
  NoDup r → x ∈ r → S (length (filter (λ y, y ≠ x) r)) = length r.
Proof.
  induction 1 as [|y r Hy Hr IH]; [by intros ?%elem_of_nil |].
  intros [-> | Hx]%elem_of_cons.
  - rewrite filter_cons_False by naive_solver.
    by rewrite filter_ne_not_elem_of.
  - rewrite filter_cons_True by (intros ->; done). simpl. by rewrite IH.
Qed.

(** [N - K] entries are left. *)
Lemma length_firstOccurrences l :
  (length (firstOccurrences l) + duplicates l = length l)%nat.
Proof.
  induction l as [|x l IH]; simpl; [done |].
  destruct (decide (x ∈ l)) as [Hx | Hx].
  - pose proof (length_filter_ne_elem_of x (firstOccurrences l)
      (NoDup_firstOccurrences l) (proj2 (elem_of_firstOccurrences x l) Hx)).
    lia.
  - rewrite filter_ne_not_elem_of by by rewrite elem_of_firstOccurrences.
    lia.
Qed.

Lemma filter_not_elem_of_nil r : filter (λ y, y ∉ @nil A) r = r.
Proof.
  induction r as [|y r IH]; [done |].
  rewrite filter_cons_True by apply not_elem_of_nil. by rewrite IH.
Qed.

Lemma filter_not_elem_of_snoc (acc : list A) x r :
  filter (λ y, y ∉ acc ++ [x]) r = filter (λ y, y ∉ acc) (filter (λ y, y ≠ x) r).
Proof.
  rewrite list_filter_filter. apply list_filter_iff. intros y.
  rewrite not_elem_of_app, list_elem_of_singleton. naive_solver.
Qed.

Lemma filter_not_elem_of_absorb (acc : list A) x r :
  x ∈ acc →
  filter (λ y, y ∉ acc) (filter (λ y, y ≠ x) r) = filter (λ y, y ∉ acc) r.
Proof.
  intros Hx. rewrite list_filter_filter. apply list_filter_iff. intros y.
  naive_solver.
Qed.

End Dedup.

Lemma firstOccurrences_fmap {A B} `{EqDecision A, EqDecision B}
    (f : A → B) `{!Inj (=) (=) f} (l : list A) :
  firstOccurrences (f <$> l) = f <$> firstOccurrences l.
Proof.
  induction l as [|x l IH]; csimpl; [done |]. rewrite IH. f_equal.
  generalize (firstOccurrences l). intros r.
  induction r as [|y r IHr]; csimpl; [done |].
  destruct (decide (y = x)) as [-> | Hne].
  - rewrite !filter_cons_False by naive_solver. done.
  - rewrite !filter_cons_True by naive_solver. csimpl. by rewrite IHr.
Qed.

Section LegacyDedup.

Import Legacy.

(** The loop over the peer certificates keeps [certMap] equal to the set
    of [certs] and appends the encodings not seen before. *)
Lemma collectCerts_spec (certMap : gset string) (certs : list string)
    (chain : list (list byte)) :
  certMap = list_to_set certs →
  let st := collectCerts (certMap, certs) chain in
  st.1 = list_to_set st.2
  ∧ st.2 = certs ++ filter (λ e, e ∉ certs)
                      (firstOccurrences (Base64.EncodeToString <$> chain)).
Proof.
  revert certMap certs. induction chain as [|raw chain IH];
    intros certMap certs Hset; csimpl.
  - by rewrite app_nil_r.
  - unfold collectCerts in *. csimpl.
    destruct (decide (Base64.EncodeToString raw ∈ certMap)) as [Hin | Hin].
    + destruct (IH certMap certs Hset) as [H1 H2]. split; [done |].
      rewrite H2. f_equal.
      assert (Base64.EncodeToString raw ∈ certs) as Hin' by set_solver.
      rewrite filter_cons_False by naive_solver.
      by rewrite filter_not_elem_of_absorb.
    + destruct (IH ({[Base64.EncodeToString raw]} ∪ certMap)
                  (certs ++ [Base64.EncodeToString raw])) as [H1 H2].
      { rewrite list_to_set_app_L. set_solver. }
      split; [done |]. rewrite H2, <- app_assoc. f_equal.
      assert (Base64.EncodeToString raw ∉ certs) as Hin' by set_solver.
      rewrite filter_cons_True by done. csimpl. f_equal.
      apply filter_not_elem_of_snoc.
Qed.

Lemma collectCerts_app st chain1 chain2 :
  collectCerts st (chain1 ++ chain2)
  = collectCerts (collectCerts st chain1) chain2.
Proof. apply foldl_app. Qed.

Lemma collectCerts_fresh chain :
  (collectCerts (∅, []) chain).2
  = Base64.EncodeToString <$> firstOccurrences chain.
Proof.
  destruct (collectCerts_spec ∅ [] chain) as [_ H]; [done |].
  rewrite H. csimpl.
  rewrite firstOccurrences_fmap by apply EncodeToString_inj.
  apply filter_not_elem_of_nil.
Qed.

End LegacyDedup.

(** ** The probe, the handler and the sink *)

Lemma bind_run {S E A B} (m : SE S E A) (k : A → SE S E B) (s : S) :
  (m ≫= k) s = match m s with
               | (inr a, s') => k a s'
               | (inl e, s') => (inl e, s')
               end.
Proof. reflexivity. Qed.

Lemma emit_run (e : Event) (log : list Event) : emit e log = (inr tt, log ++ [e]).
Proof. reflexivity. Qed.

Lemma ret_run {S E A} (a : A) (s : S) : (mret a : SE S E A) s = (inr a, s).
Proof. reflexivity. Qed.

Lemma raise_run {S E A} (e : E) (s : S) : (raise e : SE S E A) s = (inl e, s).
Proof. reflexivity. Qed.

(** Running the steps of a computation whose effects are known. *)
Ltac io_run :=
  repeat (rewrite ?bind_run, ?emit_run, ?ret_run; unfold os_Exit;
          rewrite ?raise_run; cbv iota beta).

Lemma posts_app log1 log2 : posts (log1 ++ log2) = posts log1 ++ posts log2.
Proof. apply omap_app. Qed.

Lemma dials_app log1 log2 : dials (log1 ++ log2) = dials log1 ++ dials log2.
Proof. apply omap_app. Qed.

Section HandlerFacts.

Context {U : Unicode}.

Variable ParseCertificate : list byte → option Certificate.
Variable smtpProtocolHandler : ProtocolHandler.
Variable env : Env.

Lemma encodePeerCertificates_spec chain certs :
  encodePeerCertificates chain certs = certs ++ (Base64.EncodeToString <$> chain).
Proof.
  revert certs. induction chain as [|raw chain IH]; intros certs; csimpl.
  - by rewrite app_nil_r.
  - by rewrite IH, <- app_assoc.
Qed.

Lemma probe_run ip hostname port handshakeType proto log :
  tlsHandshakeAndCollectWithTimeout env ip hostname port handshakeType proto
    (dialTimeout env) log
  = (inr (familyOutcome env ip hostname port handshakeType),
     log ++ probeEvents env ip hostname port handshakeType).
Proof.
  unfold tlsHandshakeAndCollectWithTimeout, familyOutcome, probeEvents.
  rewrite bind_run, emit_run.
  destruct (dialer_Dial env ip port _); simpl; [|done].
  rewrite bind_run, emit_run, <- app_assoc. simpl.
  destruct (uconn_Handshake env ip hostname port handshakeType)
    as [[|raw chain]|]; simpl; try done.
  by rewrite encodePeerCertificates_spec.
Qed.

Lemma dials_probeEvents ip hostname port handshakeType :
  dials (probeEvents env ip hostname port handshakeType) = [handshakeType].
Proof. unfold probeEvents. by destruct (dialer_Dial _ _ _ _). Qed.

Lemma posts_probeEvents ip hostname port handshakeType :
  posts (probeEvents env ip hostname port handshakeType) = [].
Proof. unfold probeEvents. by destruct (dialer_Dial _ _ _ _). Qed.

(** What [sendToWebhook] adds to the trace: no dial, and one post when
    the request could be built. *)
Lemma sendToWebhook_trace results url log :
  let out := sendToWebhook env results url log in
  dials out.2 = dials log
  ∧ posts out.2 = posts log ++ (if requestSent env url results then [results] else []).
Proof.
  unfold sendToWebhook, requestSent, webhookTimeout.
  destruct (client_Do env url _ results) as [| | |StatusCode]; simpl;
    rewrite ?bind_run, ?emit_run; simpl.
  1,2: by rewrite dials_app, posts_app, !app_nil_r.
  - by rewrite !dials_app, !posts_app, !app_nil_r.
  - destruct ((StatusCode <? 200) || (300 <=? StatusCode)); simpl;
      [| by rewrite !dials_app, !posts_app, !app_nil_r].
    destruct (StatusCode =? 403); simpl;
      [| by rewrite !dials_app, !posts_app, !app_nil_r].
    destruct (String.eqb (Token (Config env)) ""); simpl;
      by rewrite !dials_app, !posts_app, !app_nil_r.
Qed.

Lemma filterCerts_filtered r :
  setCertificates r
    (filterCerts ParseCertificate (decodeBase64Certs (Certificates r))
       (ExcludeCerts (Config env)))
  = filtered ParseCertificate env r.
Proof.
  unfold filtered, decodeBase64Certs.
  by rewrite filterCerts_spec, decodeBase64Certs_loop_spec.
Qed.

(** The trace of the handler: both families are dialled, ECDSA first,
    whatever the peer answers, and the successful families are posted
    together, each after the filter. *)
Lemma defaultTLSHandler_trace ip hostname port proto log :
  let out := defaultTLSHandler ParseCertificate env ip hostname port proto log in
  let batch := filtered ParseCertificate env
                 <$> successfulFamilies env ip hostname port in
  dials out.2 = dials log ++ ["ecdsa"; "rsa"]
  ∧ posts out.2
    = posts log ++ (if bool_decide (batch = []) then []
                    else if requestSent env (WebhookURL (Config env)) batch
                         then [batch] else []).
Proof.
  unfold defaultTLSHandler, successfulFamilies. cbv zeta.
  rewrite bind_run, probe_run. csimpl.
  destruct (familyOutcome env ip hostname port "ecdsa") as [e1 | r1];
    rewrite !bind_run, ?emit_run; csimpl;
    rewrite !bind_run, probe_run; csimpl;
    destruct (familyOutcome env ip hostname port "rsa") as [e2 | r2];
    rewrite !bind_run, ?emit_run; csimpl;
    rewrite ?bind_run; csimpl; rewrite ?filterCerts_filtered.
  all: repeat match goal with
       | |- context [sendToWebhook env ?b ?u ?l] =>
           destruct (sendToWebhook_trace b u l) as [Hd Hp];
           destruct (sendToWebhook env b u l) as [[?|[]] ?]; simpl in *;
           rewrite ?Hd, ?Hp
       end.
  all: rewrite ?dials_app, ?posts_app, ?dials_probeEvents, ?posts_probeEvents;
    simpl; rewrite <- ?app_assoc, ?app_nil_r; done.
Qed.

End HandlerFacts.

(** ** The dispatcher *)

Section DispatchFacts.

Lemma webPorts_get port :
  portSet_get webPorts port = bool_decide (port ∈ [443; 8443; 4433; 5001; 10443]).
Proof.
  unfold portSet_get, webPorts. case_bool_decide as Hp.
  - repeat (apply elem_of_cons in Hp as [-> | Hp]; [reflexivity |]).
    by apply elem_of_nil in Hp.
  - rewrite (proj1 (not_elem_of_list_to_map _ port)); [done |].
    simpl. exact Hp.
Qed.

Lemma smtpPorts_get port :
  portSet_get smtpPorts port = bool_decide (port ∈ [25; 465; 587]).
Proof.
  unfold portSet_get, smtpPorts. case_bool_decide as Hp.
  - repeat (apply elem_of_cons in Hp as [-> | Hp]; [reflexivity |]).
    by apply elem_of_nil in Hp.
  - rewrite (proj1 (not_elem_of_list_to_map _ port)); [done |].
    simpl. exact Hp.
Qed.

Lemma web_smtp_disjoint (port : Z) :
  port ∈ [443; 8443; 4433; 5001; 10443] → port ∈ [25; 465; 587] → False.
Proof. rewrite !elem_of_cons, !elem_of_nil. lia. Qed.

Lemma resolveProto_spec protocol port :
  resolveProto protocol port =
    if bool_decide (protocol = "" ∧ port ∈ [443; 8443; 4433; 5001; 10443])
    then "http1"
    else if bool_decide (port ∈ [25; 465; 587]) then "smtp"
    else protocol.
Proof.
  unfold resolveProto. rewrite webPorts_get, smtpPorts_get.
  destruct (String.eqb_spec protocol ""); repeat case_bool_decide; naive_solver.
Qed.

Context {U : Unicode}.

Variable ParseCertificate : list byte → option Certificate.
Variable smtpProtocolHandler : ProtocolHandler.
Variable env : Env.

Lemma protocolHandlers_empty :
  protocolHandlers ParseCertificate smtpProtocolHandler env !! "" = None.
Proof. reflexivity. Qed.

Lemma portTask_no_protocol ip hostname protocol port log :
  resolveProto protocol port = "" →
  portTask ParseCertificate smtpProtocolHandler env ip hostname protocol port log
  = (inr tt, log ++ [ErrorLog "No handler for protocol %s, falling back to default TLS scan"]).
Proof. unfold portTask. by intros ->. Qed.

End DispatchFacts.

(** ** The effective protocol of a port *)

(** Membership of a port in a literal port list. *)
Ltac port_list := rewrite ?elem_of_cons, ?elem_of_nil; lia.

(** C1, as amended. The effective protocol of a port task: on an SMTP port
    (25, 465, 587) it is "smtp" whatever the protocol argument is; on every
    other port a non-empty argument is kept as it is; an empty argument
    becomes "http1" on a web port (443, 8443, 4433, 5001, 10443) and stays
    empty on any other port. *)
Theorem resolveProto_cases (protocol : string) (port : Z) :
  (port ∈ [25; 465; 587] → resolveProto protocol port = "smtp")
  ∧ (port ∉ [25; 465; 587] → protocol ≠ "" → resolveProto protocol port = protocol)
  ∧ (port ∈ [443; 8443; 4433; 5001; 10443] → protocol = "" →
     resolveProto protocol port = "http1")
  ∧ (port ∉ [25; 465; 587] → port ∉ [443; 8443; 4433; 5001; 10443] →
     protocol = "" → resolveProto protocol port = "").
Proof.
  rewrite resolveProto_spec. pose proof (web_smtp_disjoint port).
  repeat split; intros; subst; repeat case_bool_decide; naive_solver.
Qed.

(** The four cases on the ports 587, 8080, 8443 and 993. *)
Lemma resolveProto_cases_witness :
  resolveProto "http1" 587 = "smtp"
  ∧ resolveProto "h2" 8080 = "h2"
  ∧ resolveProto "" 8443 = "http1"
  ∧ resolveProto "" 993 = "".
Proof.
  split; [| split; [| split]].
  - apply (resolveProto_cases "http1" 587). port_list.
  - apply (resolveProto_cases "h2" 8080); [port_list | done].
  - apply (resolveProto_cases "" 8443); [port_list | done].
  - apply (resolveProto_cases "" 993); [port_list.. | done].
Defined.

(** C1, as stated, fails: the protocol argument "http1" is not empty, and on
    port 587 the effective protocol is "smtp". *)
Lemma resolveProto_argument_overridden :
  ¬ (∀ (protocol : string) (port : Z),
       protocol ≠ "" → resolveProto protocol port = protocol).
Proof. intros H. by specialize (H "http1" 587 ltac:(done)). Qed.

(** ** Ports without a handler *)

(** C10. For a port that is neither a web port nor an SMTP port, and an
    empty protocol argument, the port task resolves the empty protocol, for
    which [protocolHandlers] has no entry; it returns after one error log
    line and nothing else: no dial, no handshake, no post, no result. *)
Theorem portTask_unmapped_port {U : Unicode}
    (ParseCertificate : list byte → option Certificate)
    (smtpProtocolHandler : ProtocolHandler) (env : Env)
    (ip hostname : string) (port : Z) (log : list Event) :
  port ∉ [443; 8443; 4433; 5001; 10443] →
  port ∉ [25; 465; 587] →
  let out := portTask ParseCertificate smtpProtocolHandler env
               ip hostname "" port log in
  protocolHandlers ParseCertificate smtpProtocolHandler env
    !! resolveProto "" port = None
  ∧ out = (inr tt, log ++ [ErrorLog "No handler for protocol %s, falling back to default TLS scan"])
  ∧ dials out.2 = dials log
  ∧ posts out.2 = posts log
  ∧ ∀ e, e ∈ drop (length log) out.2 → isNetwork e = false.
Proof.
  intros Hweb Hsmtp.
  assert (resolveProto "" port = "") as Hproto.
  { rewrite resolveProto_spec. repeat case_bool_decide; naive_solver. }
  cbv zeta. rewrite portTask_no_protocol by done. rewrite Hproto. simpl.
  rewrite dials_app, posts_app, !app_nil_r, drop_app_length.
  split_and!; try done. by intros e ->%list_elem_of_singleton.
Qed.

(** Port 993 of a default port list, with no protocol configured. *)
Lemma portTask_unmapped_port_witness :
  portTask (U := Examples.unicode) Examples.parse Examples.smtpHandler
    (Examples.rsaOnly [Examples.der] Examples.config)
    "192.168.1.10" "192.168.1.10" "" 993 []
  = (inr tt, [ErrorLog "No handler for protocol %s, falling back to default TLS scan"]).
Proof.
  apply (portTask_unmapped_port (U := Examples.unicode)
           Examples.parse Examples.smtpHandler
           (Examples.rsaOnly [Examples.der] Examples.config)
           "192.168.1.10" "192.168.1.10" 993 []);
    port_list.
Defined.

(** ** The two cipher families *)

(** C8. Within one port's direct-TLS scan both families are dialled, ECDSA
    then RSA, whatever the peer answers to either: the outcome of one probe
    never skips the other. The batch posted is made of the results of the
    families that succeed, each on its own, after the exclusion filter;
    nothing is posted when both fail. In particular, when only the RSA
    probe succeeds the batch is exactly its result, and when only the ECDSA
    probe succeeds the batch is exactly that one. (The post is made when
    the request can be built.) *)
Theorem defaultTLSHandler_families {U : Unicode}
    (ParseCertificate : list byte → option Certificate) (env : Env)
    (ip hostname : string) (port : Z) (proto : string) :
  let out := defaultTLSHandler ParseCertificate env ip hostname port proto [] in
  let url := WebhookURL (Config env) in
  let batch := filtered ParseCertificate env
                 <$> successfulFamilies env ip hostname port in
  dials out.2 = ["ecdsa"; "rsa"]
  ∧ (batch = [] → posts out.2 = [])
  ∧ (batch ≠ [] → requestSent env url batch = true → posts out.2 = [batch])
  ∧ (∀ e r,
       familyOutcome env ip hostname port "ecdsa" = inl e →
       familyOutcome env ip hostname port "rsa" = inr r →
       requestSent env url [filtered ParseCertificate env r] = true →
       HandshakeType r = "rsa"
       ∧ posts out.2 = [[filtered ParseCertificate env r]])
  ∧ (∀ e r,
       familyOutcome env ip hostname port "ecdsa" = inr r →
       familyOutcome env ip hostname port "rsa" = inl e →
       requestSent env url [filtered ParseCertificate env r] = true →
       HandshakeType r = "ecdsa"
       ∧ posts out.2 = [[filtered ParseCertificate env r]]).
Proof.
  destruct (defaultTLSHandler_trace ParseCertificate env ip hostname port proto [])
    as [Hd Hp].
  cbv zeta in *. simpl in Hd, Hp. split_and!; [done | | | |].
  - intros Hb. rewrite Hp, Hb. done.
  - intros Hb Hs. rewrite Hp, Hs. by case_bool_decide.
  - intros e r He Hr Hs. rewrite Hp. unfold successfulFamilies. csimpl.
    rewrite He, Hr. csimpl. rewrite Hs. split; [|done].
    unfold familyOutcome in Hr.
    by repeat (case_match; simplify_eq).
  - intros e r Hr He Hs. rewrite Hp. unfold successfulFamilies. csimpl.
    rewrite He, Hr. csimpl. rewrite Hs. split; [|done].
    unfold familyOutcome in Hr.
    by repeat (case_match; simplify_eq).
Qed.

(** A peer that refuses the connection of the ECDSA probe: the RSA probe
    is made all the same, and its result, tagged "rsa", is the batch. *)
Lemma defaultTLSHandler_families_witness :
  posts (defaultTLSHandler (U := Examples.unicode) Examples.parse
           (Examples.rsaDialOnly [Examples.der] Examples.config)
           "93.184.216.34" "example.com" 443 "http1" []).2
  = [[Examples.result [Base64.EncodeToString Examples.der]]].
Proof.
  pose proof (defaultTLSHandler_families (U := Examples.unicode) Examples.parse
                (Examples.rsaDialOnly [Examples.der] Examples.config)
                "93.184.216.34" "example.com" 443 "http1") as H.
  cbv zeta in H. destruct H as (_ & _ & _ & H & _).
  destruct (H DialError
              (Examples.result [Base64.EncodeToString Examples.der]))
    as [_ Hposts]; [reflexivity.. |].
  exact Hposts.
Defined.

(** ** Results left empty by the filter *)

(** C2, the code at the failing input: the peer completes the RSA handshake
    with one certificate whose issuer is "CN=Evil CA", and the rule
    [{issuer: "*Evil*"}] is configured. The filter leaves the result without
    certificates, and the handler posts it all the same. *)
Lemma defaultTLSHandler_posts_empty_result :
  posts (defaultTLSHandler (U := Examples.unicode) Examples.parse
           (Examples.rsaOnly [Examples.der] Examples.excluding)
           "93.184.216.34" "example.com" 443 "http1" []).2
  = [[Examples.result []]].
Proof. vm_compute. reflexivity. Qed.

(** ** The sink's answer *)

(** C9. When the webhook answers with a status outside 200..299: if the
    status is 403 and no token is configured, the guidance is printed and
    the process exits with code 1; in every other case (403 with a token
    included) the status is logged as an error, nothing more is done with
    the batch, and [sendToWebhook] returns, so the scan goes on. *)
Theorem sendToWebhook_non_2xx
    (env : Env) (results : list ScanResult) (url : string)
    (log : list Event) (StatusCode : Z) :
  client_Do env url (webhookTimeout env) results = Response StatusCode →
  StatusCode < 200 ∨ 300 ≤ StatusCode →
  let out := sendToWebhook env results url log in
  let posted := HttpPost url (Token (Config env)) results in
  (StatusCode = 403 → Token (Config env) = "" →
     out.1 = inl 1
     ∧ out.2 = log ++ [posted;
                       ErrorLog "Webhook returned status: %d";
                       ErrorLog "Invalid or missing token for webhook %s";
                       Println (LF +:+ LF +:+ "No token provided.");
                       Println ("You can register your system in seconds with the following command:" +:+ LF);
                       Println "  curl -sSf https://cd.ultrapki.com/sh | sh";
                       Println (LF +:+ "This will generate a token for your system and show you how to add it to your config." +:+ LF)])
  ∧ (StatusCode = 403 → Token (Config env) ≠ "" →
     out = (inr tt, log ++ [posted;
                            ErrorLog "Webhook returned status: %d";
                            ErrorLog "Invalid or missing token for webhook %s"]))
  ∧ (StatusCode ≠ 403 →
     out = (inr tt, log ++ [posted; ErrorLog "Webhook returned status: %d"])).
Proof.
  intros Hdo Hstatus. cbv zeta. unfold sendToWebhook.
  fold (webhookTimeout env). rewrite Hdo.
  assert ((StatusCode <? 200) || (300 <=? StatusCode) = true) as ->
    by (apply orb_true_iff; lia).
  io_run. split_and!.
  - intros -> Htok. rewrite Htok. simpl. io_run. by rewrite <- !app_assoc.
  - intros -> Htok%String.eqb_neq. simpl. rewrite Htok. io_run.
    by rewrite <- !app_assoc.
  - intros Hne%Z.eqb_neq. rewrite Hne. io_run. by rewrite <- !app_assoc.
Qed.

(** Status 403 without a token, 403 with a token, and 500. *)
Lemma sendToWebhook_non_2xx_witness :
  (sendToWebhook (Examples.answering 403 "") [Examples.result []]
     "http://localhost:8000/webhook" []).1 = inl 1
  ∧ (sendToWebhook (Examples.answering 403 "secret") [Examples.result []]
       "http://localhost:8000/webhook" []).1 = inr tt
  ∧ (sendToWebhook (Examples.answering 500 "") [Examples.result []]
       "http://localhost:8000/webhook" []).1 = inr tt.
Proof.
  split; [| split].
  - apply (sendToWebhook_non_2xx (Examples.answering 403 "")
             [Examples.result []] "http://localhost:8000/webhook" [] 403);
      [reflexivity | lia | reflexivity | reflexivity].
  - rewrite (proj1 (proj2 (sendToWebhook_non_2xx (Examples.answering 403 "secret")
             [Examples.result []] "http://localhost:8000/webhook" [] 403
             eq_refl ltac:(lia))) eq_refl ltac:(done)).
    reflexivity.
  - rewrite (proj2 (proj2 (sendToWebhook_non_2xx (Examples.answering 500 "")
             [Examples.result []] "http://localhost:8000/webhook" [] 500
             eq_refl ltac:(lia))) ltac:(done)).
    reflexivity.
Defined.

(** ** Duplicate certificates *)

(** The legacy direct-TLS path merges the chains of both families into one
    list without duplicates: of the [N] certificates the two handshakes
    return, [K] of them byte-identical duplicates, exactly [N - K] entries
    are left, each at the place of its first occurrence. *)
Lemma scanPort_firstOccurrences ip hostname port now ecdsa rsa r :
  Legacy.scanPort ip hostname port now ecdsa rsa = Some r →
  let chain := default [] ecdsa ++ default [] rsa in
  Certificates r = Base64.EncodeToString <$> firstOccurrences chain
  ∧ NoDup (Certificates r)
  ∧ length (Certificates r) = (length chain - duplicates chain)%nat.
Proof.
  unfold Legacy.scanPort.
  assert ((match rsa with
           | Some chain =>
               Legacy.collectCerts
                 (match ecdsa with
                  | Some chain0 => Legacy.collectCerts (∅, []) chain0
                  | None => (∅, [])
                  end) chain
           | None =>
               match ecdsa with
               | Some chain0 => Legacy.collectCerts (∅, []) chain0
               | None => (∅, [])
               end
           end).2
          = Base64.EncodeToString
              <$> firstOccurrences (default [] ecdsa ++ default [] rsa)) as ->.
  { rewrite <- collectCerts_fresh, collectCerts_app.
    destruct ecdsa, rsa; simpl; rewrite ?app_nil_r; done. }
  cbv zeta. case_match; [done |]. intros [= <-]. simpl.
  split_and!; [done | |].
  - apply NoDup_fmap_2; [apply EncodeToString_inj | apply NoDup_firstOccurrences].
  - rewrite length_fmap.
    pose proof (length_firstOccurrences (default [] ecdsa ++ default [] rsa)).
    lia.
Qed.

(** C4, the code at the failing input: the peer completes the RSA
    handshake with a chain that holds the same certificate twice ([N = 2],
    [K = 1]). The probe [tlsHandshakeAndCollectWithTimeout] returns a
    result with two entries, the same one twice, where one unique entry is
    asked for; in general it returns one entry per peer certificate. The
    loop of the legacy path, which looks every encoding up in [certMap]
    before it appends, leaves one entry of the same chain. *)
Theorem probe_keeps_duplicates :
  let env := Examples.rsaOnly [Examples.der; Examples.der] Examples.config in
  let enc := Base64.EncodeToString Examples.der in
  (tlsHandshakeAndCollectWithTimeout env "93.184.216.34" "example.com" 443
     "rsa" "http1" (dialTimeout env) []).1
  = inr (inr (Examples.result [enc; enc]))
  ∧ duplicates [Examples.der; Examples.der] = 1%nat
  ∧ ¬ NoDup (Certificates (Examples.result [enc; enc]))
  ∧ length (Certificates (Examples.result [enc; enc])) ≠ (2 - 1)%nat
  ∧ (∀ env ip hostname port handshakeType proto dialTimeout log r log',
       tlsHandshakeAndCollectWithTimeout env ip hostname port handshakeType
         proto dialTimeout log = (inr (inr r), log') →
       ∃ chain,
         uconn_Handshake env ip hostname port handshakeType = Some chain
         ∧ Certificates r = Base64.EncodeToString <$> chain)
  ∧ Legacy.scanPort "93.184.216.34" "example.com" 443 1700000000
      None (Some [Examples.der; Examples.der])
    = Some {| IP := "93.184.216.34"; Port := 443; Hostname := "example.com";
              HandshakeType := ""; Certificates := [enc];
              Timestamp := 1700000000 |}.
Proof.
  cbv zeta. split_and!.
  - vm_compute. reflexivity.
  - vm_compute. reflexivity.
  - simpl. intros H. apply NoDup_cons_1_1 in H. apply H. by left.
  - simpl. lia.
  - intros env ip hostname port handshakeType proto dialTimeout log r log'.
    unfold tlsHandshakeAndCollectWithTimeout. io_run.
    destruct (dialer_Dial env ip port dialTimeout handshakeType); simpl;
      io_run; [|done].
    destruct (uconn_Handshake env ip hostname port handshakeType) as [chain|];
      [|done].
    rewrite encodePeerCertificates_spec. simpl.
    case_match; [done |]. intros [= <- _]. by exists chain.
  - vm_compute. reflexivity.
Qed.

(** ** The wildcard matcher, as specified *)

(** The case tables of the examples obey the laws of [unicode.ToLower]. *)
Lemma Examples_unicode_laws : UnicodeLaws Examples.unicode.
Proof.
  split; intros r; unfold unicode_ToLower, Examples.unicode;
    repeat match goal with
           | |- context [?a <=? ?b] => destruct (Z.leb_spec a b)
           | |- context [?a =? ?b] => destruct (Z.eqb_spec a b)
           end; simpl; lia.
Qed.

(** C5. The matcher compares without regard to case: it compares the
    lower-case forms [strings.ToLower] gives of the pattern and of the
    string. An empty pattern never matches; the pattern [*] matches every
    string, the empty one included; [prefix*] matches exactly the strings
    that begin with the prefix; [*suffix] exactly those that end with the
    suffix; [*mid*] exactly those that contain [mid]; any other pattern
    matches exactly the strings equal to it; all of these up to case. A
    pattern is read as [*mid*] when it begins and ends with [*], as
    [*suffix] when it only begins with one, and as [prefix*] when it only
    ends with one. This holds for the case tables of Unicode, of which it
    uses that [*] is the lower case of [*] and of no other rune. *)
Theorem matchWildcard_spec {U : Unicode} {L : UnicodeLaws U} :
  (∀ s, matchWildcard "" s = false)
  ∧ (∀ s, matchWildcard "*" s = true)
  ∧ (∀ pre s, HasPrefix pre "*" = false →
       matchWildcard (pre +:+ "*") s = true
       ↔ ∃ t, ToLower s = ToLower pre +:+ t)
  ∧ (∀ suf s, HasSuffix suf "*" = false →
       matchWildcard ("*" +:+ suf) s = true
       ↔ ∃ t, ToLower s = t +:+ ToLower suf)
  ∧ (∀ mid s,
       matchWildcard ("*" +:+ mid +:+ "*") s = true
       ↔ ∃ a b, ToLower s = a +:+ ToLower mid +:+ b)
  ∧ (∀ p s, p ≠ "" → HasPrefix p "*" = false → HasSuffix p "*" = false →
       matchWildcard p s = true ↔ ToLower s = ToLower p)
  ∧ (∀ p p' s s', ToLower p = ToLower p' → ToLower s = ToLower s' →
       matchWildcard p s = matchWildcard p' s')
  ∧ matchWildcard "*.example.com" "mail.example.com" = true
  ∧ matchWildcard "*example*" "xexampley" = true
  ∧ matchWildcard "example.com" "example.com" = true
  ∧ matchWildcard "*" "" = true
  ∧ matchWildcard "" "anything" = false.
Proof.
  split_and!; try reflexivity.
  - apply matchWildcard_prefix.
  - apply matchWildcard_suffix.
  - apply matchWildcard_contains.
  - apply matchWildcard_exact.
  - apply matchWildcard_fold.
Qed.

(** Patterns and strings that differ in case, in ASCII and beyond; and two
    bytes that are no UTF-8, which both read as U+FFFD. *)
Lemma matchWildcard_spec_witness :
  matchWildcard (U := Examples.unicode) ("Mail." +:+ "*") "MAIL.example.com" = true
  ∧ matchWildcard (U := Examples.unicode)
      ("*" +:+ ".Example.COM") "www.example.com" = true
  ∧ matchWildcard (U := Examples.unicode) "Example.com" "EXAMPLE.COM" = true
  ∧ matchWildcard (U := Examples.unicode) "EXAMPLE.com" "example.COM"
    = matchWildcard (U := Examples.unicode) "example.com" "example.com"
  ∧ matchWildcard (U := Examples.unicode)
      (Examples.Ecole +:+ "*") Examples.ecole_fr = true
  ∧ matchWildcard (U := Examples.unicode)
      (String "255"%char "") (String "254"%char "") = true.
Proof.
  destruct (matchWildcard_spec (U := Examples.unicode) (L := Examples_unicode_laws))
    as (_ & _ & Hpre & Hsuf & _ & Heq & Hfold & _).
  split; [| split; [| split; [| split; [| split]]]].
  - apply (Hpre "Mail." "MAIL.example.com"); [reflexivity |].
    by exists "example.com".
  - apply (Hsuf ".Example.COM" "www.example.com"); [reflexivity |].
    by exists "www".
  - apply (Heq "Example.com" "EXAMPLE.COM"); [done | reflexivity.. ].
  - apply (Hfold "EXAMPLE.com" "example.com" "example.COM" "example.com");
      reflexivity.
  - apply (Hpre Examples.Ecole Examples.ecole_fr); [reflexivity |].
    by exists ".fr".
  - apply (Heq (String "255"%char "") (String "254"%char ""));
      [done | reflexivity.. ].
Defined.

(** ** The STARTTLS upgrader *)

Section SmtpFacts.

Context {U : Unicode}.

Import Legacy.

Lemma supportsStartTLS_false lines :
  supportsStartTLS lines = false
  ↔ ∀ l, l ∈ lines → Contains (ToUpper l) "STARTTLS" = false.
Proof.
  induction lines as [|l lines IH]; simpl.
  - split; [by intros _ l ?%elem_of_nil | done].
  - destruct (Contains (ToUpper l) "STARTTLS") eqn:Hl.
    + split; [done |]. intros H. rewrite <- Hl. apply H. by left.
    + rewrite IH. split.
      * intros H l' [-> | Hl']%elem_of_cons; auto.
      * intros H l' Hl'. apply H. by right.
Qed.

Lemma supportsStartTLS_true lines :
  supportsStartTLS lines = true
  ↔ ∃ l, l ∈ lines ∧ Contains (ToUpper l) "STARTTLS" = true.
Proof.
  induction lines as [|l lines IH]; simpl.
  - split; [done | by intros (l & ?%elem_of_nil & _)].
  - destruct (Contains (ToUpper l) "STARTTLS") eqn:Hl.
    + split; [|done]. intros _. exists l. split; [by left | done].
    + rewrite IH. split.
      * intros (l' & Hl' & Hc). exists l'. split; [by right | done].
      * intros (l' & [-> | Hl']%elem_of_cons & Hc); [congruence | eauto].
Qed.

Variables (peer : SmtpPeer) (ip hostname : string) (port now : Z).

(** The session on a trace that begins with a greeting, in closed
    form. *)
Lemma smtpSession_eq greeting rest :
  smtpSession peer ip hostname port now
    {| incoming := greeting :: rest; written := [] |}
  = match readEhlo rest [] with
    | (None, rest') =>
        (inl EhloReadFailed,
         {| incoming := rest'; written := [EHLO_certscan] |})
    | (Some lines, rest') =>
        if supportsStartTLS lines then
          match rest' with
          | [] =>
              (inl StartTLSFailed,
               {| incoming := []; written := [EHLO_certscan; STARTTLS_cmd] |})
          | line :: rest'' =>
              let c := {| incoming := rest'';
                          written := [EHLO_certscan; STARTTLS_cmd] |} in
              if HasPrefix line "220" then
                match smtp_tls peer with
                | None => (inl TLSHandshakeFailed, c)
                | Some [] => (inl NoCertReturned, c)
                | Some chain =>
                    (inr {| IP := ip; Port := port; Hostname := hostname;
                            HandshakeType := "";
                            Certificates := Base64.EncodeToString <$> chain;
                            Timestamp := now |}, c)
                end
              else (inl StartTLSFailed, c)
          end
        else
          (inl StartTLSNotSupported,
           {| incoming := rest'; written := [EHLO_certscan] |})
    end.
Proof.
  unfold smtpSession, mbind, SE_bind, ReadString, Fprintf, modify,
    readEhloLines, raise, mret, SE_ret.
  cbn [incoming written app].
  destruct (readEhlo rest []) as [[lines|] rest']; [|done].
  destruct (supportsStartTLS lines); [|done]. cbn [negb incoming written app].
  destruct rest' as [|line rest'']; [done |].
  destruct (HasPrefix line "220"); [|done]. cbn [negb].
  by destruct (smtp_tls peer) as [[|raw chain]|].
Qed.

End SmtpFacts.

(** Two readings of the same reply trace agree. *)
Ltac same_trace :=
  simplify_eq;
  repeat match goal with
         | H1 : Legacy.readEhlo ?r [] = _, H2 : Legacy.readEhlo ?r [] = _ |- _ =>
             rewrite H1 in H2; simplify_eq
         end.

(** C7. In the SMTP STARTTLS upgrader, for every reply trace of the server:
    when the lines collected as the EHLO reply do not contain "STARTTLS" in
    any case, the attempt fails with the unsupported error and only the EHLO
    command was written; whenever "STARTTLS\r\n" is written at all, one of
    the collected lines did contain it; and once it is written, a next reply
    that is missing or does not begin with "220" makes the attempt fail with
    the protocol error of STARTTLS, a result being returned only if that
    reply begins with "220". *)
Theorem scanSMTPStartTLS_starttls {U : Unicode}
    (peer : Legacy.SmtpPeer) (ip hostname : string) (port now : Z) :
  let out := Legacy.scanSMTPStartTLS peer ip hostname port now in
  (∀ greeting rest lines rest',
     Legacy.smtp_dial peer = true →
     Legacy.splitLines (Legacy.smtp_sends peer) "" = greeting :: rest →
     Legacy.readEhlo rest [] = (Some lines, rest') →
     (∀ l, l ∈ lines → Contains (ToUpper l) "STARTTLS" = false) →
     out = (inl Legacy.StartTLSNotSupported, [Legacy.EHLO_certscan])
     ∧ Legacy.STARTTLS_cmd ∉ out.2)
  ∧ (Legacy.STARTTLS_cmd ∈ out.2 →
     ∃ greeting rest lines rest' l,
       Legacy.splitLines (Legacy.smtp_sends peer) "" = greeting :: rest
       ∧ Legacy.readEhlo rest [] = (Some lines, rest')
       ∧ l ∈ lines ∧ Contains (ToUpper l) "STARTTLS" = true)
  ∧ (∀ greeting rest lines rest',
       Legacy.smtp_dial peer = true →
       Legacy.splitLines (Legacy.smtp_sends peer) "" = greeting :: rest →
       Legacy.readEhlo rest [] = (Some lines, rest') →
       Legacy.STARTTLS_cmd ∈ out.2 →
       (match rest' with
        | [] => True
        | line :: _ => HasPrefix line "220" = false
        end → out.1 = inl Legacy.StartTLSFailed)
       ∧ (∀ r, out.1 = inr r →
            ∃ line rest'', rest' = line :: rest''
                           ∧ HasPrefix line "220" = true)).
Proof.
  cbv zeta. unfold Legacy.scanSMTPStartTLS.
  destruct (Legacy.smtp_dial peer) eqn:Hdial; simpl.
  2: { split_and!; [done | by intros ?%elem_of_nil | done]. }
  destruct (Legacy.splitLines (Legacy.smtp_sends peer) "")
    as [|greeting rest] eqn:Hreplies.
  { split_and!; [done | by intros ?%elem_of_nil | done]. }
  rewrite smtpSession_eq.
  assert (Legacy.STARTTLS_cmd ∉ [Legacy.EHLO_certscan]) as Hehlo_only
    by (by intros [=]%list_elem_of_singleton).
  destruct (Legacy.readEhlo rest []) as [[lines|] rest'] eqn:Hehlo.
  2: { split_and!; [| done |]; intros; simplify_eq; congruence. }
  destruct (Legacy.supportsStartTLS lines) eqn:Hsup.
  - split_and!.
    + intros ? ? ? ? _ ? ? Hno. same_trace.
      apply supportsStartTLS_false in Hno. congruence.
    + intros _. apply supportsStartTLS_true in Hsup as (l & Hl & Hc).
      by exists greeting, rest, lines, rest', l.
    + destruct rest' as [|line rest''];
        intros ? ? ? ? _ ? ? _; same_trace; [done |].
      cbv zeta. split.
      * by intros ->.
      * intros r. destruct (HasPrefix line "220") eqn:Hline; [eauto | done].
  - simpl. split_and!; [| done | done].
    intros ? ? ? ? _ ? ? _. by same_trace.
Qed.

(** A server whose EHLO reply omits STARTTLS, one that announces it and
    then refuses the command, and one that announces it with a long s,
    which [strings.ToUpper] turns into an S, and then refuses the
    command. *)
Lemma scanSMTPStartTLS_starttls_witness :
  Legacy.scanSMTPStartTLS (U := Examples.unicode)
    (Examples.smtpPeer ["250 OK" +:+ Legacy.CRLF])
    "192.0.2.25" "mail.example.com" 587 1700000000
  = (inl Legacy.StartTLSNotSupported, [Legacy.EHLO_certscan])
  ∧ (Legacy.scanSMTPStartTLS (U := Examples.unicode)
       (Examples.smtpPeer ["250-STARTTLS" +:+ Legacy.CRLF;
                           "250 OK" +:+ Legacy.CRLF;
                           "454 TLS not available" +:+ Legacy.CRLF])
       "192.0.2.25" "mail.example.com" 587 1700000000).1
    = inl Legacy.StartTLSFailed
  ∧ (Legacy.scanSMTPStartTLS (U := Examples.unicode)
       (Examples.smtpPeer [Examples.long_s_STARTTLS +:+ Legacy.CRLF;
                           "454 TLS not available" +:+ Legacy.CRLF])
       "192.0.2.25" "mail.example.com" 587 1700000000).1
    = inl Legacy.StartTLSFailed.
Proof.
  split; [| split].
  - pose proof (scanSMTPStartTLS_starttls (U := Examples.unicode)
                  (Examples.smtpPeer ["250 OK" +:+ Legacy.CRLF])
                  "192.0.2.25" "mail.example.com" 587 1700000000) as H.
    cbv zeta in H. destruct H as (H & _ & _).
    refine (proj1 (H _ _ ["250 OK" +:+ Legacy.CRLF] [] eq_refl eq_refl eq_refl _)).
    intros l ->%list_elem_of_singleton. reflexivity.
  - pose proof (scanSMTPStartTLS_starttls (U := Examples.unicode)
                  (Examples.smtpPeer ["250-STARTTLS" +:+ Legacy.CRLF;
                                      "250 OK" +:+ Legacy.CRLF;
                                      "454 TLS not available" +:+ Legacy.CRLF])
                  "192.0.2.25" "mail.example.com" 587 1700000000) as H.
    cbv zeta in H. destruct H as (_ & _ & H).
    refine (proj1 (H _ _ ["250-STARTTLS" +:+ Legacy.CRLF; "250 OK" +:+ Legacy.CRLF]
                     ["454 TLS not available" +:+ Legacy.CRLF]
                     eq_refl eq_refl eq_refl _) eq_refl).
    vm_compute. right. left.
  - pose proof (scanSMTPStartTLS_starttls (U := Examples.unicode)
                  (Examples.smtpPeer [Examples.long_s_STARTTLS +:+ Legacy.CRLF;
                                      "454 TLS not available" +:+ Legacy.CRLF])
                  "192.0.2.25" "mail.example.com" 587 1700000000) as H.
    cbv zeta in H. destruct H as (_ & _ & H).
    refine (proj1 (H _ _ [Examples.long_s_STARTTLS +:+ Legacy.CRLF]
                     ["454 TLS not available" +:+ Legacy.CRLF]
                     eq_refl eq_refl eq_refl _) eq_refl).
    vm_compute. right. left.
Defined.

(** ** The admission gate *)

Section SchedulerFacts.

Import Scheduler.

Variable task : Z → IO unit.

Lemma step_measure cap s s' : step task cap s s' → (measure s' < measure s)%nat.
Proof.
  destruct 1; unfold measure; simpl; rewrite ?length_app; simpl;
    rewrite ?length_app; simpl; lia.
Qed.

Lemma step_ports cap s s' : step task cap s s' → ports_of s' ≡ₚ ports_of s.
Proof.
  destruct 1; unfold ports_of; simpl; rewrite <- ?app_assoc; simpl;
    rewrite <- ?Permutation_middle, ?app_nil_r; done.
Qed.

Lemma rtc_ports cap s s' : rtc (step task cap) s s' → ports_of s' ≡ₚ ports_of s.
Proof.
  induction 1 as [|s1 s2 s3 Hstep _ IH]; [done |].
  by rewrite IH, (step_ports _ _ _ Hstep).
Qed.





(** No run is longer than twice the number of ports. *)
Lemma run_length cap n s s' :
  nsteps (step task cap) n s s' → (n + measure s' ≤ measure s)%nat.
Proof.
  induction 1 as [|n s1 s2 s3 Hstep _ IH]; [lia |].
  pose proof (step_measure _ _ _ Hstep). lia.
Qed.

(** On an unbuffered semaphore the loop blocks at its first send. *)
Lemma zero_limit_stuck ports s' : ¬ step task 0 (init ports) s'.
Proof.
  unfold init. inversion 1; simplify_list_eq; try lia.
  all: by destruct run1.
Qed.

Lemma zero_limit_reach ports s :
  rtc (step task 0) (init ports) s → s = init ports.
Proof.
  inversion 1 as [|? s1 ? Hstep]; [done |]. by apply zero_limit_stuck in Hstep.
Qed.

End SchedulerFacts.

(** The scheduler takes the limit as the configuration gives it: were the
    limit 0, with the ports 443, 465 and 587 the semaphore would be created
    without capacity and the loop of [ScanAndSendWithProtocol] would wait
    at its first send while no goroutine exists that could receive; were
    it -1, the creation of the semaphore would panic. A default for such a
    limit is the loader's to give. *)
Lemma ScanAndSendWithProtocol_zero_limit_blocks :
  let ports := [443; 465; 587] in
  let scan limit :=
    ScanAndSendWithProtocol (U := Examples.unicode)
      Examples.parse Examples.smtpHandler
      (Examples.rsaOnly [Examples.der] (Examples.limited limit))
      "192.168.1.10" "192.168.1.10" ports "" in
  let task :=
    portTask (U := Examples.unicode) Examples.parse Examples.smtpHandler
      (Examples.rsaOnly [Examples.der] (Examples.limited 0))
      "192.168.1.10" "192.168.1.10" "" in
  scan 0 (Scheduler.Reaches (Scheduler.init ports))
  ∧ Scheduler.blocked task 0 (Scheduler.init ports)
  ∧ Scheduler.running (Scheduler.init ports) = []
  ∧ Scheduler.returned (Scheduler.init ports) = []
  ∧ scan (-1) Scheduler.Panics.
Proof.
  cbv zeta. split_and!; try reflexivity.
  - by apply Scheduler.run_steps with (cap := 0%nat).
  - split_and!; [by intros [? _] | done | apply zero_limit_stuck].
  - by apply Scheduler.run_panic.
Qed.



(** * Further properties of the code *)

(** ** Exclusion rules *)

Lemma matchWildcard_guard {U : Unicode} (pattern s : string) :
  negb (String.eqb pattern "") && matchWildcard pattern s = matchWildcard pattern s.
Proof. unfold matchWildcard. by destruct (String.eqb pattern ""). Qed.

Lemma isCertExcluded_app {U : Unicode} cert rules1 rules2 :
  isCertExcluded cert (rules1 ++ rules2)
  = isCertExcluded cert rules1 || isCertExcluded cert rules2.
Proof.
  induction rules1 as [|rule rules1 IH]; simpl; [done |].
  match goal with |- (if ?c then _ else _) = _ => by destruct c end.
Qed.

Lemma isCertExcluded_true {U : Unicode} cert rules :
  isCertExcluded cert rules = true
  ↔ ∃ rule, rule ∈ rules
      ∧ (matchWildcard (Issuer rule) (Issuer_String cert) = true
         ∨ matchWildcard (CN rule) (Subject_CommonName cert) = true).
Proof.
  induction rules as [|rule rules IH]; simpl.
  - split; [done | by intros (? & ?%elem_of_nil & _)].
  - rewrite !matchWildcard_guard.
    destruct (matchWildcard (Issuer rule) _) eqn:Hi; simpl.
    { split; [|done]. intros _. exists rule. split; [by left | by left]. }
    destruct (matchWildcard (CN rule) _) eqn:Hc; simpl.
    { split; [|done]. intros _. exists rule. split; [by left | by right]. }
    rewrite IH. split.
    + intros (r & Hr & H). exists r. split; [by right | done].
    + intros (r & [-> | Hr]%elem_of_cons & H); [|by eauto].
      destruct H; congruence.
Qed.

(** X1. A certificate is excluded exactly when some rule has an issuer
    pattern that matches the issuer's distinguished name, or a common-name
    pattern that matches the subject's common name. A rule's empty pattern
    matches nothing, so the rule without patterns excludes nothing. *)
Theorem isCertExcluded_iff {U : Unicode}
    (cert : Certificate) (rules : list ExcludeCertRule) :
  (isCertExcluded cert rules = true
   ↔ ∃ rule, rule ∈ rules
       ∧ (matchWildcard (Issuer rule) (Issuer_String cert) = true
          ∨ matchWildcard (CN rule) (Subject_CommonName cert) = true))
  ∧ isCertExcluded cert ({| Issuer := ""; CN := "" |} :: rules)
    = isCertExcluded cert rules.
Proof. split; [apply isCertExcluded_true | done]. Qed.

Section FilterMore.

Context {U : Unicode}.

Variable ParseCertificate : list byte → option Certificate.

Lemma survives_app rules1 rules2 der :
  survives ParseCertificate (rules1 ++ rules2) der
  = survives ParseCertificate rules1 der && survives ParseCertificate rules2 der.
Proof.
  unfold survives. destruct (ParseCertificate der); [|done].
  by rewrite isCertExcluded_app, negb_orb.
Qed.

Lemma filter_filter_andb {A} (f g : A → bool) l :
  List.filter g (List.filter f l) = List.filter (λ x, f x && g x) l.
Proof.
  induction l as [|x l IH]; simpl; [done |].
  destruct (f x); simpl; [destruct (g x) |]; by rewrite IH.
Qed.

Lemma filter_ext_bool {A} (f g : A → bool) l :
  (∀ x, f x = g x) → List.filter f l = List.filter g l.
Proof. intros H. induction l as [|x l IH]; simpl; by rewrite ?H, ?IH. Qed.

Lemma filter_sublist {A} (f : A → bool) l : List.filter f l `sublist_of` l.
Proof.
  induction l as [|x l IH]; simpl; [done |].
  destruct (f x); [by apply sublist_skip | by apply sublist_cons].
Qed.

Lemma elem_of_List_filter {A} (f : A → bool) l x :
  x ∈ List.filter f l ↔ x ∈ l ∧ f x = true.
Proof. rewrite !list_elem_of_In. apply filter_In. Qed.

End FilterMore.

(** X2. What the filter returns is, in encounter order and as often as
    they occur, the encoding of exactly those byte strings of its input
    that parse as a certificate that no rule excludes: the list of the
    encodings of the input with the others struck out. So it is a
    subsequence of the encoded input. Unparsable byte strings are dropped
    without an error. *)
Theorem filterCerts_survivors {U : Unicode}
    (ParseCertificate : list byte → option Certificate)
    (derCerts : list (list byte)) (rules : list ExcludeCertRule) :
  filterCerts ParseCertificate derCerts rules
  = Base64.EncodeToString
      <$> List.filter
            (λ der, match ParseCertificate der with
                    | Some cert => negb (isCertExcluded cert rules)
                    | None => false
                    end) derCerts
  ∧ filterCerts ParseCertificate derCerts rules
    `sublist_of` (Base64.EncodeToString <$> derCerts)
  ∧ ∀ e, e ∈ filterCerts ParseCertificate derCerts rules
         ↔ ∃ der cert, der ∈ derCerts ∧ e = Base64.EncodeToString der
                       ∧ ParseCertificate der = Some cert
                       ∧ isCertExcluded cert rules = false.
Proof.
  rewrite filterCerts_spec. split; [done |]. split.
  - apply fmap_sublist, filter_sublist.
  - intros e. rewrite list_elem_of_fmap. split.
    + intros (der & -> & [Hder Hs]%elem_of_List_filter).
      unfold survives in Hs.
      destruct (ParseCertificate der) as [cert|] eqn:Hp; [|done].
      exists der, cert. by apply negb_true_iff in Hs.
    + intros (der & cert & Hder & -> & Hp & Hex). exists der.
      split; [done |]. apply elem_of_List_filter. split; [done |].
      unfold survives. by rewrite Hp, Hex.
Qed.

(** X3. Filtering with one rule set and then, after decoding, with another
    is filtering once with both: rule sets accumulate, and the order in
    which two rule sets are given makes no difference. *)
Theorem filterCerts_rules_app {U : Unicode}
    (ParseCertificate : list byte → option Certificate)
    (x : list (list byte)) (R1 R2 : list ExcludeCertRule) :
  filterCerts ParseCertificate
    (decodeBase64Certs (filterCerts ParseCertificate x R1)) R2
  = filterCerts ParseCertificate x (R1 ++ R2)
  ∧ filterCerts ParseCertificate x (R1 ++ R2)
    = filterCerts ParseCertificate x (R2 ++ R1).
Proof.
  rewrite filterCerts_decoded, !filterCerts_spec, filter_filter_andb. split.
  - f_equal. apply filter_ext_bool. intros der. by rewrite survives_app.
  - f_equal. apply filter_ext_bool. intros der.
    rewrite !survives_app. apply andb_comm.
Qed.

(** X4. The edges of the rule set: without rules the filter only drops the
    byte strings that do not parse; a rule whose issuer pattern, or whose
    common-name pattern, is [*] drops every certificate. *)
Theorem filterCerts_edge_rules {U : Unicode}
    (ParseCertificate : list byte → option Certificate)
    (derCerts : list (list byte)) (rules : list ExcludeCertRule) (p : string) :
  filterCerts ParseCertificate derCerts []
  = Base64.EncodeToString
      <$> List.filter (λ der, bool_decide (is_Some (ParseCertificate der))) derCerts
  ∧ filterCerts ParseCertificate derCerts ({| Issuer := "*"; CN := p |} :: rules) = []
  ∧ filterCerts ParseCertificate derCerts ({| Issuer := p; CN := "*" |} :: rules) = [].
Proof.
  rewrite !filterCerts_spec. split_and!.
  - f_equal. apply filter_ext_bool. intros der. unfold survives.
    by destruct (ParseCertificate der).
  - rewrite (filter_ext_bool _ (λ _, false)).
    + by induction derCerts.
    + intros der. unfold survives. by destruct (ParseCertificate der).
  - rewrite (filter_ext_bool _ (λ _, false)).
    + by induction derCerts.
    + intros der. unfold survives. destruct (ParseCertificate der); [|done].
      simpl. rewrite !matchWildcard_guard.
      assert (matchWildcard "*" (Subject_CommonName c) = true) as -> by done.
      by rewrite orb_true_r.
Qed.

(** X5. Decoding undoes encoding: the list of byte strings a handshake
    returned is recovered unchanged, in order, from the base64 strings of a
    result. Each entry is decoded on its own, and an entry that is not
    base64 is dropped, so the output is never longer than the input. *)
Theorem decodeBase64Certs_roundtrip
    (ders : list (list byte)) (b64certs1 b64certs2 : list string) :
  decodeBase64Certs (Base64.EncodeToString <$> ders) = ders
  ∧ decodeBase64Certs (b64certs1 ++ b64certs2)
    = decodeBase64Certs b64certs1 ++ decodeBase64Certs b64certs2
  ∧ (length (decodeBase64Certs b64certs1) ≤ length b64certs1)%nat.
Proof.
  split_and!.
  - apply decodeBase64Certs_encoded.
  - unfold decodeBase64Certs. rewrite !decodeBase64Certs_loop_spec. simpl.
    apply omap_app.
  - unfold decodeBase64Certs. rewrite decodeBase64Certs_loop_spec. simpl.
    induction b64certs1 as [|b64 l IH]; csimpl; [done |].
    destruct (Base64.DecodeString b64); simpl; lia.
Qed.

(** ** One probe *)

Section ProbeMore.

Variable env : Env.

(** The outcome of a probe, for any dial timeout. *)
Lemma probe_eq ip hostname port handshakeType proto dialTimeout log :
  tlsHandshakeAndCollectWithTimeout env ip hostname port handshakeType proto
    dialTimeout log
  = (inr (if dialer_Dial env ip port dialTimeout handshakeType then
            match uconn_Handshake env ip hostname port handshakeType with
            | None => inl HandshakeError
            | Some [] => inl NoCertsFound
            | Some chain =>
                inr {| IP := ip; Port := port; Hostname := hostname;
                       HandshakeType := handshakeType;
                       Certificates := Base64.EncodeToString <$> chain;
                       Timestamp := time_Now_Unix env |}
            end
          else inl DialError),
     log ++ NetDial ip port handshakeType
         :: (if dialer_Dial env ip port dialTimeout handshakeType
             then [TlsHandshake ip hostname port handshakeType] else [])).
Proof.
  unfold tlsHandshakeAndCollectWithTimeout. io_run.
  destruct (dialer_Dial env ip port dialTimeout handshakeType); simpl; io_run; [|done].
  rewrite <- app_assoc. simpl.
  destruct (uconn_Handshake env ip hostname port handshakeType)
    as [[|raw chain]|]; simpl; try done.
  by rewrite encodePeerCertificates_spec.
Qed.

End ProbeMore.

(** X6. A probe never ends the process, and each of its outcomes arises
    in exactly one case: the dial error exactly when the connection is not
    established; the handshake error exactly when it is and the handshake
    fails; the error of a missing certificate exactly when the handshake
    succeeds with an empty chain; and a result exactly when the handshake
    succeeds with a chain that is not empty. That result is complete: it
    carries the address, port and host name probed, the family it was
    asked for, the time of the scan, and the encodings of the whole peer
    chain in handshake order, from which the chain is recovered. *)
Theorem probe_result_complete
    (env : Env) (ip hostname : string) (port : Z)
    (handshakeType proto : string) (dialTimeout : Z) (log : list Event) :
  let out := (tlsHandshakeAndCollectWithTimeout env ip hostname port
                handshakeType proto dialTimeout log).1 in
  let dialed := dialer_Dial env ip port dialTimeout handshakeType in
  let shaken := uconn_Handshake env ip hostname port handshakeType in
  (∀ code, out ≠ inl code)
  ∧ (out = inr (inl DialError) ↔ dialed = false)
  ∧ (out = inr (inl HandshakeError) ↔ dialed = true ∧ shaken = None)
  ∧ (out = inr (inl NoCertsFound) ↔ dialed = true ∧ shaken = Some [])
  ∧ (∀ r, out = inr (inr r)
          ↔ ∃ chain, dialed = true ∧ shaken = Some chain ∧ chain ≠ []
              ∧ r = {| IP := ip; Port := port; Hostname := hostname;
                       HandshakeType := handshakeType;
                       Certificates := Base64.EncodeToString <$> chain;
                       Timestamp := time_Now_Unix env |})
  ∧ (∀ r, out = inr (inr r) →
          Certificates r ≠ []
          ∧ Some (decodeBase64Certs (Certificates r)) = shaken).
Proof.
  cbv zeta. rewrite probe_eq. simpl.
  destruct (dialer_Dial env ip port dialTimeout handshakeType).
  2: { split_and!; try done; try (split; [done | by intros [? _]]).
       intros r. split; [done | by intros (? & ? & _)]. }
  destruct (uconn_Handshake env ip hostname port handshakeType)
    as [[|raw chain]|].
  - split_and!; try done; try (split; [done | by intros [_ ?]]).
    intros r. split; [done | by intros (? & _ & [= <-] & ? & _)].
  - split_and!; try done; try (split; [done | by intros [_ ?]]).
    + intros r. split.
      * intros [= <-]. by exists (raw :: chain).
      * by intros (? & _ & [= <-] & _ & ->).
    + intros r [= <-]. cbn [Certificates]. split; [done |].
      f_equal. apply (decodeBase64Certs_encoded (raw :: chain)).
  - split_and!; try done; try (split; [done | by intros [_ ?]]).
    intros r. split; [done | by intros (? & _ & ? & _)].
Qed.

(** X7. What a probe does on the network: it dials once; it starts a TLS
    handshake only on a connection that was established; it posts nothing
    to the webhook and writes no log line of its own. The protocol it is
    given changes nothing. *)
Theorem probe_trace
    (env : Env) (ip hostname : string) (port : Z)
    (handshakeType proto proto' : string) (dialTimeout : Z)
    (log : list Event) :
  let out := tlsHandshakeAndCollectWithTimeout env ip hostname port
               handshakeType proto dialTimeout log in
  out.2 = log ++ NetDial ip port handshakeType
              :: (if dialer_Dial env ip port dialTimeout handshakeType
                  then [TlsHandshake ip hostname port handshakeType] else [])
  ∧ tlsHandshakeAndCollectWithTimeout env ip hostname port handshakeType
      proto' dialTimeout log = out.
Proof. cbv zeta. by rewrite !probe_eq. Qed.

(** ** The webhook *)

Section SinkMore.

Variable env : Env.

Lemma sendToWebhook_eq results url log :
  sendToWebhook env results url log
  = let posted := HttpPost url (Token (Config env)) results in
    match client_Do env url (webhookTimeout env) results with
    | MarshalFailed => (inr tt, log ++ [ErrorLog "Failed to marshal results: %v"])
    | NewRequestFailed => (inr tt, log ++ [ErrorLog "Failed to create request: %v"])
    | DoFailed => (inr tt, log ++ [posted; ErrorLog "Webhook request failed: %v"])
    | Response StatusCode =>
        if (StatusCode <? 200) || (300 <=? StatusCode) then
          if StatusCode =? 403 then
            if String.eqb (Token (Config env)) "" then
              (inl 1, log ++ [posted;
                   ErrorLog "Webhook returned status: %d";
                   ErrorLog "Invalid or missing token for webhook %s";
                   Println (LF +:+ LF +:+ "No token provided.");
                   Println ("You can register your system in seconds with the following command:" +:+ LF);
                   Println "  curl -sSf https://cd.ultrapki.com/sh | sh";
                   Println (LF +:+ "This will generate a token for your system and show you how to add it to your config." +:+ LF)])
            else (inr tt, log ++ [posted;
                   ErrorLog "Webhook returned status: %d";
                   ErrorLog "Invalid or missing token for webhook %s"])
          else (inr tt, log ++ [posted; ErrorLog "Webhook returned status: %d"])
        else (inr tt, log ++ [posted])
    end.
Proof.
  unfold sendToWebhook. fold (webhookTimeout env). cbv zeta.
  destruct (client_Do env url _ results) as [| | |StatusCode]; io_run;
    rewrite <- ?app_assoc; try done.
  destruct ((StatusCode <? 200) || (300 <=? StatusCode)); io_run; [|done].
  destruct (StatusCode =? 403); io_run; rewrite <- ?app_assoc; [|done].
  destruct (String.eqb (Token (Config env)) ""); io_run;
    by rewrite <- ?app_assoc.
Qed.

End SinkMore.

Lemma sendToWebhook_exit_iff_aux
    (env : Env) (results : list ScanResult) (url : string)
    (log : list Event) (code : Z) :
  (sendToWebhook env results url log).1 = inl code
  ↔ code = 1
    ∧ client_Do env url (webhookTimeout env) results = Response 403
    ∧ Token (Config env) = "".
Proof.
  rewrite sendToWebhook_eq. cbv zeta.
  destruct (client_Do env url _ results) as [| | |StatusCode];
    try (split; [done | by intros (_ & ? & _)]).
  destruct ((StatusCode <? 200) || (300 <=? StatusCode)) eqn:Hs.
  2: { split; [done |]. intros (_ & [= ->] & _). done. }
  destruct (Z.eqb_spec StatusCode 403) as [-> | Hne].
  2: { split; [done |]. intros (_ & [= ->] & _). done. }
  destruct (String.eqb_spec (Token (Config env)) "") as [Ht | Ht]; simpl.
  - split; [by intros [= <-] | by intros (-> & _ & _)].
  - split; [done | by intros (_ & _ & ?)].
Qed.

(** X8. [sendToWebhook] ends the process in one case only, with exit code 1:
    the webhook answered 403 and no token is configured. A failure to
    build or to send the request, and any other answer, let it return. *)
Theorem sendToWebhook_exit_iff
    (env : Env) (results : list ScanResult) (url : string)
    (log : list Event) (code : Z) :
  (sendToWebhook env results url log).1 = inl code
  ↔ code = 1
    ∧ client_Do env url (webhookTimeout env) results = Response 403
    ∧ Token (Config env) = "".
Proof. apply sendToWebhook_exit_iff_aux. Qed.

(** X9. A batch is posted once at most, with the configured token, and the
    trace of [sendToWebhook] holds no dial and no handshake. A 2xx answer
    leaves nothing in the trace but the post itself. *)
Theorem sendToWebhook_posts_once
    (env : Env) (results : list ScanResult) (url : string) (log : list Event) :
  let out := sendToWebhook env results url log in
  let added := drop (length log) out.2 in
  out.2 = log ++ added
  ∧ (posts added = [] ∨ posts added = [results])
  ∧ filter (λ e, isNetwork e = true) added
    = (if requestSent env url results
       then [HttpPost url (Token (Config env)) results] else [])
  ∧ match client_Do env url (webhookTimeout env) results with
    | Response StatusCode =>
        if (200 <=? StatusCode) && (StatusCode <? 300)
        then out = (inr tt, log ++ [HttpPost url (Token (Config env)) results])
        else True
    | _ => True
    end.
Proof.
  cbv zeta. rewrite sendToWebhook_eq. unfold requestSent. cbv zeta.
  destruct (client_Do env url _ results) as [| | |StatusCode]; simpl;
    rewrite ?drop_app_length.
  1-3: split_and!; by eauto.
  destruct (Z.ltb_spec StatusCode 200), (Z.leb_spec 300 StatusCode),
    (Z.leb_spec 200 StatusCode), (Z.ltb_spec StatusCode 300); try lia; simpl.
  all: repeat case_match; simpl; rewrite ?drop_app_length;
    split_and!; by eauto.
Qed.

Lemma int64_small (x : Z) : - 2 ^ 63 ≤ x < 2 ^ 63 → int64 x = x.
Proof. intros Hx. unfold int64. rewrite Z.mod_small; lia. Qed.

(** X10. The timeout [sendToWebhook] gives the HTTP client is the
    configured number of milliseconds, 5000 in place of a number that is
    zero or less, times [time.Millisecond], in 64 bits. For every
    configured value up to 9223372036854 it is positive; at 9223372036855
    the product no longer fits and the timeout is negative. The client is
    consulted at that one timeout only, so two environments with the same
    configuration whose clients agree there are indistinguishable to
    [sendToWebhook]. *)
Theorem sendToWebhook_timeout_positive
    (env env' : Env) (results : list ScanResult) (url : string)
    (log : list Event) :
  Config env = Config env' →
  client_Do env url (webhookTimeout env) results
  = client_Do env' url (webhookTimeout env) results →
  (- 2 ^ 63 ≤ WebhookTimeoutMs (Config env) ≤ 9223372036854 →
   webhookTimeout env
   = (if WebhookTimeoutMs (Config env) <=? 0 then 5000
      else WebhookTimeoutMs (Config env)) * 1000000
   ∧ 0 < webhookTimeout env)
  ∧ (WebhookTimeoutMs (Config env) = 9223372036855 →
     webhookTimeout env = - 9223372036854551616)
  ∧ sendToWebhook env results url log = sendToWebhook env' results url log.
Proof.
  intros Hcfg Hdo. split_and!.
  - intros Hms. unfold webhookTimeout, milliseconds, time_Duration.
    rewrite (int64_small (WebhookTimeoutMs _)) by lia.
    unfold time_Millisecond. rewrite int64_small; case_match; lia.
  - intros Hms. unfold webhookTimeout. rewrite Hms. vm_compute. reflexivity.
  - rewrite !sendToWebhook_eq. unfold webhookTimeout in *.
    by rewrite <- !Hcfg, <- Hdo.
Qed.

(** A configured timeout of 2500 ms: the client is given 2500000000 ns,
    whatever it would answer under another timeout. *)
Lemma sendToWebhook_timeout_positive_witness :
  let env :=
    {| Config := {| WebhookURL := "http://localhost:8000/webhook";
                    Token := "token"; WebhookTimeoutMs := 2500;
                    DialTimeoutMs := 1000; ConcurrencyLimit := 4;
                    ExcludeCerts := [] |};
       time_Now_Unix := 1700000000;
       dialer_Dial := λ _ _ _ _, true;
       uconn_Handshake := λ _ _ _ _, None;
       client_Do := λ _ _ _, Response 200 |} in
  let env' :=
    {| Config := Config env;
       time_Now_Unix := 0;
       dialer_Dial := λ _ _ _ _, false;
       uconn_Handshake := λ _ _ _ _, None;
       client_Do := λ _ timeout _,
         if timeout =? 2500000000 then Response 200 else DoFailed |} in
  (webhookTimeout env = 2500 * 1000000 ∧ 0 < webhookTimeout env)
  ∧ sendToWebhook env [Examples.result []] "http://localhost:8000/webhook" []
    = sendToWebhook env' [Examples.result []] "http://localhost:8000/webhook" [].
Proof.
  cbv zeta.
  match goal with
  | |- _ ∧ sendToWebhook ?env ?results ?url ?log = sendToWebhook ?env' _ _ _ =>
      destruct (sendToWebhook_timeout_positive env env' results url log
                  eq_refl eq_refl) as (Hpos & _ & Heq)
  end.
  split; [apply Hpos; simpl; lia | exact Heq].
Defined.

(** ** The default TLS handler *)

Section HandlerMore.

Context {U : Unicode}.

Variable ParseCertificate : list byte → option Certificate.
Variable env : Env.

Lemma defaultTLSHandler_eq ip hostname port proto log :
  defaultTLSHandler ParseCertificate env ip hostname port proto log
  = let batch := filtered ParseCertificate env
                   <$> successfulFamilies env ip hostname port in
    let log' := log ++ probesTrace env ip hostname port in
    match batch with
    | [] => (inr true, log')
    | _ =>
        match sendToWebhook env batch (WebhookURL (Config env)) log' with
        | (inl code, log'') => (inl code, log'')
        | (inr _, log'') => (inr true, log'')
        end
    end.
Proof.
  unfold defaultTLSHandler, successfulFamilies, probesTrace. cbv zeta.
  rewrite bind_run, probe_run. csimpl.
  destruct (familyOutcome env ip hostname port "ecdsa") as [e1 | r1];
    rewrite !bind_run, ?emit_run; csimpl;
    rewrite !bind_run, probe_run; csimpl;
    destruct (familyOutcome env ip hostname port "rsa") as [e2 | r2];
    rewrite !bind_run, ?emit_run; csimpl;
    rewrite ?bind_run; csimpl; rewrite ?filterCerts_filtered;
    rewrite <- ?app_assoc, ?app_nil_r; simpl; rewrite <- ?app_assoc; simpl;
    try done.
  all: by match goal with
       | |- context [sendToWebhook env ?b ?u ?l] =>
           destruct (sendToWebhook env b u l) as [[?|[]] ?]
       end.
Qed.

Lemma familyOutcome_inr ip hostname port handshakeType r :
  familyOutcome env ip hostname port handshakeType = inr r →
  ∃ chain, chain ≠ []
    ∧ dialer_Dial env ip port (dialTimeout env) handshakeType = true
    ∧ uconn_Handshake env ip hostname port handshakeType = Some chain
    ∧ r = {| IP := ip; Port := port; Hostname := hostname;
             HandshakeType := handshakeType;
             Certificates := Base64.EncodeToString <$> chain;
             Timestamp := time_Now_Unix env |}.
Proof.
  unfold familyOutcome. destruct (dialer_Dial env ip port _); [|done].
  destruct (uconn_Handshake env ip hostname port handshakeType)
    as [[|raw chain]|]; try done.
  intros [= <-]. by exists (raw :: chain).
Qed.

Lemma elem_of_successfulFamilies ip hostname port r :
  r ∈ successfulFamilies env ip hostname port
  ↔ ∃ handshakeType, handshakeType ∈ ["ecdsa"; "rsa"]
      ∧ familyOutcome env ip hostname port handshakeType = inr r.
Proof.
  unfold successfulFamilies. rewrite list_elem_of_omap. split.
  - intros (h & Hh & Hr). exists h. split; [done |].
    destruct (familyOutcome env ip hostname port h); by simplify_eq.
  - intros (h & Hh & Hr). exists h. split; [done |]. by rewrite Hr.
Qed.

Lemma elem_of_posts (results : list ScanResult) (log : list Event) :
  results ∈ posts log ↔ ∃ url bearer, HttpPost url bearer results ∈ log.
Proof.
  unfold posts. rewrite list_elem_of_omap. split.
  - intros ([] & Hin & Heq); simplify_eq. eauto.
  - intros (url & bearer & Hin). by exists (HttpPost url bearer results).
Qed.

Lemma probesTrace_no_post ip hostname port url bearer results :
  HttpPost url bearer results ∉ probesTrace env ip hostname port.
Proof.
  unfold probesTrace, probeEvents. rewrite !elem_of_app, !elem_of_cons.
  destruct (dialer_Dial env ip port _ "ecdsa"),
    (dialer_Dial env ip port _ "rsa"),
    (familyOutcome env ip hostname port "ecdsa"),
    (familyOutcome env ip hostname port "rsa");
    rewrite ?elem_of_cons, ?elem_of_nil; naive_solver.
Qed.

End HandlerMore.

(** X11. The default handler always reports the port as handled; the one
    other way it ends is the process exit with code 1, which happens
    exactly when some family succeeded, the webhook answered the batch
    with 403 and no token is configured. Its protocol argument has no
    effect at all. *)
Theorem defaultTLSHandler_outcome {U : Unicode}
    (ParseCertificate : list byte → option Certificate) (env : Env)
    (ip hostname : string) (port : Z) (proto proto' : string)
    (log : list Event) :
  let out := defaultTLSHandler ParseCertificate env ip hostname port proto log in
  let batch := filtered ParseCertificate env
                 <$> successfulFamilies env ip hostname port in
  (out.1 = inr true ∨ out.1 = inl 1)
  ∧ (out.1 = inl 1
     ↔ batch ≠ []
       ∧ client_Do env (WebhookURL (Config env)) (webhookTimeout env) batch
         = Response 403
       ∧ Token (Config env) = "")
  ∧ defaultTLSHandler ParseCertificate env ip hostname port proto' log = out.
Proof.
  cbv zeta. rewrite !defaultTLSHandler_eq. cbv zeta.
  split_and!; [| | done].
  - destruct (filtered ParseCertificate env <$> _) as [|r batch] eqn:Hb;
      [by left |].
    match goal with
    | |- context [sendToWebhook env ?b ?u ?l] =>
        pose proof (sendToWebhook_exit_iff_aux env b u l) as Hexit;
        destruct (sendToWebhook env b u l) as [[code|[]] log'] eqn:Hsend
    end; simpl in *; [right | by left].
    by destruct (proj1 (Hexit code) eq_refl) as [-> _].
  - destruct (filtered ParseCertificate env <$> _) as [|r batch] eqn:Hb.
    { split; [done | by intros [? _]]. }
    match goal with
    | |- context [sendToWebhook env ?b ?u ?l] =>
        pose proof (sendToWebhook_exit_iff_aux env b u l 1) as Hexit;
        destruct (sendToWebhook env b u l) as [[code|[]] log'] eqn:Hsend
    end; simpl in *.
    + split.
      * intros [= ->]. split; [done |]. by apply Hexit.
      * intros (_ & Hdo & Htok). f_equal.
        assert (inl code = inl 1) as [= ->] by (apply Hexit; done). done.
    + split; [done |]. intros (_ & Hdo & Htok).
      by assert (@inr Z unit () = inl 1) by (apply Hexit; done).
Qed.

(** X12. Whatever the default handler posts is sound. A post goes to the
    configured webhook with the configured token and holds one result per
    successful family at least one; each result names the address, port
    and host of the call and the family [ecdsa] or [rsa]; and each of its
    certificates is the encoding of a certificate of the peer chain of
    that family which parses and which no exclusion rule matches. *)
Theorem defaultTLSHandler_posts_sound {U : Unicode}
    (ParseCertificate : list byte → option Certificate) (env : Env)
    (ip hostname : string) (port : Z) (proto : string) (log : list Event)
    (url bearer : string) (results : list ScanResult) :
  let out := defaultTLSHandler ParseCertificate env ip hostname port proto log in
  HttpPost url bearer results ∈ drop (length log) out.2 →
  url = WebhookURL (Config env) ∧ bearer = Token (Config env)
  ∧ results ≠ []
  ∧ ∀ r, r ∈ results →
      IP r = ip ∧ Port r = port ∧ Hostname r = hostname
      ∧ HandshakeType r ∈ ["ecdsa"; "rsa"]
      ∧ Timestamp r = time_Now_Unix env
      ∧ ∀ b64, b64 ∈ Certificates r →
          ∃ chain der cert,
            uconn_Handshake env ip hostname port (HandshakeType r) = Some chain
            ∧ der ∈ chain
            ∧ b64 = Base64.EncodeToString der
            ∧ ParseCertificate der = Some cert
            ∧ isCertExcluded cert (ExcludeCerts (Config env)) = false.
Proof.
  cbv zeta. rewrite defaultTLSHandler_eq. cbv zeta.
  remember (filtered ParseCertificate env
              <$> successfulFamilies env ip hostname port) as batch eqn:Hbatch.
  set (log' := log ++ probesTrace env ip hostname port).
  assert (HttpPost url bearer results
            ∈ drop (length log)
                (sendToWebhook env batch (WebhookURL (Config env)) log').2
          → url = WebhookURL (Config env) ∧ bearer = Token (Config env)
            ∧ results = batch) as Hsend.
  { rewrite sendToWebhook_eq. cbv zeta. subst log'.
    repeat case_match; simpl; rewrite <- ?app_assoc, drop_app_length;
      rewrite !elem_of_app, ?elem_of_cons, ?elem_of_nil;
      intros [Hin | Hin]; try (by apply probesTrace_no_post in Hin);
      naive_solver. }
  intros Hin.
  assert (batch ≠ [] ∧ url = WebhookURL (Config env)
          ∧ bearer = Token (Config env) ∧ results = batch)
    as (Hne & -> & -> & ->).
  { destruct batch as [|r batch'].
    - subst log'. simpl in Hin. rewrite drop_app_length in Hin.
      by apply probesTrace_no_post in Hin.
    - split; [done |]. apply Hsend.
      by destruct (sendToWebhook env (r :: batch') _ log') as [[?|?] ?]. }
  subst batch.
  split_and!; try done.
  intros r' (r & -> & Hr)%list_elem_of_fmap.
  apply elem_of_successfulFamilies in Hr as (h & Hh & Hr).
  apply familyOutcome_inr in Hr as (chain & Hchain & Hdial & Hhs & ->).
  unfold filtered, setCertificates. simpl. split_and!; try done.
  intros b64 (der & -> & Hder)%list_elem_of_fmap.
  apply elem_of_List_filter in Hder as [Hder Hsurv].
  rewrite omap_DecodeString_encoded in Hder.
  unfold survives in Hsurv.
  destruct (ParseCertificate der) as [cert|] eqn:Hparse; [|done].
  exists chain, der, cert. split_and!; try done.
  by apply negb_true_iff.
Qed.

Lemma defaultTLSHandler_posts_sound_witness :
  let env := Examples.rsaOnly [Examples.der] Examples.config in
  let results := [Examples.result [Base64.EncodeToString Examples.der]] in
  "http://localhost:8000/webhook" = WebhookURL (Config env)
  ∧ "" = Token (Config env)
  ∧ results ≠ []
  ∧ ∀ r, r ∈ results →
      IP r = "93.184.216.34" ∧ Port r = 443 ∧ Hostname r = "example.com"
      ∧ HandshakeType r ∈ ["ecdsa"; "rsa"]
      ∧ Timestamp r = time_Now_Unix env
      ∧ ∀ b64, b64 ∈ Certificates r →
          ∃ chain der cert,
            uconn_Handshake env "93.184.216.34" "example.com" 443
              (HandshakeType r) = Some chain
            ∧ der ∈ chain
            ∧ b64 = Base64.EncodeToString der
            ∧ Examples.parse der = Some cert
            ∧ isCertExcluded (U := Examples.unicode) cert
                (ExcludeCerts (Config env)) = false.
Proof.
  cbv zeta.
  apply (defaultTLSHandler_posts_sound (U := Examples.unicode) Examples.parse
           (Examples.rsaOnly [Examples.der] Examples.config)
           "93.184.216.34" "example.com" 443 "http1" []).
  apply list_elem_of_lookup. exists 5%nat. vm_compute. reflexivity.
Defined.

(** ** The dispatcher: which handler a port task runs *)

Section DispatchMore.

Context {U : Unicode}.

Variable ParseCertificate : list byte → option Certificate.
Variable smtpProtocolHandler : ProtocolHandler.
Variable env : Env.

Lemma shared_Contains_spec (l : list string) (x : string) :
  shared_Contains l x = true ↔ x ∈ l.
Proof.
  unfold shared_Contains. rewrite existsb_exists. split.
  - intros (y & Hin & ->%String.eqb_eq). by apply list_elem_of_In.
  - intros Hin. exists x. split; [by apply list_elem_of_In | apply String.eqb_refl].
Qed.

Lemma protocolHandlers_lookup (proto : string) :
  protocolHandlers ParseCertificate smtpProtocolHandler env !! proto
  = if String.eqb proto "smtp" then Some smtpProtocolHandler
    else if String.eqb proto "imap" then
      Some (notImplemented "IMAP protocol handler not implemented for %s:%d")
    else if String.eqb proto "pop3" then
      Some (notImplemented "POP3 protocol handler not implemented for %s:%d")
    else if String.eqb proto "ldap" then
      Some (notImplemented "LDAP protocol handler not implemented for %s:%d")
    else if String.eqb proto "custom" then
      Some (notImplemented "Custom protocol handler not implemented for %s:%d")
    else if String.eqb proto "http1" then
      Some (λ ip hostname port,
              defaultTLSHandler ParseCertificate env ip hostname port "http1")
    else if String.eqb proto "h2" then
      Some (λ ip hostname port,
              defaultTLSHandler ParseCertificate env ip hostname port "h2")
    else if String.eqb proto "h3" then
      Some (λ ip hostname port,
              defaultTLSHandler ParseCertificate env ip hostname port "h3")
    else None.
Proof.
  unfold protocolHandlers.
  repeat match goal with
  | |- context [String.eqb proto ?k] =>
      destruct (String.eqb_spec proto k) as [-> | ?]; [reflexivity |]
  end.
  apply not_elem_of_list_to_map_1. simpl.
  rewrite !elem_of_cons, elem_of_nil. naive_solver.
Qed.

Lemma portTask_eq ip hostname protocol port log :
  portTask ParseCertificate smtpProtocolHandler env ip hostname protocol port log
  = let proto := resolveProto protocol port in
    if negb (String.eqb proto "") && negb (shared_Contains AllowedProtocols proto)
    then (inr tt, log ++ [DebugLog "Protocol %s not allowed for %s:%d"])
    else
      match protocolHandlers ParseCertificate smtpProtocolHandler env !! proto with
      | Some handler =>
          let out := handler ip hostname port
                       (log ++ [DebugLog "Scanning %s -> %s:%d (protocol: %s)"]) in
          (match out.1 with inl code => inl code | inr _ => inr tt end, out.2)
      | None =>
          (inr tt, log ++ [ErrorLog "No handler for protocol %s, falling back to default TLS scan"])
      end.
Proof.
  unfold portTask. cbv zeta.
  destruct (negb _ && negb _); [by io_run |].
  destruct (protocolHandlers _ _ _ !! _) as [handler|]; [| by io_run].
  io_run.
  by destruct (handler ip hostname port _) as [[?|[]] ?].
Qed.

End DispatchMore.

(** X13. The handler table has an entry for exactly the protocols of the
    allow-list, so an allowed protocol never reaches the branch for a
    missing handler: that branch is taken for the empty protocol only. *)
Theorem protocolHandlers_keys {U : Unicode}
    (ParseCertificate : list byte → option Certificate)
    (smtpProtocolHandler : ProtocolHandler) (env : Env)
    (ip hostname protocol : string) (port : Z) (log : list Event) :
  (∀ proto,
     is_Some (protocolHandlers ParseCertificate smtpProtocolHandler env !! proto)
     ↔ proto ∈ AllowedProtocols)
  ∧ (resolveProto protocol port = ""
     ↔ portTask ParseCertificate smtpProtocolHandler env ip hostname protocol
         port log
       = (inr tt, log ++ [ErrorLog "No handler for protocol %s, falling back to default TLS scan"])
       ∧ protocolHandlers ParseCertificate smtpProtocolHandler env
           !! resolveProto protocol port = None).
Proof.
  assert (∀ proto,
     is_Some (protocolHandlers ParseCertificate smtpProtocolHandler env !! proto)
     ↔ proto ∈ AllowedProtocols) as Hkeys.
  { intros proto. rewrite protocolHandlers_lookup. unfold AllowedProtocols.
    rewrite !elem_of_cons, elem_of_nil.
    repeat match goal with
    | |- context [String.eqb proto ?k] =>
        destruct (String.eqb_spec proto k) as [-> | ?]; [by intuition eauto |]
    end.
    split; [by intros [] | naive_solver]. }
  split; [done |]. split.
  - intros Hproto. rewrite portTask_no_protocol by done. by rewrite Hproto.
  - intros [Htask Hnone].
    destruct (String.eqb_spec (resolveProto protocol port) "") as [|Hne];
      [done |].
    exfalso. rewrite portTask_eq in Htask. cbv zeta in Htask.
    apply eq_None_not_Some in Hnone. rewrite Hkeys in Hnone.
    apply (not_iff_compat (shared_Contains_spec _ _)) in Hnone.
    apply not_true_is_false in Hnone. rewrite Hnone in Htask.
    destruct (String.eqb_spec (resolveProto protocol port) "") as [|_];
      [done |].
    simpl in Htask. by injection Htask as [= ?]%app_inv_head.
Qed.

(** X14. A port task whose protocol is not empty and is none of [smtp],
    [http1], [h2] and [h3] scans nothing. For [imap], [pop3], [ldap] and
    [custom] the handler only logs that it is not implemented, and no
    fallback TLS scan follows; any other name is refused by the allow-list.
    Either way the task returns after debug log lines only. *)
Theorem portTask_without_scan {U : Unicode}
    (ParseCertificate : list byte → option Certificate)
    (smtpProtocolHandler : ProtocolHandler) (env : Env)
    (ip hostname protocol : string) (port : Z) (log : list Event) :
  resolveProto protocol port ∉ ["smtp"; "http1"; "h2"; "h3"] →
  resolveProto protocol port ≠ "" →
  ∃ format,
    portTask ParseCertificate smtpProtocolHandler env ip hostname protocol
      port log
    = (inr tt,
       log ++ (if bool_decide (resolveProto protocol port ∈ AllowedProtocols)
               then [DebugLog "Scanning %s -> %s:%d (protocol: %s)";
                     DebugLog format]
               else [DebugLog "Protocol %s not allowed for %s:%d"])).
Proof.
  rewrite portTask_eq. cbv zeta. rewrite protocolHandlers_lookup.
  generalize (resolveProto protocol port). intros proto Hscan Hne.
  destruct (String.eqb_spec proto "") as [|_]; [done |].
  destruct (shared_Contains AllowedProtocols proto) eqn:Hallowed; simpl.
  - apply shared_Contains_spec in Hallowed.
    rewrite bool_decide_eq_true_2 by done.
    unfold AllowedProtocols in Hallowed.
    repeat (apply elem_of_cons in Hallowed as [-> | Hallowed]);
      try (by apply elem_of_nil in Hallowed);
      try (by exfalso; apply Hscan; rewrite !elem_of_cons; eauto 10);
      simpl; unfold notImplemented; io_run; simpl; rewrite <- app_assoc; by eexists.
  - apply not_true_iff_false in Hallowed.
    rewrite shared_Contains_spec in Hallowed.
    rewrite bool_decide_eq_false_2 by done. by exists "".
Qed.

Lemma portTask_without_scan_witness :
  ∃ format,
    portTask (U := Examples.unicode)
      Examples.parse Examples.smtpHandler
      (Examples.rsaOnly [Examples.der] Examples.config)
      "192.168.1.10" "mail.example.com" "imap" 993 []
    = (inr tt,
       [] ++ (if bool_decide (resolveProto "imap" 993 ∈ AllowedProtocols)
              then [DebugLog "Scanning %s -> %s:%d (protocol: %s)";
                    DebugLog format]
              else [DebugLog "Protocol %s not allowed for %s:%d"])).
Proof.
  apply (portTask_without_scan (U := Examples.unicode)
      Examples.parse Examples.smtpHandler
           (Examples.rsaOnly [Examples.der] Examples.config)
           "192.168.1.10" "mail.example.com" "imap" 993 []).
  - assert (resolveProto "imap" 993 = "imap") as -> by reflexivity.
    rewrite !elem_of_cons, elem_of_nil. naive_solver.
  - by vm_compute.
Defined.

(** X15. A port task that does scan runs one handler after one debug line
    and passes on nothing but a process exit: the flag the handler returns
    is dropped. On the ports 25, 465 and 587 the handler is the SMTP one
    whatever protocol was asked for; [http1], [h2] and [h3] on other ports
    all run the same default TLS handler. *)
Theorem portTask_scan {U : Unicode}
    (ParseCertificate : list byte → option Certificate)
    (smtpProtocolHandler : ProtocolHandler) (env : Env)
    (ip hostname protocol : string) (port : Z) (log : list Event) :
  resolveProto protocol port ∈ ["smtp"; "http1"; "h2"; "h3"] →
  let handler :=
    if bool_decide (port ∈ [25; 465; 587]) then smtpProtocolHandler
    else if String.eqb protocol "smtp" then smtpProtocolHandler
    else λ ip hostname port,
           defaultTLSHandler ParseCertificate env ip hostname port "http1" in
  let out := handler ip hostname port
               (log ++ [DebugLog "Scanning %s -> %s:%d (protocol: %s)"]) in
  portTask ParseCertificate smtpProtocolHandler env ip hostname protocol
    port log
  = (match out.1 with inl code => inl code | inr _ => inr tt end, out.2).
Proof.
  intros Hscan. cbv zeta. rewrite portTask_eq. cbv zeta.
  rewrite protocolHandlers_lookup.
  assert (shared_Contains AllowedProtocols (resolveProto protocol port) = true)
    as ->.
  { apply shared_Contains_spec. unfold AllowedProtocols.
    revert Hscan. rewrite !elem_of_cons, !elem_of_nil. naive_solver. }
  rewrite andb_false_r. revert Hscan. rewrite resolveProto_spec.
  destruct (decide (port ∈ [25; 465; 587])) as [Hsmtp | Hsmtp].
  - rewrite !(bool_decide_eq_true_2 _ Hsmtp).
    rewrite bool_decide_eq_false_2; [done |].
    intros [_ Hweb]. revert Hsmtp Hweb. rewrite !elem_of_cons, !elem_of_nil. lia.
  - rewrite !(bool_decide_eq_false_2 _ Hsmtp).
    destruct (decide (protocol = "" ∧ port ∈ [443; 8443; 4433; 5001; 10443]))
      as [[-> Hweb] | Hweb].
    + by rewrite bool_decide_eq_true_2.
    + rewrite (bool_decide_eq_false_2 _ Hweb). intros Hscan.
      repeat (apply elem_of_cons in Hscan as [-> | Hscan]);
        try (by apply elem_of_nil in Hscan); simpl; try done.
      all: by rewrite !(defaultTLSHandler_eq _ _ _ _ _ _),
             <- !(defaultTLSHandler_eq _ _ _ _ _ "http1").
Qed.

Lemma portTask_scan_witness :
  portTask (U := Examples.unicode)
      Examples.parse Examples.smtpHandler
    (Examples.rsaOnly [Examples.der] Examples.config)
    "192.168.1.10" "mail.example.com" "h2" 587 []
  = (inr tt, [DebugLog "Scanning %s -> %s:%d (protocol: %s)"]).
Proof.
  apply (portTask_scan (U := Examples.unicode)
      Examples.parse Examples.smtpHandler
           (Examples.rsaOnly [Examples.der] Examples.config)
           "192.168.1.10" "mail.example.com" "h2" 587 []).
  assert (resolveProto "h2" 587 = "smtp") as -> by reflexivity.
  rewrite !elem_of_cons. by left.
Defined.

(** ** The scheduler: bounds, order and termination *)

Lemma drop_cons_inv {A} (l : list A) k x l' :
  drop k l = x :: l' → drop (S k) l = l' ∧ take (S k) l = take k l ++ [x].
Proof.
  intros Hdrop.
  assert (l !! k = Some x) as Hk.
  { rewrite <- (Nat.add_0_r k), <- lookup_drop. by rewrite Hdrop. }
  split; [| by apply take_S_r].
  rewrite (drop_S _ _ _ Hk) in Hdrop. by simplify_eq.
Qed.

Lemma make_chan_Some concurrency cap :
  Scheduler.make_chan concurrency = Some cap ↔ 0 ≤ concurrency ∧ cap = Z.to_nat concurrency.
Proof.
  unfold Scheduler.make_chan. destruct (Z.ltb_spec concurrency 0); naive_solver lia.
Qed.

Section SchedulerMore.

Import Scheduler.

Variable task : Z → IO unit.

(** The ports are taken from the list in order, and never more of them
    run than the semaphore has room for. *)
Lemma step_bounded cap ports s s' :
  step task cap s s' →
  (length (running s) ≤ cap)%nat
  ∧ (∃ k, pending s = drop k ports ∧ returned s ++ running s ≡ₚ take k ports) →
  (length (running s') ≤ cap)%nat
  ∧ (∃ k, pending s' = drop k ports ∧ returned s' ++ running s' ≡ₚ take k ports).
Proof.
  intros Hstep [Hlen (k & Hpend & Hperm)].
  destruct Hstep as [port ports' run0 fin log Hlt | ports' run1 port run2 fin log log' Hcap Htask | ports' run1 port run2 fin log code log' Htask | port ports' run1 q run2 fin log log' Hcap Htask];
      simpl in *.
  - symmetry in Hpend. apply drop_cons_inv in Hpend as [Hdrop Htake]. split.
    + rewrite length_app. simpl. lia.
    + exists (S k). split; [done |].
      by rewrite Htake, <- Hperm, app_assoc.
  - split.
    + rewrite length_app in *. simpl in *. lia.
    + exists k. split; [done |]. rewrite <- Hperm, <- app_assoc. simpl.
      by rewrite <- !Permutation_middle.
  - split; [done |]. by exists k.
  - subst cap. rewrite length_app in Hlen. simpl in Hlen. lia.
Qed.

Lemma reach_bounded cap ports s :
  rtc (step task cap) (init ports) s →
  (length (running s) ≤ cap)%nat
  ∧ (∃ k, pending s = drop k ports ∧ returned s ++ running s ≡ₚ take k ports).
Proof.
  revert s. apply rtc_ind_r.
  - simpl. split; [lia |]. by exists 0%nat.
  - intros s1 s2 Hreach Hstep IH. by eapply step_bounded.
Qed.

(** With room for one goroutine the scan is sequential. *)
Lemma reach_sequential ports s :
  rtc (step task 1) (init ports) s →
  returned s ++ running s ++ pending s = ports
  ∧ (length (running s) ≤ 1)%nat
  ∧ (exit_code s = None →
     trace s = foldl (λ log port, (task port log).2) [] (returned s)).
Proof.
  revert s. apply rtc_ind_r.
  - simpl. split_and!; [done | lia | done].
  - intros s1 s2 Hreach Hstep IH. destruct IH as (Hports & Hlen & Htrace).
    destruct Hstep as [port ports' run0 fin log Hlt | ports' run1 port run2 fin log log' Hcap Htask | ports' run1 port run2 fin log code log' Htask | port ports' run1 q run2 fin log log' Hcap Htask];
      simpl in *.
    + destruct run0; [| simpl in *; lia]. split_and!; [| simpl; lia | done].
      by rewrite <- Hports.
    + rewrite length_app in Hlen. simpl in Hlen.
      destruct run1, run2; simpl in *; try lia.
      split_and!; [by rewrite <- app_assoc | lia |].
      intros _. rewrite foldl_app. simpl. rewrite <- Htrace by done.
      by rewrite Htask.
    + split_and!; done.
    + done.
Qed.

Lemma reach_exit cap ports s code :
  rtc (step task cap) (init ports) s →
  exit_code s = Some code →
  ∃ port log, port ∈ ports ∧ (task port log).1 = inl code
    ∧ trace s = (task port log).2.
Proof.
  revert s.
  apply (rtc_ind_r (λ s, exit_code s = Some code →
           ∃ port log, port ∈ ports ∧ (task port log).1 = inl code
             ∧ trace s = (task port log).2)).
  - done.
  - intros s1 s2 Hreach Hstep IH. pose proof (rtc_ports task _ _ _ Hreach) as Hports.
    destruct Hstep as [port ports' run0 fin log Hlt | ports' run1 port run2 fin log log' Hcap Htask | ports' run1 port run2 fin log code' log' Htask | port ports' run1 q run2 fin log log' Hcap Htask];
      simpl in *; try done.
    intros [= <-]. exists port, log. split_and!.
    + unfold ports_of in Hports. simpl in Hports.
      rewrite app_nil_r in Hports. rewrite <- Hports.
      rewrite !elem_of_app, elem_of_cons. eauto.
    + by rewrite Htask.
    + by rewrite Htask.
Qed.

End SchedulerMore.

Section ScanMore.

Context {U : Unicode}.

Variable ParseCertificate : list byte → option Certificate.
Variable smtpProtocolHandler : ProtocolHandler.
Variable env : Env.

(** A port task ends the process only from the default handler, or from
    the SMTP handler. *)
Lemma portTask_exit ip hostname protocol port log code :
  (portTask ParseCertificate smtpProtocolHandler env ip hostname protocol
     port log).1 = inl code →
  (∃ log', (smtpProtocolHandler ip hostname port log').1 = inl code)
  ∨ (code = 1 ∧ Token (Config env) = ""
     ∧ ∃ url batch,
         HttpPost url "" batch
         ∈ (portTask ParseCertificate smtpProtocolHandler env ip hostname
              protocol port log).2).
Proof.
  rewrite portTask_eq. cbv zeta. rewrite protocolHandlers_lookup.
  assert (∀ proto log' out,
    out = defaultTLSHandler ParseCertificate env ip hostname port proto log' →
    match out.1 with inl code => inl code | inr _ => inr () end
      = @inl Z unit code →
    code = 1 ∧ Token (Config env) = ""
    ∧ ∃ url batch, HttpPost url "" batch ∈ out.2) as Hdefault.
  { intros proto log' out ->. rewrite defaultTLSHandler_eq. cbv zeta.
    destruct (filtered ParseCertificate env <$> _) as [|r batch]; [done |].
    match goal with
    | |- context [sendToWebhook env ?b ?u ?l] =>
        pose proof (sendToWebhook_exit_iff_aux env b u l code) as Hexit;
        pose proof (sendToWebhook_eq env b u l) as Heq;
        destruct (sendToWebhook env b u l) as [[code'|[]] log''] eqn:Hsend
    end; simpl in *; [| done].
    intros [= ->]. destruct (proj1 Hexit eq_refl) as (-> & Hdo & Htok).
    split_and!; try done.
    rewrite Hdo, Htok in Heq. simpl in Heq. injection Heq as ->.
    eexists _, _. rewrite elem_of_app, elem_of_cons. right. by left. }
  destruct (negb _ && negb _); [done |].
  repeat match goal with
  | |- context [if String.eqb ?p ?k then _ else _] =>
      destruct (String.eqb p k)
  end; simpl; unfold notImplemented; io_run; simpl; try done.
  - intros Hexit. left.
    exists (log ++ [DebugLog "Scanning %s -> %s:%d (protocol: %s)"]).
    destruct (smtpProtocolHandler ip hostname port _) as [[?|?] ?];
      simpl in *; by simplify_eq.
  - intros ?. right. by eapply Hdefault.
  - intros ?. right. by eapply Hdefault.
  - intros ?. right. by eapply Hdefault.
Qed.

End ScanMore.

(** X16. However the goroutines are scheduled, at no time do more port
    tasks run than the configured concurrency limit; no port is lost or
    scanned twice; and the ports are started in list order: what is still
    waiting is a suffix of the port list, what has been started the prefix
    before it. *)
Theorem ScanAndSendWithProtocol_bounded {U : Unicode}
    (ParseCertificate : list byte → option Certificate)
    (smtpProtocolHandler : ProtocolHandler) (env : Env)
    (ip hostname : string) (ports : list Z) (protocol : string)
    (s : Scheduler.State) :
  ScanAndSendWithProtocol ParseCertificate smtpProtocolHandler env
    ip hostname ports protocol (Scheduler.Reaches s) →
  Z.of_nat (length (Scheduler.running s)) ≤ ConcurrencyLimit (Config env)
  ∧ Scheduler.ports_of s ≡ₚ ports
  ∧ ∃ k, Scheduler.pending s = drop k ports
       ∧ Scheduler.returned s ++ Scheduler.running s ≡ₚ take k ports.
Proof.
  unfold ScanAndSendWithProtocol.
  inversion 1 as [|cap s' [Hlimit ->]%make_chan_Some Hreach]; subst.
  destruct (reach_bounded _ _ _ _ Hreach) as [Hlen Hprefix].
  split_and!; [lia | | done].
  rewrite (rtc_ports _ _ _ _ Hreach). unfold Scheduler.ports_of. simpl.
  by rewrite app_nil_r.
Qed.

Lemma ScanAndSendWithProtocol_bounded_witness :
  let s := {| Scheduler.pending := [25]; Scheduler.running := [443];
              Scheduler.returned := []; Scheduler.trace := [];
              Scheduler.exit_code := None |} in
  Z.of_nat (length (Scheduler.running s)) ≤ 4
  ∧ Scheduler.ports_of s ≡ₚ [443; 25]
  ∧ ∃ k, Scheduler.pending s = drop k [443; 25]
       ∧ Scheduler.returned s ++ Scheduler.running s ≡ₚ take k [443; 25].
Proof.
  cbv zeta.
  apply (ScanAndSendWithProtocol_bounded (U := Examples.unicode)
      Examples.parse Examples.smtpHandler
           (Examples.rsaOnly [Examples.der] Examples.config)
           "192.168.1.10" "example.com" [443; 25] "").
  apply Scheduler.run_steps with (cap := 4%nat); [reflexivity |].
  eapply rtc_l; [| apply rtc_refl].
  apply (Scheduler.step_go _ 4 443 [25] [] [] []). simpl. lia.
Defined.

(** X18. A scan ends the process in one way only, as long as the SMTP
    handler does not: with exit code 1, after a port task has posted a
    batch while no token is configured. With a token configured a scan
    never ends the process. *)
Theorem ScanAndSendWithProtocol_exit {U : Unicode}
    (ParseCertificate : list byte → option Certificate)
    (smtpProtocolHandler : ProtocolHandler) (env : Env)
    (ip hostname : string) (ports : list Z) (protocol : string)
    (s : Scheduler.State) :
  (∀ ip hostname port log code,
     (smtpProtocolHandler ip hostname port log).1 ≠ inl code) →
  ScanAndSendWithProtocol ParseCertificate smtpProtocolHandler env
    ip hostname ports protocol (Scheduler.Reaches s) →
  match Scheduler.exit_code s with
  | Some code =>
      code = 1 ∧ Token (Config env) = ""
      ∧ ∃ url batch, HttpPost url "" batch ∈ Scheduler.trace s
  | None => True
  end.
Proof.
  intros Hsmtp. unfold ScanAndSendWithProtocol.
  inversion 1 as [|cap s' _ Hreach]; subst.
  destruct (Scheduler.exit_code s) as [code|] eqn:Hexit; [|done].
  destruct (reach_exit _ _ _ _ _ Hreach Hexit) as (port & log & _ & Htask & ->).
  apply portTask_exit in Htask as [[log' Hcontra] | Htask]; [|done].
  by apply Hsmtp in Hcontra.
Qed.

Lemma ScanAndSendWithProtocol_exit_witness :
  let env :=
    {| Config := Examples.config; time_Now_Unix := 1700000000;
       dialer_Dial := λ _ _ _ _, true;
       uconn_Handshake := λ _ _ _ _, Some [Examples.der];
       client_Do := λ _ _ _, Response 403 |} in
  let task := portTask (U := Examples.unicode)
      Examples.parse Examples.smtpHandler env
                "192.168.1.10" "example.com" "" in
  1 = 1 ∧ Token (Config env) = ""
  ∧ ∃ url batch, HttpPost url "" batch ∈ (task 443 []).2.
Proof.
  cbv zeta.
  apply (ScanAndSendWithProtocol_exit (U := Examples.unicode)
      Examples.parse Examples.smtpHandler
           {| Config := Examples.config; time_Now_Unix := 1700000000;
              dialer_Dial := λ _ _ _ _, true;
              uconn_Handshake := λ _ _ _ _, Some [Examples.der];
              client_Do := λ _ _ _, Response 403 |}
           "192.168.1.10" "example.com" [443] ""
           {| Scheduler.pending := []; Scheduler.running := [443];
              Scheduler.returned := [];
              Scheduler.trace :=
                (portTask (U := Examples.unicode)
      Examples.parse Examples.smtpHandler
                   {| Config := Examples.config; time_Now_Unix := 1700000000;
                      dialer_Dial := λ _ _ _ _, true;
                      uconn_Handshake := λ _ _ _ _, Some [Examples.der];
                      client_Do := λ _ _ _, Response 403 |}
                   "192.168.1.10" "example.com" "" 443 []).2;
              Scheduler.exit_code := Some 1 |}).
  - done.
  - apply Scheduler.run_steps with (cap := 4%nat); [reflexivity |].
    eapply rtc_l; [| eapply rtc_l; [| apply rtc_refl]].
    + apply (Scheduler.step_go _ 4 443 [] [] [] []). simpl. lia.
    + apply (Scheduler.step_exit _ 4 [] [] 443 [] [] [] 1). reflexivity.
Defined.

(** X19. With the concurrency limit 1 a scan is sequential: the ports are
    scanned one at a time in list order, and while the process lives the
    trace is that of running the port tasks of the returned ports one
    after the other. *)
Theorem ScanAndSendWithProtocol_sequential {U : Unicode}
    (ParseCertificate : list byte → option Certificate)
    (smtpProtocolHandler : ProtocolHandler) (env : Env)
    (ip hostname : string) (ports : list Z) (protocol : string)
    (s : Scheduler.State) :
  let task := portTask ParseCertificate smtpProtocolHandler env
                ip hostname protocol in
  ConcurrencyLimit (Config env) = 1 →
  ScanAndSendWithProtocol ParseCertificate smtpProtocolHandler env
    ip hostname ports protocol (Scheduler.Reaches s) →
  Scheduler.returned s ++ Scheduler.running s ++ Scheduler.pending s = ports
  ∧ (length (Scheduler.running s) ≤ 1)%nat
  ∧ match Scheduler.exit_code s with
    | Some _ => True
    | None =>
        Scheduler.trace s
        = foldl (λ log port, (task port log).2) [] (Scheduler.returned s)
    end.
Proof.
  cbv zeta. intros Hlimit. unfold ScanAndSendWithProtocol. rewrite Hlimit.
  inversion 1 as [|cap s' [_ ->]%make_chan_Some Hreach]; subst.
  destruct (reach_sequential _ _ _ Hreach) as (Hports & Hlen & Htrace).
  split_and!; [done | done |].
  destruct (Scheduler.exit_code s); [done | by apply Htrace].
Qed.

Lemma ScanAndSendWithProtocol_sequential_witness :
  let env := Examples.rsaOnly [Examples.der] (Examples.limited 1) in
  let task := portTask (U := Examples.unicode)
      Examples.parse Examples.smtpHandler env
                "192.168.1.10" "example.com" "" in
  let s := {| Scheduler.pending := [25]; Scheduler.running := [];
              Scheduler.returned := [993]; Scheduler.trace := (task 993 []).2;
              Scheduler.exit_code := None |} in
  Scheduler.returned s ++ Scheduler.running s ++ Scheduler.pending s = [993; 25]
  ∧ (length (Scheduler.running s) ≤ 1)%nat
  ∧ Scheduler.trace s
    = foldl (λ log port, (task port log).2) [] (Scheduler.returned s).
Proof.
  cbv zeta.
  apply (ScanAndSendWithProtocol_sequential (U := Examples.unicode)
      Examples.parse Examples.smtpHandler
           (Examples.rsaOnly [Examples.der] (Examples.limited 1))
           "192.168.1.10" "example.com" [993; 25] "").
  - reflexivity.
  - apply Scheduler.run_steps with (cap := 1%nat); [reflexivity |].
    eapply rtc_l; [| eapply rtc_l; [| apply rtc_refl]].
    + apply (Scheduler.step_go _ 1 993 [25] [] [] []). simpl. lia.
    + apply (Scheduler.step_done _ 1 [25] [] 993 [] [] []); [lia |].
      reflexivity.
Defined.

(** ** The STARTTLS upgrader and the legacy direct-TLS scan *)

Section SmtpMore.

Context {U : Unicode}.

Import Legacy.

Lemma readEhlo_complete cont last rest acc :
  Forall (λ l, HasPrefix l "250-" = true) cont →
  HasPrefix last "250-" = false →
  readEhlo (cont ++ last :: rest) acc = (Some (acc ++ cont ++ [last]), rest).
Proof.
  intros Hcont Hlast. revert acc.
  induction Hcont as [|l cont Hl _ IH]; intros acc; simpl.
  - by rewrite Hlast.
  - rewrite Hl. simpl. rewrite IH. by rewrite <- app_assoc.
Qed.

Lemma readEhlo_inv incoming acc :
  match readEhlo incoming acc with
  | (Some lines, rest) =>
      ∃ cont last,
        lines = acc ++ cont ++ [last] ∧ incoming = cont ++ last :: rest
        ∧ Forall (λ l, HasPrefix l "250-" = true) cont
        ∧ HasPrefix last "250-" = false
  | (None, rest) =>
      rest = [] ∧ Forall (λ l, HasPrefix l "250-" = true) incoming
  end.
Proof.
  revert acc. induction incoming as [|l incoming IH]; intros acc; simpl.
  - done.
  - destruct (HasPrefix l "250-") eqn:Hl; simpl.
    + specialize (IH (acc ++ [l])).
      destruct (readEhlo incoming (acc ++ [l])) as [[lines|] rest].
      * destruct IH as (cont & last & -> & -> & Hcont & Hlast).
        exists (l :: cont), last. rewrite <- app_assoc.
        split_and!; try done. by constructor.
      * destruct IH as [-> Hall]. split; [done | by constructor].
    + exists [], l. by split_and!.
Qed.

Lemma smtpSession_no_greeting peer ip hostname port now :
  smtpSession peer ip hostname port now {| incoming := []; written := [] |}
  = (inl SmtpGreetingFailed, {| incoming := []; written := [] |}).
Proof. reflexivity. Qed.

End SmtpMore.

(** X20. How the loop of [scanSMTPStartTLS] reads the EHLO reply: it
    collects the lines up to and including the first one that does not
    begin with [250-] and leaves the rest of the stream unread; when every
    line left begins with [250-] the read fails. *)
Theorem readEhlo_reply (incoming : list string) :
  match Legacy.readEhlo incoming [] with
  | (Some lines, rest) =>
      incoming = lines ++ rest
      ∧ ∃ cont last,
          lines = cont ++ [last]
          ∧ Forall (λ l, HasPrefix l "250-" = true) cont
          ∧ HasPrefix last "250-" = false
  | (None, rest) =>
      rest = [] ∧ Forall (λ l, HasPrefix l "250-" = true) incoming
      ∧ Legacy.readEhloLines
          {| Legacy.incoming := incoming; Legacy.written := [] |}
        = (inl Legacy.EhloReadFailed,
           {| Legacy.incoming := []; Legacy.written := [] |})
  end.
Proof.
  pose proof (readEhlo_inv incoming []) as Hinv.
  unfold Legacy.readEhloLines. simpl.
  destruct (Legacy.readEhlo incoming []) as [[lines|] rest].
  - destruct Hinv as (cont & last & -> & -> & Hcont & Hlast). simpl.
    split; [by rewrite <- app_assoc | by exists cont, last].
  - destruct Hinv as [-> Hall]. done.
Qed.

(** X21. [scanSMTPStartTLS] returns a result in one situation only: the
    dial succeeds, the server sends a greeting line, an EHLO reply that
    ends with a line not beginning with [250-] and names STARTTLS, then a
    line beginning with [220], and the TLS handshake yields a chain that
    is not empty. The result then holds the encodings of the whole chain,
    unfiltered and in order. Whatever happens, nothing is written to the
    connection but the EHLO command and, after it, the STARTTLS command. *)
Theorem scanSMTPStartTLS_result {U : Unicode}
    (peer : Legacy.SmtpPeer) (ip hostname : string) (port now : Z)
    (r : ScanResult) :
  let out := Legacy.scanSMTPStartTLS peer ip hostname port now in
  (out.2 = [] ∨ out.2 = [Legacy.EHLO_certscan]
   ∨ out.2 = [Legacy.EHLO_certscan; Legacy.STARTTLS_cmd])
  ∧ (out.1 = inr r
     ↔ ∃ greeting cont last line rest chain,
         Legacy.smtp_dial peer = true
         ∧ Legacy.splitLines (Legacy.smtp_sends peer) ""
           = greeting :: cont ++ last :: line :: rest
         ∧ Forall (λ l, HasPrefix l "250-" = true) cont
         ∧ HasPrefix last "250-" = false
         ∧ (∃ l, l ∈ cont ++ [last] ∧ Contains (ToUpper l) "STARTTLS" = true)
         ∧ HasPrefix line "220" = true
         ∧ Legacy.smtp_tls peer = Some chain ∧ chain ≠ []
         ∧ out.2 = [Legacy.EHLO_certscan; Legacy.STARTTLS_cmd]
         ∧ r = {| IP := ip; Port := port; Hostname := hostname;
                  HandshakeType := "";
                  Certificates := Base64.EncodeToString <$> chain;
                  Timestamp := now |}).
Proof.
  cbv zeta. unfold Legacy.scanSMTPStartTLS.
  destruct (Legacy.smtp_dial peer) eqn:Hdial; simpl.
  2: { split; [by left |]. split; [done | by intros (?&?&?&?&?&?&?&?)]. }
  destruct (Legacy.splitLines (Legacy.smtp_sends peer) "")
    as [|greeting incoming] eqn:Hsplit.
  { rewrite smtpSession_no_greeting. simpl. split; [by left |].
    split; [done | by intros (?&?&?&?&?&?&?&?&?)]. }
  rewrite smtpSession_eq.
  pose proof (readEhlo_inv incoming []) as Hinv.
  destruct (Legacy.readEhlo incoming []) as [[lines|] rest'] eqn:Hread.
  2: { simpl. split; [by eauto |]. split; [done |].
       intros (g & cont & last & line & rest & chain & _ & [= -> ->] & Hcont
               & Hlast & _).
       by rewrite (readEhlo_complete cont last (line :: rest) []) in Hread. }
  destruct Hinv as (cont & last & -> & -> & Hcont & Hlast). simpl.
  destruct (Legacy.supportsStartTLS (cont ++ [last])) eqn:Hsup.
  2: { simpl. split; [by eauto |]. split; [done |].
       intros (g & cont' & last' & line & rest & chain & _ & [= -> Heq] & Hcont'
               & Hlast' & Hl & _).
       rewrite Heq in Hread.
       rewrite (readEhlo_complete cont' last' (line :: rest) []) in Hread
         by done.
       simpl in Hread. injection Hread as Hlines _.
       apply supportsStartTLS_true in Hl. congruence. }
  apply supportsStartTLS_true in Hsup.
  assert (∀ g cont' last' line rest,
    greeting :: cont ++ last :: rest' = g :: cont' ++ last' :: line :: rest →
    Forall (λ l, HasPrefix l "250-" = true) cont' →
    HasPrefix last' "250-" = false →
    rest' = line :: rest) as Hsame.
  { intros g cont' last' line rest [= -> Heq] Hcont' Hlast'.
    rewrite Heq in Hread.
    rewrite (readEhlo_complete cont' last' (line :: rest) []) in Hread by done.
    by injection Hread as _ <-. }
  destruct rest' as [|line rest''].
  { simpl. split; [by eauto |]. split; [done |].
    intros (g & cont' & last' & line & rest & chain & _ & Heq & Hcont'
            & Hlast' & _). by eapply Hsame in Heq. }
  destruct (HasPrefix line "220") eqn:Hline.
  2: { simpl. split; [by eauto |]. split; [done |].
       intros (g & cont' & last' & line' & rest & chain & _ & Heq & Hcont'
               & Hlast' & _ & H220 & _).
       eapply Hsame in Heq; [| done | done].
       injection Heq as <- <-. congruence. }
  destruct (Legacy.smtp_tls peer) as [[|raw chain]|] eqn:Htls; simpl.
  - split; [by eauto |]. split; [done |].
    by intros (?&?&?&?&?&?&?&?&?&?&?&?&[= <-]&?&?).
  - split; [by eauto |]. split.
    + intros [= <-]. exists greeting, cont, last, line, rest'', (raw :: chain).
      by split_and!.
    + intros (?&?&?&?&?&?&?&?&?&?&?&?&[= <-]&?&?&->). done.
  - split; [by eauto |]. split; [done |].
    by intros (?&?&?&?&?&?&?&?&?&?&?&?&?&?).
Qed.

(** X22. The legacy direct-TLS scan of a port yields no result exactly
    when neither family returns a certificate; a result names the
    address, port and host scanned and the time of the scan, and its
    certificate list is never empty. *)
Theorem scanPort_result
    (ip hostname : string) (port now : Z)
    (ecdsa rsa : option (list (list byte))) :
  match Legacy.scanPort ip hostname port now ecdsa rsa with
  | None => default [] ecdsa = [] ∧ default [] rsa = []
  | Some r =>
      default [] ecdsa ++ default [] rsa ≠ []
      ∧ IP r = ip ∧ Port r = port ∧ Hostname r = hostname
      ∧ Timestamp r = now ∧ Certificates r ≠ []
      ∧ ∀ der, der ∈ default [] ecdsa ++ default [] rsa
               ↔ Base64.EncodeToString der ∈ Certificates r
  end.
Proof.
  unfold Legacy.scanPort.
  assert ((match rsa with
           | Some chain =>
               Legacy.collectCerts
                 (match ecdsa with
                  | Some chain0 => Legacy.collectCerts (∅, []) chain0
                  | None => (∅, [])
                  end) chain
           | None =>
               match ecdsa with
               | Some chain0 => Legacy.collectCerts (∅, []) chain0
               | None => (∅, [])
               end
           end).2
          = Base64.EncodeToString
              <$> firstOccurrences (default [] ecdsa ++ default [] rsa)) as ->.
  { rewrite <- collectCerts_fresh, collectCerts_app.
    destruct ecdsa, rsa; simpl; rewrite ?app_nil_r; done. }
  cbv zeta. rewrite length_fmap.
  remember (default [] ecdsa ++ default [] rsa) as chain eqn:Hchain.
  destruct chain as [|raw chain].
  - simpl. symmetry in Hchain. by apply app_eq_nil in Hchain.
  - change (length (firstOccurrences (raw :: chain)) =? 0)%nat with false.
    cbn [IP Port Hostname Timestamp Certificates].
    split_and!; try done.
    intros der. rewrite <- elem_of_firstOccurrences. split.
    + intros Hin. by apply list_elem_of_fmap_2.
    + intros (der' & Heq%EncodeToString_inj & Hin)%list_elem_of_fmap.
      by subst.
Qed.

(** ** Calls of the scan, and the compatibility helper *)

Section CallFacts.

Import Scheduler.

Variable task : Z → IO unit.

(** The states of a call with one port. *)
Lemma reach_single cap port log s :
  rtc (step task cap) (Calls.resume log [port]) s →
  s = Calls.resume log [port]
  ∨ s = {| pending := []; running := [port]; returned := []; trace := log;
           exit_code := None |}
  ∨ (∃ log', task port log = (inr tt, log')
       ∧ s = {| pending := []; running := []; returned := [port];
                trace := log'; exit_code := None |})
  ∨ (∃ code log', task port log = (inl code, log')
       ∧ s = {| pending := []; running := [port]; returned := [];
                trace := log'; exit_code := Some code |}).
Proof.
  revert s. apply rtc_ind_r; [by left |].
  intros s1 s2 _ Hstep [-> | [-> | [(log' & Htask & ->) | (code & log' & Htask & ->)]]].
  - inversion Hstep; simplify_list_eq; try by destruct run1.
    right. by left.
  - inversion Hstep as [| ? run1 ? run2 | ? run1 ? run2 | ]; simplify_list_eq.
    + destruct run1 as [|? [|]], run2; simplify_list_eq.
      right. right. left. by eexists.
    + destruct run1 as [|? [|]], run2; simplify_list_eq.
      right. right. right. by eexists _, _.
  - inversion Hstep; simplify_list_eq; by destruct run1.
  - inversion Hstep.
Qed.

Lemma call_single concurrency port log o :
  0 < concurrency →
  Calls.call task concurrency [port] log o ↔ o = Calls.outcome (task port log).
Proof.
  intros Hpos. split.
  - inversion 1 as [Hchan | cap s Hchan Hreach Hblocked | cap s code Hchan Hreach Hexit
                    | cap s Hchan Hreach Hfin]; subst.
    + apply eq_None_not_Some in Hchan. destruct Hchan.
      exists (Z.to_nat concurrency). apply make_chan_Some. lia.
    + apply make_chan_Some in Hchan as [_ ->].
      destruct Hblocked as (Hfin & Hexit & Hstuck). exfalso.
      apply reach_single in Hreach
        as [-> | [-> | [(log' & Htask & ->) | (code & log' & Htask & ->)]]].
      * eapply Hstuck. apply (step_go task _ port [] [] [] log). simpl. lia.
      * destruct (task port log) as [[code | []] log'] eqn:Htask.
        -- eapply Hstuck. by apply (step_exit task _ [] [] port [] [] log code log').
        -- eapply Hstuck. apply (step_done task _ [] [] port [] [] log log'); [lia | done].
      * by apply Hfin.
      * done.
    + apply reach_single in Hreach
        as [-> | [-> | [(log' & Htask & ->) | (code' & log' & Htask & ->)]]];
        simplify_eq/=. by rewrite Htask.
    + destruct Hfin as (Hpend & Hrun & Hexit).
      apply reach_single in Hreach
        as [-> | [-> | [(log' & Htask & ->) | (code' & log' & Htask & ->)]]];
        simplify_eq/=. by rewrite Htask.
  - intros ->.
    assert (make_chan concurrency = Some (Z.to_nat concurrency)) as Hchan.
    { apply make_chan_Some. lia. }
    assert (step task (Z.to_nat concurrency) (Calls.resume log [port])
              {| pending := []; running := [port]; returned := [];
                 trace := log; exit_code := None |}) as Hgo.
    { apply (step_go task _ port [] [] [] log). simpl. lia. }
    destruct (task port log) as [[code | []] log'] eqn:Htask; simpl.
    + apply (Calls.call_exits task concurrency [port] log _
               {| pending := []; running := [port]; returned := [];
                  trace := log'; exit_code := Some code |} code Hchan);
        [| done].
      eapply rtc_l; [exact Hgo |]. eapply rtc_l; [| apply rtc_refl].
      by apply (step_exit task _ [] [] port [] [] log code log').
    + apply (Calls.call_returns task concurrency [port] log _
               {| pending := []; running := []; returned := [port];
                  trace := log'; exit_code := None |} Hchan);
        [| done].
      eapply rtc_l; [exact Hgo |]. eapply rtc_l; [| apply rtc_refl].
      apply (step_done task _ [] [] port [] [] log log'); [lia | done].
Qed.

(** Without room in the semaphore nothing is ever started. *)
Lemma resume_stuck log ports s :
  rtc (step task 0) (Calls.resume log ports) s → s = Calls.resume log ports.
Proof.
  inversion 1 as [|? s1 ? Hstep]; [done |]. exfalso.
  inversion Hstep; simplify_list_eq; try lia; by destruct run1.
Qed.

Lemma call_not_positive concurrency ports log o :
  concurrency ≤ 0 →
  Calls.call task concurrency ports log o
  ↔ o = if concurrency <? 0 then Calls.Panics
        else match ports with
             | [] => Calls.Returns log
             | _ => Calls.Blocks log
             end.
Proof.
  intros Hle. destruct (Z.ltb_spec concurrency 0) as [Hneg | Hzero].
  - assert (make_chan concurrency = None) as Hchan.
    { unfold make_chan. by destruct (Z.ltb_spec concurrency 0); [| lia]. }
    split; [| intros ->; by constructor].
    inversion 1; simplify_eq; done.
  - assert (concurrency = 0) as -> by lia. split.
    + inversion 1 as [Hchan | cap s Hchan Hreach Hblocked
                      | cap s code Hchan Hreach Hexit | cap s Hchan Hreach Hfin];
        subst; try done;
        apply make_chan_Some in Hchan as [_ ->];
        change (Z.to_nat 0) with 0%nat in *.
      * apply resume_stuck in Hreach as ->. simpl.
        destruct ports; [| done].
        destruct Hblocked as [Hfin _]. by destruct Hfin.
      * by apply resume_stuck in Hreach as ->.
      * apply resume_stuck in Hreach as ->. destruct Hfin as [Hpend _].
        simpl in *. by subst.
    + intros ->. destruct ports as [|port ports].
      * by apply (Calls.call_returns task 0 [] log 0%nat (Calls.resume log [])).
      * apply (Calls.call_blocks task 0 (port :: ports) log 0%nat
                 (Calls.resume log (port :: ports))); [done | done |].
        split_and!; [by intros [? _] | done |].
        intros s' Hstep.
        inversion Hstep; simplify_list_eq; try lia; by destruct run1.
Qed.

End CallFacts.

Section CompatFacts.

Context {U : Unicode}.

Import Compat.

Variable ParseCertificate : list byte → option Certificate.
Variable smtpProtocolHandler : ProtocolHandler.
Variable env : Env.

Lemma protoOf_spec port :
  protoOf port = if bool_decide (port ∈ [25; 465; 587]) then "smtp" else "http1".
Proof.
  unfold protoOf, webPorts, smtpPorts. cbv zeta.
  destruct (decide (port ∈ [443; 8443; 4433; 10443; 5001])) as [Hweb | Hweb].
  - rewrite bool_decide_eq_false_2
      by (revert Hweb; rewrite !elem_of_cons, !elem_of_nil; lia).
    repeat (apply elem_of_cons in Hweb as [-> | Hweb]; [reflexivity |]).
    by apply elem_of_nil in Hweb.
  - rewrite (proj1 (not_elem_of_list_to_map _ port)); [| done].
    case_bool_decide as Hsmtp.
    + repeat (apply elem_of_cons in Hsmtp as [-> | Hsmtp]; [reflexivity |]).
      by apply elem_of_nil in Hsmtp.
    + by rewrite (proj1 (not_elem_of_list_to_map _ port)).
Qed.

Lemma ScanAndSend_inTurn ip host ports log o :
  0 < ConcurrencyLimit (Config env) →
  ScanAndSend ParseCertificate smtpProtocolHandler env ip host ports log o
  ↔ o = Calls.outcome
          (Calls.inTurn
             (λ port, portTask ParseCertificate smtpProtocolHandler env
                        ip host (protoOf port) port) ports log).
Proof.
  intros Hpos. split.
  - induction 1 as [log | port ports log log' o Hcall _ IH
                    | port ports log o Hcall Hstop]; [done | |].
    + apply call_single in Hcall; [| done]. simpl. rewrite bind_run.
      destruct (portTask _ _ _ _ _ _ port log) as [[code | []] log1];
        simpl in Hcall; by simplify_eq.
    + apply call_single in Hcall; [| done]. simpl. rewrite bind_run.
      destruct (portTask _ _ _ _ _ _ port log) as [[code | []] log1];
        simpl in Hcall; [done |].
      by destruct (Hstop log1).
  - revert log o. induction ports as [|port ports IH]; intros log o ->; simpl.
    + constructor.
    + rewrite bind_run.
      destruct (portTask ParseCertificate smtpProtocolHandler env ip host
                  (protoOf port) port log) as [[code | []] log1] eqn:Htask.
      * apply ScanAndSend_stop; [| done].
        apply call_single; [done |]. by rewrite Htask.
      * apply ScanAndSend_next with (log' := log1); [| by apply IH].
        apply call_single; [done |]. by rewrite Htask.
Qed.

Lemma ScanAndSend_not_positive ip host ports log o :
  ConcurrencyLimit (Config env) ≤ 0 →
  ScanAndSend ParseCertificate smtpProtocolHandler env ip host ports log o
  ↔ o = match ports with
        | [] => Calls.Returns log
        | _ => if ConcurrencyLimit (Config env) <? 0 then Calls.Panics
               else Calls.Blocks log
        end.
Proof.
  intros Hle. split.
  - inversion 1 as [| port ports' ? log' ? Hcall | port ports' ? ? Hcall];
      subst; [done | |].
    + apply call_not_positive in Hcall; [| done]. by case_match.
    + by apply call_not_positive in Hcall.
  - intros ->. destruct ports as [|port ports]; [constructor |].
    apply ScanAndSend_stop; [| by case_match].
    by apply call_not_positive.
Qed.

End CompatFacts.

(** X23. [ScanAndSend] scans the ports strictly one after the other, in
    list order and whatever the positive concurrency limit is: its outcome
    is the one of running the port tasks in turn, each with the protocol
    chosen for its port, up to the first that ends the process. *)
Theorem ScanAndSend_sequential {U : Unicode}
    (ParseCertificate : list byte → option Certificate)
    (smtpProtocolHandler : ProtocolHandler) (env : Env)
    (ip host : string) (ports : list Z) (log : list Event)
    (o : Calls.Outcome) :
  0 < ConcurrencyLimit (Config env) →
  Compat.ScanAndSend ParseCertificate smtpProtocolHandler env ip host ports log o
  ↔ o = Calls.outcome
          (Calls.inTurn
             (λ port, portTask ParseCertificate smtpProtocolHandler env
                        ip host (Compat.protoOf port) port) ports log).
Proof. apply ScanAndSend_inTurn. Qed.

Lemma ScanAndSend_sequential_witness :
  Compat.ScanAndSend (U := Examples.unicode)
      Examples.parse Examples.smtpHandler
    (Examples.rsaOnly [Examples.der] Examples.config)
    "192.168.1.10" "192.168.1.10" [993; 587] []
    (Calls.Returns
       [DebugLog "Scanning %s -> %s:%d (protocol: %s)";
        NetDial "192.168.1.10" 993 "ecdsa";
        TlsHandshake "192.168.1.10" "192.168.1.10" 993 "ecdsa";
        DebugLog "ECDSA handshake failed: %v";
        NetDial "192.168.1.10" 993 "rsa";
        TlsHandshake "192.168.1.10" "192.168.1.10" 993 "rsa";
        HttpPost "http://localhost:8000/webhook" ""
          [{| IP := "192.168.1.10"; Port := 993; Hostname := "192.168.1.10";
              HandshakeType := "rsa"; Certificates := ["MIIBCjCB"];
              Timestamp := 1700000000 |}];
        DebugLog "Scanning %s -> %s:%d (protocol: %s)"]).
Proof.
  apply (ScanAndSend_sequential (U := Examples.unicode)
      Examples.parse Examples.smtpHandler
           (Examples.rsaOnly [Examples.der] Examples.config)
           "192.168.1.10" "192.168.1.10" [993; 587] []); [reflexivity |].
  vm_compute. reflexivity.
Defined.

(** X24. [ScanAndSend] never asks for a protocol that is refused or has no
    handler: it chooses [smtp] on the ports 25, 465 and 587 and [http1] on
    every other port, the dispatcher keeps that choice, and so every port,
    mapped or not, is scanned by the SMTP handler or by the default TLS
    handler. *)
Theorem ScanAndSend_scans_every_port {U : Unicode}
    (ParseCertificate : list byte → option Certificate)
    (smtpProtocolHandler : ProtocolHandler) (env : Env)
    (ip host : string) (port : Z) (log : list Event) :
  let proto := Compat.protoOf port in
  let handler :=
    if bool_decide (port ∈ [25; 465; 587]) then smtpProtocolHandler
    else λ ip hostname port,
           defaultTLSHandler ParseCertificate env ip hostname port "http1" in
  let out := handler ip host port
               (log ++ [DebugLog "Scanning %s -> %s:%d (protocol: %s)"]) in
  proto = (if bool_decide (port ∈ [25; 465; 587]) then "smtp" else "http1")
  ∧ resolveProto proto port = proto
  ∧ portTask ParseCertificate smtpProtocolHandler env ip host proto port log
    = (match out.1 with inl code => inl code | inr _ => inr tt end, out.2).
Proof.
  cbv zeta. rewrite protoOf_spec, portTask_eq. cbv zeta.
  rewrite resolveProto_spec.
  destruct (decide (port ∈ [25; 465; 587])) as [Hsmtp | Hsmtp].
  - rewrite !(bool_decide_eq_true_2 _ Hsmtp).
    rewrite bool_decide_eq_false_2 by (by intros [? _]). done.
  - rewrite !(bool_decide_eq_false_2 _ Hsmtp).
    rewrite bool_decide_eq_false_2 by (by intros [? _]). done.
Qed.

(** X25. With a concurrency limit that is not positive [ScanAndSend] scans
    nothing: its first call waits on the semaphore for good, or panics
    when the limit is negative. With no port to scan it returns, whereas
    [ScanAndSendWithProtocol] panics on a negative limit even then. *)
Theorem ScanAndSend_limit_not_positive {U : Unicode}
    (ParseCertificate : list byte → option Certificate)
    (smtpProtocolHandler : ProtocolHandler) (env : Env)
    (ip host : string) (ports : list Z) (protocol : string)
    (log : list Event) (o : Calls.Outcome) :
  ConcurrencyLimit (Config env) ≤ 0 →
  (Compat.ScanAndSend ParseCertificate smtpProtocolHandler env ip host
     ports log o
   ↔ o = match ports with
         | [] => Calls.Returns log
         | _ => if ConcurrencyLimit (Config env) <? 0 then Calls.Panics
                else Calls.Blocks log
         end)
  ∧ (Compat.ScanAndSendWithProtocol_call ParseCertificate smtpProtocolHandler
       env ip host ports protocol log o
     ↔ o = if ConcurrencyLimit (Config env) <? 0 then Calls.Panics
           else match ports with
                | [] => Calls.Returns log
                | _ => Calls.Blocks log
                end).
Proof.
  intros Hle. split.
  - by apply ScanAndSend_not_positive.
  - by apply call_not_positive.
Qed.

Lemma ScanAndSend_limit_not_positive_witness :
  let env := Examples.rsaOnly [Examples.der] (Examples.limited (-1)) in
  (Compat.ScanAndSend (U := Examples.unicode)
      Examples.parse Examples.smtpHandler env
     "192.168.1.10" "192.168.1.10" [] [] (Calls.Returns [])
   ↔ Calls.Returns [] = Calls.Returns [])
  ∧ (Compat.ScanAndSendWithProtocol_call (U := Examples.unicode)
      Examples.parse Examples.smtpHandler
       env "192.168.1.10" "192.168.1.10" [] "" [] (Calls.Returns [])
     ↔ Calls.Returns [] = Calls.Panics).
Proof.
  cbv zeta.
  apply (ScanAndSend_limit_not_positive (U := Examples.unicode)
      Examples.parse Examples.smtpHandler
           (Examples.rsaOnly [Examples.der] (Examples.limited (-1)))
           "192.168.1.10" "192.168.1.10" [] "" [] (Calls.Returns [])).
  simpl. lia.
Defined.

(** ** Helpers of the command *)

Lemma bigEndian_snoc (ip : list Z) (b : Z) :
  bigEndian (ip ++ [b]) = 256 * bigEndian ip + b.
Proof. unfold bigEndian. by rewrite foldl_app. Qed.

Lemma bigEndian_bound (ip : list Z) :
  Forall (λ b, 0 ≤ b < 256) ip → 0 ≤ bigEndian ip < 256 ^ Z.of_nat (length ip).
Proof.
  induction ip as [|b ip IH] using rev_ind; intros Hall.
  - simpl. unfold bigEndian. simpl. lia.
  - apply Forall_app in Hall as [Hip [Hb _]%Forall_cons].
    specialize (IH Hip). rewrite bigEndian_snoc, length_app. simpl.
    replace (Z.of_nat (length ip + 1)) with (Z.of_nat (length ip) + 1) by lia.
    rewrite Z.pow_add_r by lia. lia.
Qed.

Lemma incIP_loop_spec (pre suf : list Z) :
  Forall (λ b, 0 ≤ b < 256) pre →
  ∃ pre',
    incIP_loop (length pre) (pre ++ suf) = pre' ++ suf
    ∧ length pre' = length pre
    ∧ Forall (λ b, 0 ≤ b < 256) pre'
    ∧ bigEndian pre' = (bigEndian pre + 1) mod 256 ^ Z.of_nat (length pre).
Proof.
  revert suf. induction pre as [|b pre IH] using rev_ind; intros suf Hall.
  - exists []. by split_and!.
  - apply Forall_app in Hall as [Hpre [Hb _]%Forall_cons].
    pose proof (bigEndian_bound pre Hpre) as Hbound.
    rewrite length_app. simpl. rewrite Nat.add_1_r. simpl.
    rewrite <- !app_assoc. simpl.
    rewrite !list_lookup_total_middle by done.
    rewrite insert_app_r_alt by lia. rewrite Nat.sub_diag. simpl.
    rewrite !list_lookup_total_middle by done.
    replace (Z.of_nat (S (length pre))) with (Z.of_nat (length pre) + 1) by lia.
    rewrite Z.pow_add_r by lia. change (256 ^ 1) with 256.
    rewrite bigEndian_snoc.
    destruct (Z.eqb_spec ((b + 1) mod 256) 0) as [Hzero | Hnz]; simpl.
    + assert (b = 255) as ->
        by (clear -Hzero Hb; Z.to_euclidean_division_equations; lia).
      destruct (IH (0 :: suf) Hpre) as (pre' & Heq & Hlen & Hall' & Hval).
      change ((255 + 1) mod 256) with 0. rewrite Heq.
      exists (pre' ++ [0]). rewrite <- app_assoc. split_and!; [done | | |].
      * rewrite !length_app. simpl. lia.
      * apply Forall_app. split; [done |]. constructor; [lia | done].
      * rewrite bigEndian_snoc, Hval.
        replace (256 * bigEndian pre + 255 + 1)
          with ((bigEndian pre + 1) * 256) by lia.
        rewrite Z.mul_mod_distr_r by lia. lia.
    + assert (b + 1 < 256) as Hlt.
      { destruct (decide (b = 255)) as [-> |]; [done | lia]. }
      clear Hnz.
      rewrite (Z.mod_small (b + 1)) by lia.
      exists (pre ++ [b + 1]). rewrite <- app_assoc. split_and!; [done | | |].
      * rewrite !length_app. simpl. lia.
      * apply Forall_app. split; [done |]. constructor; [lia | done].
      * rewrite bigEndian_snoc. rewrite Z.mod_small; [lia |]. nia.
Qed.

(** X26. [incIP] adds one to an address read as a number, first byte
    first, and wraps around at the end of the address space: the address
    of all 255 becomes the address of all 0. The length is kept and every
    byte stays a byte. *)
Theorem incIP_spec (ip : list Z) :
  Forall (λ b, 0 ≤ b < 256) ip →
  length (incIP ip) = length ip
  ∧ Forall (λ b, 0 ≤ b < 256) (incIP ip)
  ∧ bigEndian (incIP ip) = (bigEndian ip + 1) mod 256 ^ Z.of_nat (length ip).
Proof.
  intros Hall. unfold incIP.
  destruct (incIP_loop_spec ip [] Hall) as (ip' & Heq & Hlen & Hall' & Hval).
  rewrite app_nil_r in Heq. rewrite Heq, app_nil_r. done.
Qed.

Lemma incIP_spec_witness :
  length (incIP [10; 0; 255; 255]) = 4%nat
  ∧ Forall (λ b, 0 ≤ b < 256) (incIP [10; 0; 255; 255])
  ∧ bigEndian (incIP [10; 0; 255; 255])
    = (bigEndian [10; 0; 255; 255] + 1) mod 256 ^ Z.of_nat 4.
Proof.
  apply (incIP_spec [10; 0; 255; 255]).
  repeat constructor; lia.
Defined.

Lemma normalizeFlags_loop (pre suf : list string) :
  foldl (λ Args' '(i, arg),
           match aliases !! arg with
           | Some val => <[i := val]> Args'
           | None => Args'
           end)
        (pre ++ suf) (imap (λ i arg, (length pre + i, arg)%nat) suf)
  = pre ++ ((λ arg, default arg (aliases !! arg)) <$> suf).
Proof.
  revert pre. induction suf as [|arg suf IH]; intros pre; [done |].
  rewrite imap_cons, fmap_cons. cbn [foldl]. rewrite Nat.add_0_r.
  assert (match aliases !! arg with
          | Some val => <[length pre := val]> (pre ++ arg :: suf)
          | None => pre ++ arg :: suf
          end = (pre ++ [default arg (aliases !! arg)]) ++ suf) as ->.
  { rewrite <- app_assoc. destruct (aliases !! arg) as [val|]; simpl; [| done].
    rewrite insert_app_r_alt by lia. by rewrite Nat.sub_diag. }
  transitivity ((pre ++ [default arg (aliases !! arg)])
                ++ ((λ arg, default arg (aliases !! arg)) <$> suf));
    [| by rewrite <- app_assoc].
  rewrite <- IH. f_equal.
  apply imap_ext. intros i x _. simpl. rewrite length_app. simpl.
  f_equal. lia.
Qed.

Lemma aliases_lookup (arg : string) :
  aliases !! arg
  = if String.eqb arg "-d" then Some "--daemon"
    else if String.eqb arg "-c" then Some "--config"
    else if String.eqb arg "-l" then Some "--logfile"
    else if String.eqb arg "-p" then Some "--pidfile"
    else None.
Proof.
  unfold aliases.
  repeat match goal with
  | |- context [String.eqb arg ?k] =>
      destruct (String.eqb_spec arg k) as [-> | ?]; [reflexivity |]
  end.
  apply not_elem_of_list_to_map_1. simpl.
  rewrite !elem_of_cons, elem_of_nil. naive_solver.
Qed.

(** X27. [normalizeFlags] replaces each argument that is one of the short
    flags [-d], [-c], [-l] and [-p] by its long form and leaves every other
    argument, and the number and order of the arguments, as they are.
    Afterwards no short flag is left, and a second run changes nothing. *)
Theorem normalizeFlags_spec (Args : list string) :
  normalizeFlags Args = (λ arg, default arg (aliases !! arg)) <$> Args
  ∧ length (normalizeFlags Args) = length Args
  ∧ (∀ arg, arg ∈ normalizeFlags Args → aliases !! arg = None)
  ∧ normalizeFlags (normalizeFlags Args) = normalizeFlags Args.
Proof.
  assert (∀ l, normalizeFlags l = (λ arg, default arg (aliases !! arg)) <$> l)
    as Hmap.
  { intros l. unfold normalizeFlags.
    pose proof (normalizeFlags_loop [] l) as Hloop. simpl in Hloop.
    rewrite <- Hloop. f_equal. }
  assert (∀ arg, aliases !! default arg (aliases !! arg) = None) as Hnone.
  { intros arg. rewrite (aliases_lookup arg).
    repeat case_match; try reflexivity. simpl. rewrite aliases_lookup.
    repeat match goal with
           | H : String.eqb _ _ = false |- _ => rewrite H; clear H
           end. done. }
  split_and!.
  - apply Hmap.
  - by rewrite Hmap, length_fmap.
  - intros arg. rewrite Hmap.
    intros (arg' & -> & _)%list_elem_of_fmap. apply Hnone.
  - rewrite !Hmap, <- list_fmap_compose. apply list_fmap_ext.
    intros i arg _. simpl. by rewrite Hnone.
Qed.

Section IncludeFacts.

Variable isCIDR : string → bool.

Lemma flattenIncludeList_spec (entries : list IncludeEntry) :
  flattenIncludeList entries = Target <$> entries.
Proof.
  unfold flattenIncludeList.
  assert (∀ out, foldl (λ out e, out ++ [Target e]) out entries
                 = out ++ (Target <$> entries)) as H.
  { induction entries as [|e entries IH]; intros out; simpl.
    - by rewrite app_nil_r.
    - by rewrite IH, <- app_assoc. }
  apply H.
Qed.

Lemma isExplicitlyIncluded_true host includeList :
  isExplicitlyIncluded isCIDR host includeList = true
  ↔ ∃ entry, entry ∈ includeList ∧ isCIDR entry = false
             ∧ mapBytes lowerByte host = mapBytes lowerByte entry.
Proof.
  induction includeList as [|entry includeList IH]; simpl.
  - split; [done | by intros (? & ?%elem_of_nil & _)].
  - destruct (isCIDR entry) eqn:Hcidr.
    + rewrite IH. split.
      * intros (e & Hin & He). exists e. split; [by right | done].
      * intros (e & [-> | Hin]%elem_of_cons & Hc & He); [congruence |].
        by exists e.
    + unfold EqualFold at 1.
      destruct (String.eqb_spec (mapBytes lowerByte host)
                  (mapBytes lowerByte entry)) as [Heq | Hne].
      * split; [| done]. intros _. exists entry. split; [by left | done].
      * rewrite IH. split.
        -- intros (e & Hin & He). exists e. split; [by right | done].
        -- intros (e & [-> | Hin]%elem_of_cons & Hc & He); [done |].
           by exists e.
Qed.

End IncludeFacts.

(** X28. An entry of the include list whose target is not in CIDR
    notation is always explicitly included, in whatever case it is
    written, so the test that guards the exclude list for such an entry
    never lets the exclusion apply. A target in CIDR notation never makes
    a host explicitly included. *)
Theorem isExplicitlyIncluded_entry
    (isCIDR : string → bool) (includeList : list IncludeEntry)
    (e : IncludeEntry) (host : string) :
  e ∈ includeList →
  isCIDR (Target e) = false →
  mapBytes lowerByte host = mapBytes lowerByte (Target e) →
  isExplicitlyIncluded isCIDR host (flattenIncludeList includeList) = true
  ∧ isExplicitlyIncluded isCIDR (Target e) (flattenIncludeList includeList)
    = true
  ∧ (∀ hosts, Forall (λ entry, isCIDR entry = true) hosts →
       isExplicitlyIncluded isCIDR host hosts = false).
Proof.
  intros Hin Hcidr Hfold. rewrite flattenIncludeList_spec. split_and!.
  - apply isExplicitlyIncluded_true. exists (Target e).
    split_and!; [by apply list_elem_of_fmap_2 | done | done].
  - apply isExplicitlyIncluded_true. exists (Target e).
    split_and!; [by apply list_elem_of_fmap_2 | done | done].
  - intros hosts Hall. apply not_true_is_false.
    intros (entry & Hentry & Hc & _)%isExplicitlyIncluded_true.
    rewrite Forall_forall in Hall. apply Hall in Hentry. congruence.
Qed.

Lemma isExplicitlyIncluded_entry_witness :
  let isCIDR := λ entry, Contains entry "/" in
  let includeList :=
    [{| Target := "10.0.0.0/24"; Protocol := "" |};
     {| Target := "Mail.Example.com:587"; Protocol := "smtp" |}] in
  isExplicitlyIncluded isCIDR "mail.example.COM:587"
    (flattenIncludeList includeList) = true
  ∧ isExplicitlyIncluded isCIDR "Mail.Example.com:587"
      (flattenIncludeList includeList) = true
  ∧ (∀ hosts, Forall (λ entry, isCIDR entry = true) hosts →
       isExplicitlyIncluded isCIDR "mail.example.COM:587" hosts = false).
Proof.
  cbv zeta.
  apply (isExplicitlyIncluded_entry (λ entry, Contains entry "/")
           [{| Target := "10.0.0.0/24"; Protocol := "" |};
            {| Target := "Mail.Example.com:587"; Protocol := "smtp" |}]
           {| Target := "Mail.Example.com:587"; Protocol := "smtp" |}
           "mail.example.COM:587").
  - apply elem_of_cons. right. apply elem_of_cons. by left.
  - reflexivity.
  - reflexivity.
Defined.
